(** * The Marble Swindle: a shallow embedding of the interactive simulation core

    The development follows the engine modules of the repository:

    - [GameState]       src/engine/GameState.ts   (world state store, condition evaluator)
    - [Persistence]     src/engine/GameState.ts   (save / load on the storage blob)
    - [Pathfinding]     src/engine/pathfinding.ts (geometry and A* search)
    - [ScriptRunner]    src/engine/ScriptRunner.ts (command interpreter, suspension)
    - [DialogueManager] src/engine/DialogueManager.ts
    - [DialogueLoader]  src/engine/DialogueLoader.ts (selection and validation)
    - [GameScene]       src/engine/GameScene.ts   (action queue)

    Part I holds the embedding, each module with the vocabulary of its
    properties, and the concrete data of the examples ([Examples]); Part II
    holds the properties, Part III further properties of the same modules.

    Modelling conventions.  JavaScript numbers that carry coordinates or
    durations are exact rationals ([Q]); rounding, NaN and the infinities of
    IEEE doubles are outside the model there, and [Math.sqrt] is a parameter
    of the host ([Host]).  The reputation is a [Number]: NaN, an infinity or
    an exact rational.  Counters and priorities are integers ([Z]).
    Strings are [string], read as UTF-8 bytes.  A JS object used as a
    dictionary holds its own properties, in a [gmap] when only lookups matter
    and in an association list when its enumeration order is observed; a read
    [obj[key]] with a key taken from the data finds the own property or,
    failing that, the member of [Object.prototype] of that name
    ([property]).  Module-level [let] variables become
    fields of an explicit state record that is threaded through the functions;
    an [async] function becomes a computation that can suspend ([Runtime]). *)

From Stdlib Require Import ZArith QArith Qround Qminmax Lia Lqa Ascii String.
From stdpp Require Import base option list gmap strings pretty sorting.

#[local] Set Warnings "-register-all".
Local Open Scope Z_scope.
Local Open Scope string_scope.
Local Open Scope list_scope.

(** ** Types of src/types/game.ts shared by all modules *)

Record Point := mkPoint { px : Q; py : Q }.

Definition Polygon := list Point.

Inductive Facing := FacingLeft | FacingRight.

(** A JavaScript number whose value can be NaN or infinite. *)
Inductive Number :=
| NaN
| NegInfinity
| Finite (q : Q)
| PosInfinity.

(** [a + b] *)
Definition addNumbers (a b : Number) : Number :=
  match a, b with
  | NaN, _ | _, NaN => NaN
  | PosInfinity, NegInfinity | NegInfinity, PosInfinity => NaN
  | PosInfinity, _ | _, PosInfinity => PosInfinity
  | NegInfinity, _ | _, NegInfinity => NegInfinity
  | Finite p, Finite q => Finite (p + q)
  end.

(** [a < b]; a comparison with NaN is false. *)
Definition lessThan (a b : Number) : bool :=
  match a, b with
  | NaN, _ | _, NaN => false
  | _, NegInfinity | PosInfinity, _ => false
  | NegInfinity, _ | _, PosInfinity => true
  | Finite p, Finite q => negb (Qle_bool q p)
  end.

(** [Math.min(a, b)] and [Math.max(a, b)]: NaN when an argument is NaN. *)
Definition Math_min (a b : Number) : Number :=
  match a, b with
  | NaN, _ | _, NaN => NaN
  | _ , _ => if lessThan b a then b else a
  end.

Definition Math_max (a b : Number) : Number :=
  match a, b with
  | NaN, _ | _, NaN => NaN
  | _ , _ => if lessThan a b then b else a
  end.

(** The names of the members of [Object.prototype], which every object
    created by a literal or by [JSON.parse] inherits. *)
Definition ObjectPrototype : list string :=
  ["constructor"; "__defineGetter__"; "__defineSetter__"; "hasOwnProperty";
   "__lookupGetter__"; "__lookupSetter__"; "isPrototypeOf"; "propertyIsEnumerable";
   "toString"; "valueOf"; "__proto__"; "toLocaleString"].

(** What [obj[key]] finds: the value of the own property; the member of
    [Object.prototype] of that name (a function, and for [__proto__] the
    prototype itself), which is truthy and has none of the properties that
    the engine reads from its own objects; or [undefined]. *)
Inductive Property (A : Type) :=
| Value (a : A)
| Inherited (name : string)
| Undefined.
Arguments Value {A} a.
Arguments Inherited {A} name.
Arguments Undefined {A}.

(** [obj[key]], given the own property of that name if there is one. *)
Definition property {A : Type} (own : option A) (key : string) : Property A :=
  match own with
  | Some a => Value a
  | None => if bool_decide (key ∈ ObjectPrototype) then Inherited key else Undefined
  end.

(** [!!obj[key]] when the own properties hold objects. *)
Definition found {A : Type} (p : Property A) : bool :=
  match p with
  | Undefined => false
  | _ => true
  end.

(** [boolean | number | string], the value type of flags. *)
Inductive FlagValue :=
| VBool (b : bool)
| VNum (n : Z)
| VStr (s : string).

Record RoomState := mkRoomState {
  disabledHotspots : list string;
  removedCharacters : list string;
  customFlags : gmap string FlagValue
}.

Record GameStateT := mkGameState {
  currentRoom : string;
  playerPosition : Point;
  playerFacing : Facing;
  inventory : list string;
  flags : gmap string FlagValue;
  visitedRooms : list string;
  solvedPuzzles : list string;
  reputation : Number;
  dialogueHistory : list string;
  selectedChoices : list string;
  roomStates : gmap string RoomState
}.

(** What [console.error], [console.warn] and [console.log] received. *)
Inductive ConsoleEntry :=
| ConsoleError (msg : string)
| ConsoleWarn (msg : string)
| ConsoleLog (msg : string).

(** The events that src/engine/ScriptRunner.ts hands to its listeners
    ([ScriptEventType] with the payload built at each [emit]). *)
Inductive ScriptEvent :=
| EvSay (character text : string) (voiceLine : option string)
| EvNarrate (text : string)
| EvThought (text : string)
| EvDialogue (characterId : string) (nodeId : option string)
| EvItemAdded (itemId : string)
| EvItemRemoved (itemId : string)
| EvRoomChange (roomId : string) (position : option Point)
| EvFadeOut (duration : Q)
| EvFadeIn (duration : Q)
| EvWalk (characterId : string) (position : Point) (instant : bool)
| EvAnimate (characterId : string) (animation : option string) (facing : option Facing)
| EvSound (sound : string)
| EvMusic (music : option string) (fade : option Q) (play : bool)
| EvPuzzleSolved (puzzleId : string).

(** The services of the JavaScript host that the engine calls and that have no
    counterpart in the repository.

    - [Math_sqrt] is [Math.sqrt].
    - [evalFunc condition g] is the call
      [new Function(...Object.keys(context), `return ${condition};`)(...Object.values(context))]
      of [evaluateCondition], coerced with [!!]: [Some b] when the generated
      function returns a value of truthiness [b], [None] when building or
      calling it raises.
      The evaluation is taken to end and to leave the state as it is; a
      condition that changes the inventory array it is handed is outside the
      model, and no property below speaks of the inventory after an
      evaluation.
    - [listenerFails e] tells whether some registered script event listener
      raises when it is handed the event [e]. *)
Class Host := {
  Math_sqrt : Q → Q;
  evalFunc : string → GameStateT → option bool;
  listenerFails : ScriptEvent → bool
}.

(** ** src/engine/GameState.ts: the world state store *)
Module GameState.

Definition createInitialState : GameStateT :=
  {| currentRoom := "sinkhole";
     playerPosition := mkPoint (480 # 1) (450 # 1);
     playerFacing := FacingRight;
     inventory := [];
     flags := ∅;
     visitedRooms := [];
     solvedPuzzles := [];
     reputation := Finite 0;
     dialogueHistory := [];
     selectedChoices := [];
     roomStates := ∅ |}.

(** [Array.prototype.includes] on an array of strings. *)
Definition includes (l : list string) (x : string) : bool := bool_decide (x ∈ l).

(** [if (!l.includes(x)) l.push(x)] *)
Definition pushUnique (l : list string) (x : string) : list string :=
  if includes l x then l else l ++ [x].

(** Field updates of the singleton. *)
Definition with_currentRoom (v : string) (g : GameStateT) : GameStateT :=
  mkGameState v (playerPosition g) (playerFacing g) (inventory g) (flags g)
    (visitedRooms g) (solvedPuzzles g) (reputation g) (dialogueHistory g)
    (selectedChoices g) (roomStates g).
Definition with_playerPosition (v : Point) (g : GameStateT) : GameStateT :=
  mkGameState (currentRoom g) v (playerFacing g) (inventory g) (flags g)
    (visitedRooms g) (solvedPuzzles g) (reputation g) (dialogueHistory g)
    (selectedChoices g) (roomStates g).
Definition with_playerFacing (v : Facing) (g : GameStateT) : GameStateT :=
  mkGameState (currentRoom g) (playerPosition g) v (inventory g) (flags g)
    (visitedRooms g) (solvedPuzzles g) (reputation g) (dialogueHistory g)
    (selectedChoices g) (roomStates g).
Definition with_inventory (v : list string) (g : GameStateT) : GameStateT :=
  mkGameState (currentRoom g) (playerPosition g) (playerFacing g) v (flags g)
    (visitedRooms g) (solvedPuzzles g) (reputation g) (dialogueHistory g)
    (selectedChoices g) (roomStates g).
Definition with_flags (v : gmap string FlagValue) (g : GameStateT) : GameStateT :=
  mkGameState (currentRoom g) (playerPosition g) (playerFacing g) (inventory g) v
    (visitedRooms g) (solvedPuzzles g) (reputation g) (dialogueHistory g)
    (selectedChoices g) (roomStates g).
Definition with_visitedRooms (v : list string) (g : GameStateT) : GameStateT :=
  mkGameState (currentRoom g) (playerPosition g) (playerFacing g) (inventory g)
    (flags g) v (solvedPuzzles g) (reputation g) (dialogueHistory g)
    (selectedChoices g) (roomStates g).
Definition with_solvedPuzzles (v : list string) (g : GameStateT) : GameStateT :=
  mkGameState (currentRoom g) (playerPosition g) (playerFacing g) (inventory g)
    (flags g) (visitedRooms g) v (reputation g) (dialogueHistory g)
    (selectedChoices g) (roomStates g).
Definition with_reputation (v : Number) (g : GameStateT) : GameStateT :=
  mkGameState (currentRoom g) (playerPosition g) (playerFacing g) (inventory g)
    (flags g) (visitedRooms g) (solvedPuzzles g) v (dialogueHistory g)
    (selectedChoices g) (roomStates g).
Definition with_dialogueHistory (v : list string) (g : GameStateT) : GameStateT :=
  mkGameState (currentRoom g) (playerPosition g) (playerFacing g) (inventory g)
    (flags g) (visitedRooms g) (solvedPuzzles g) (reputation g) v
    (selectedChoices g) (roomStates g).
Definition with_selectedChoices (v : list string) (g : GameStateT) : GameStateT :=
  mkGameState (currentRoom g) (playerPosition g) (playerFacing g) (inventory g)
    (flags g) (visitedRooms g) (solvedPuzzles g) (reputation g)
    (dialogueHistory g) v (roomStates g).
Definition with_roomStates (v : gmap string RoomState) (g : GameStateT) : GameStateT :=
  mkGameState (currentRoom g) (playerPosition g) (playerFacing g) (inventory g)
    (flags g) (visitedRooms g) (solvedPuzzles g) (reputation g)
    (dialogueHistory g) (selectedChoices g) v.

(** *** Getters *)

Definition hasItem (itemId : string) (g : GameStateT) : bool :=
  includes (inventory g) itemId.

(** [defaultValue] is [None] when the argument is left out. *)
Definition getFlag (flag : string) (defaultValue : option FlagValue) (g : GameStateT)
  : Property FlagValue :=
  match property (flags g !! flag) flag with
  | Undefined => from_option Value Undefined defaultValue
  | value => value
  end.

Definition getReputation (g : GameStateT) : Number := reputation g.

Definition hasVisitedRoom (roomId : string) (g : GameStateT) : bool :=
  includes (visitedRooms g) roomId.

Definition hasSolvedPuzzle (puzzleId : string) (g : GameStateT) : bool :=
  includes (solvedPuzzles g) puzzleId.

Definition hasSelectedChoice (choiceId : string) (g : GameStateT) : bool :=
  includes (selectedChoices g) choiceId.

Definition emptyRoomState : RoomState := mkRoomState [] [] ∅.

(** [gameState.roomStates[roomId] || { ... }] *)
Definition getRoomState (roomId : string) (g : GameStateT) : Property RoomState :=
  match property (roomStates g !! roomId) roomId with
  | Undefined => Value emptyRoomState
  | roomState => roomState
  end.

(** *** Setters *)

Definition setCurrentRoom (roomId : string) (g : GameStateT) : GameStateT :=
  let g := with_currentRoom roomId g in
  with_visitedRooms (pushUnique (visitedRooms g) roomId) g.

Definition setPlayerPosition (position : Point) (g : GameStateT) : GameStateT :=
  with_playerPosition position g.

Definition setPlayerFacing (facing : Facing) (g : GameStateT) : GameStateT :=
  with_playerFacing facing g.

Definition addItem (itemId : string) (g : GameStateT) : GameStateT :=
  with_inventory (pushUnique (inventory g) itemId) g.

Definition removeItem (itemId : string) (g : GameStateT) : GameStateT :=
  with_inventory (filter (λ id, id ≠ itemId) (inventory g)) g.

(** [gameState.flags[flag] = value] makes or updates the own property.  (For
    the one key [__proto__] without an own property the assignment reaches
    the accessor of [Object.prototype] instead, which ignores the values of
    flags; the properties about the writes of a flag leave that key out.) *)
Definition setFlag (flag : string) (value : FlagValue) (g : GameStateT) : GameStateT :=
  with_flags (<[flag := value]> (flags g)) g.

(** [typeof current === 'number'] holds of no member of [Object.prototype]. *)
Definition incrementFlag (flag : string) (amount : Z) (g : GameStateT) : GameStateT :=
  match property (flags g !! flag) flag with
  | Value (VNum current) => with_flags (<[flag := VNum (current + amount)]> (flags g)) g
  | _ => with_flags (<[flag := VNum amount]> (flags g)) g
  end.

Definition setReputation (value : Number) (g : GameStateT) : GameStateT :=
  with_reputation (Math_max (Finite (-100)) (Math_min (Finite 100) value)) g.

Definition adjustReputation (amount : Number) (g : GameStateT) : GameStateT :=
  setReputation (addNumbers (reputation g) amount) g.

Definition markPuzzleSolved (puzzleId : string) (g : GameStateT) : GameStateT :=
  with_solvedPuzzles (pushUnique (solvedPuzzles g) puzzleId) g.

Definition recordDialogueVisit (nodeId : string) (g : GameStateT) : GameStateT :=
  with_dialogueHistory (pushUnique (dialogueHistory g) nodeId) g.

Definition recordChoiceSelection (choiceId : string) (g : GameStateT) : GameStateT :=
  with_selectedChoices (pushUnique (selectedChoices g) choiceId) g.

(** The state with the room state made if [gameState.roomStates[roomId]] was
    falsy, and what [gameState.roomStates[roomId]] is then. *)
Definition ensureRoomState (roomId : string) (g : GameStateT)
  : GameStateT * Property RoomState :=
  match property (roomStates g !! roomId) roomId with
  | Undefined =>
      (with_roomStates (<[roomId := emptyRoomState]> (roomStates g)) g,
       Value emptyRoomState)
  | roomState => (g, roomState)
  end.

(** [None] stands for the TypeError raised by [roomState.disabledHotspots.filter]
    and [.includes] when [roomState] is a member of [Object.prototype], on
    which [disabledHotspots] is undefined. *)
Definition setHotspotEnabled (roomId hotspotId : string) (enabled : bool)
    (g : GameStateT) : option GameStateT :=
  let r := ensureRoomState roomId g in
  match r.2 with
  | Value roomState =>
      let disabled :=
        if enabled then filter (λ id, id ≠ hotspotId) (disabledHotspots roomState)
        else pushUnique (disabledHotspots roomState) hotspotId in
      Some (with_roomStates
              (<[roomId := mkRoomState disabled (removedCharacters roomState)
                             (customFlags roomState)]> (roomStates r.1)) r.1)
  | _ => None
  end.

(** [None] stands for the TypeError raised by [roomState.disabledHotspots.includes]
    in the same case. *)
Definition isHotspotEnabled (roomId hotspotId : string) (g : GameStateT) : option bool :=
  match getRoomState roomId g with
  | Value roomState => Some (negb (includes (disabledHotspots roomState) hotspotId))
  | _ => None
  end.

(** The writes to the reputation field that the store offers. *)
Inductive ReputationWrite :=
| SetReputation (value : Number)
| AdjustReputation (amount : Number).

Definition applyReputationWrite (g : GameStateT) (op : ReputationWrite) : GameStateT :=
  match op with
  | SetReputation value => setReputation value g
  | AdjustReputation amount => adjustReputation amount g
  end.

(** The states passed through by a sequence of writes, the starting state first. *)
Fixpoint reputationHistory (g : GameStateT) (ops : list ReputationWrite)
  : list GameStateT :=
  match ops with
  | [] => [g]
  | op :: ops => g :: reputationHistory (applyReputationWrite g op) ops
  end.

(** *** Condition evaluation *)

(** [String.prototype.trim] on a string held as its UTF-8 bytes.  The
    characters removed are the WhiteSpace and LineTerminator code points:
    U+0009 to U+000D and U+0020 in one byte; U+00A0 in two bytes; U+1680,
    U+2000 to U+200A, U+2028, U+2029, U+202F, U+205F, U+3000 and U+FEFF in
    three bytes. *)
Definition isSpace1 (a : ascii) : bool :=
  let n := N_of_ascii a in
  ((9 <=? n) && (n <=? 13) || (n =? 32))%N.

Definition isSpace2 (a b : ascii) : bool :=
  ((N_of_ascii a =? 194) && (N_of_ascii b =? 160))%N.

Definition isSpace3 (a b c : ascii) : bool :=
  let x := N_of_ascii a in
  let y := N_of_ascii b in
  let z := N_of_ascii c in
  ((x =? 225) && (y =? 154) && (z =? 128)
   || (x =? 226) && (y =? 128)
      && ((128 <=? z) && (z <=? 138) || (z =? 168) || (z =? 169) || (z =? 175))
   || (x =? 226) && (y =? 129) && (z =? 159)
   || (x =? 227) && (y =? 128) && (z =? 128)
   || (x =? 239) && (y =? 187) && (z =? 191))%N.

(** The string without the white space it starts with, for given tests of
    the two-byte and three-byte characters. *)
Fixpoint dropSpaces (two : ascii → ascii → bool) (three : ascii → ascii → ascii → bool)
    (s : string) : string :=
  match s with
  | String a rest1 =>
      if isSpace1 a then dropSpaces two three rest1
      else
        match rest1 with
        | String b rest2 =>
            if two a b then dropSpaces two three rest2
            else
              match rest2 with
              | String c rest3 =>
                  if three a b c then dropSpaces two three rest3 else s
              | EmptyString => s
              end
        | EmptyString => s
        end
  | EmptyString => EmptyString
  end.

Definition trimStart (s : string) : string := dropSpaces isSpace2 isSpace3 s.

(** The white space at the end is the white space that the reversed string
    starts with, its bytes in reverse order. *)
Definition trimEnd (s : string) : string :=
  String.rev
    (dropSpaces (λ a b, isSpace2 b a) (λ a b c, isSpace3 c b a) (String.rev s)).

Definition trim (s : string) : string := trimEnd (trimStart s).

Section ConditionEvaluation.
Context `{!Host}.

(** The value returned and what was written to the console. *)
Definition evaluateCondition (condition : string) (g : GameStateT)
  : bool * list ConsoleEntry :=
  if bool_decide (condition = "") || bool_decide (trim condition = "") then (true, [])
  else
    match evalFunc condition g with
    | Some v => (v, [])
    | None => (false, [ConsoleError ("Failed to evaluate condition: " +:+ condition)])
    end.

End ConditionEvaluation.

(** *** Vocabulary of the properties *)

Definition reputationInRange (g : GameStateT) : Prop :=
  match reputation g with
  | Finite q => (-100 <= q)%Q ∧ (q <= 100)%Q
  | _ => False
  end.

(** The argument of the write is a number other than NaN. *)
Definition writesNumber (op : ReputationWrite) : Prop :=
  match op with
  | SetReputation value => value ≠ NaN
  | AdjustReputation amount => amount ≠ NaN
  end.

(** The strings that consist of white space only. *)
Inductive Blank : string → Prop :=
| Blank_empty : Blank EmptyString
| Blank_1 a s : isSpace1 a = true → Blank s → Blank (String a s)
| Blank_2 a b s : isSpace2 a b = true → Blank s → Blank (String a (String b s))
| Blank_3 a b c s :
    isSpace3 a b c = true → Blank s → Blank (String a (String b (String c s))).

End GameState.

(** ** src/engine/GameState.ts: the save / load system *)
Module Persistence.

(** The values [JSON.parse] produces. *)
Inductive JSON :=
| JNull
| JBool (b : bool)
| JNum (q : Q)
| JStr (s : string)
| JArr (items : list JSON)
| JObj (fields : list (string * JSON)).

(** A value read out of such a document; [None] is [undefined]. *)
Definition JSValue := option JSON.

(** [!!v] *)
Definition truthy (v : JSValue) : bool :=
  match v with
  | None | Some JNull => false
  | Some (JBool b) => b
  | Some (JNum q) => negb (Qeq_bool q 0)
  | Some (JStr s) => negb (bool_decide (s = ""))
  | Some (JArr _) | Some (JObj _) => true
  end.

Fixpoint lookupField (key : string) (fields : list (string * JSON)) : JSValue :=
  match fields with
  | [] => None
  | (k, v) :: rest => if bool_decide (k = key) then Some v else lookupField key rest
  end.

(** [obj[key] = v] on the own properties of an object: an existing property
    keeps its place, a new one is added. *)
Fixpoint setField (key : string) (v : JSON) (fields : list (string * JSON))
  : list (string * JSON) :=
  match fields with
  | [] => [(key, v)]
  | (k, x) :: rest =>
      if bool_decide (k = key) then (k, v) :: rest else (k, x) :: setField key v rest
  end.

Fixpoint deleteField (key : string) (fields : list (string * JSON))
  : list (string * JSON) :=
  match fields with
  | [] => []
  | (k, x) :: rest =>
      if bool_decide (k = key) then deleteField key rest else (k, x) :: deleteField key rest
  end.

(** [v.name] for a property name that is not an array index; [v] is not
    [null] or [undefined] at the call sites. *)
Definition getField (v : JSON) (name : string) : JSValue :=
  match v with
  | JObj fields => lookupField name fields
  | _ => None
  end.

(** [saves[slot]] for a number [slot]: the entry, [Some None] when the
    property is undefined, [None] when the access raises a TypeError. *)
Definition getSlot (saves : JSON) (slot : Z) : option JSValue :=
  match saves with
  | JNull => None
  | JObj fields => Some (lookupField (pretty slot) fields)
  | JArr items => Some (if (0 <=? slot)%Z then items !! Z.to_nat slot else None)
  | JStr s =>
      Some (if (0 <=? slot)%Z
            then (λ c, JStr (String c EmptyString)) <$> String.get (Z.to_nat slot) s
            else None)
  | JBool _ | JNum _ => Some None
  end.

(** [saves[slot] = saveData] as [JSON.stringify] then sees [saves]; [None]
    when the assignment raises a TypeError (the module is strict code, so
    assigning to a property of [null] or of a primitive raises).  An array
    grows with holes, which are written as [null]; a negative index becomes a
    property that [JSON.stringify] does not write. *)
Definition assignSlot (saves : JSON) (slot : Z) (saveData : JSON) : option JSON :=
  match saves with
  | JObj fields => Some (JObj (setField (pretty slot) saveData fields))
  | JArr items =>
      if (0 <=? slot)%Z then
        let i := Z.to_nat slot in
        if bool_decide (i < length items)%nat
        then Some (JArr (<[i := saveData]> items))
        else Some (JArr (items ++ replicate (i - length items) JNull ++ [saveData]))
      else Some (JArr items)
  | JNull | JBool _ | JNum _ | JStr _ => None
  end.

(** [delete saves[slot]] as [JSON.stringify] then sees [saves]; [None] when
    the deletion raises (on [null], and on a character of a string). *)
Definition deleteSlot (saves : JSON) (slot : Z) : option JSON :=
  match saves with
  | JObj fields => Some (JObj (deleteField (pretty slot) fields))
  | JArr items =>
      if (0 <=? slot)%Z && bool_decide (Z.to_nat slot < length items)%nat
      then Some (JArr (<[Z.to_nat slot := JNull]> items))
      else Some (JArr items)
  | JNull => None
  | JStr text =>
      if (0 <=? slot)%Z && bool_decide (Z.to_nat slot < String.length text)%nat
      then None else Some saves
  | JBool _ | JNum _ => Some saves
  end.

Fixpoint indexed (i : nat) (items : list JSON) : list (string * JSON) :=
  match items with
  | [] => []
  | x :: rest => (pretty i, x) :: indexed (S i) rest
  end.

Fixpoint chars (s : string) : list JSON :=
  match s with
  | EmptyString => []
  | String c rest => JStr (String c EmptyString) :: chars rest
  end.

(** [{ ...v }] *)
Definition spread (v : JSValue) : JSON :=
  match v with
  | Some (JObj fields) => JObj fields
  | Some (JArr items) => JObj (indexed 0 items)
  | Some (JStr s) => JObj (indexed 0 (chars s))
  | None | Some JNull | Some (JBool _) | Some (JNum _) => JObj []
  end.

(** What is kept under [STORAGE_KEY]: nothing (or the empty string, which
    [data ? ... : {}] treats alike), a text that [JSON.parse] rejects, or a
    text that parses to [v]; [JSON.stringify v] is of the last kind. *)
Inductive StorageItem :=
| ItemAbsent
| ItemGarbage
| ItemJSON (v : JSON).

Record Storage := mkStorage {
  item : StorageItem;
  getItemThrows : bool;
  setItemThrows : bool
}.

(** The module variable [gameState] is an untyped object at run time: it is
    whatever [loadGame] installed. *)
Record Store := mkStore {
  gameState : JSON;
  localStorage : Storage
}.

Definition SAVE_VERSION : string := "1.0.0".

Definition getSaveSlots (st : Store) : JSON :=
  if getItemThrows (localStorage st) then JObj []
  else
    match item (localStorage st) with
    | ItemAbsent => JObj []
    | ItemGarbage => JObj []
    | ItemJSON v => v
    end.

(** [slotName || `Save ${slot}`] *)
Definition slotLabel (slot : Z) (slotName : option string) : string :=
  match slotName with
  | Some name => if bool_decide (name = "") then "Save " +:+ pretty slot else name
  | None => "Save " +:+ pretty slot
  end.

(** [now] is the value of [Date.now()]. *)
Definition saveGame (now : Z) (slot : Z) (slotName : option string) (st : Store)
  : bool * Store * list ConsoleEntry :=
  let saves := getSaveSlots st in
  let saveData :=
    JObj [("version", JStr SAVE_VERSION);
          ("timestamp", JNum (inject_Z now));
          ("slotName", JStr (slotLabel slot slotName));
          ("gameState", spread (Some (gameState st)))] in
  match assignSlot saves slot saveData with
  | None => (false, st, [ConsoleError "Failed to save game:"])
  | Some saves' =>
      if setItemThrows (localStorage st)
      then (false, st, [ConsoleError "Failed to save game:"])
      else
        (true,
         mkStore (gameState st)
           (mkStorage (ItemJSON saves') (getItemThrows (localStorage st))
              (setItemThrows (localStorage st))),
         [])
  end.

Definition loadGame (slot : Z) (st : Store) : bool * Store * list ConsoleEntry :=
  let saves := getSaveSlots st in
  match getSlot saves slot with
  | None => (false, st, [ConsoleError "Failed to load game:"])
  | Some saveData =>
      if negb (truthy saveData)
      then (false, st, [ConsoleWarn ("No save found in slot " +:+ pretty slot)])
      else
        (true,
         mkStore (spread (from_option (λ d, getField d "gameState") None saveData))
           (localStorage st),
         [])
  end.

Definition deleteSave (slot : Z) (st : Store) : bool * Store :=
  let saves := getSaveSlots st in
  match deleteSlot saves slot with
  | None => (false, st)
  | Some saves' =>
      if setItemThrows (localStorage st) then (false, st)
      else
        (true,
         mkStore (gameState st)
           (mkStorage (ItemJSON saves') (getItemThrows (localStorage st))
              (setItemThrows (localStorage st))))
  end.

(** *** The shapes declared in src/types/game.ts

    [isSaveData v] holds when [v] has the structure of the [SaveData]
    interface, down to the [GameState] and [RoomState] interfaces. *)

Definition isJStr (v : JSON) : bool := match v with JStr _ => true | _ => false end.
Definition isJNum (v : JSON) : bool := match v with JNum _ => true | _ => false end.
Definition isJBool (v : JSON) : bool := match v with JBool _ => true | _ => false end.

Definition isStringArray (v : JSValue) : bool :=
  match v with Some (JArr items) => forallb isJStr items | _ => false end.

Definition isFlagValue (v : JSON) : bool := isJBool v || isJNum v || isJStr v.

Definition isFlagMap (v : JSValue) : bool :=
  match v with
  | Some (JObj fields) => forallb (λ kv, isFlagValue kv.2) fields
  | _ => false
  end.

Definition isPoint (v : JSValue) : bool :=
  match v with
  | Some (JObj fields) =>
      from_option isJNum false (lookupField "x" fields)
      && from_option isJNum false (lookupField "y" fields)
  | _ => false
  end.

Definition isFacing (v : JSValue) : bool :=
  match v with
  | Some (JStr s) => bool_decide (s = "left") || bool_decide (s = "right")
  | _ => false
  end.

Definition isRoomState (v : JSON) : bool :=
  isStringArray (getField v "disabledHotspots")
  && isStringArray (getField v "removedCharacters")
  && isFlagMap (getField v "customFlags").

Definition isRoomStateMap (v : JSValue) : bool :=
  match v with
  | Some (JObj fields) => forallb (λ kv, isRoomState kv.2) fields
  | _ => false
  end.

Definition isGameState (v : JSValue) : bool :=
  match v with
  | Some (JObj fields) =>
      from_option isJStr false (lookupField "currentRoom" fields)
      && isPoint (lookupField "playerPosition" fields)
      && isFacing (lookupField "playerFacing" fields)
      && isStringArray (lookupField "inventory" fields)
      && isFlagMap (lookupField "flags" fields)
      && isStringArray (lookupField "visitedRooms" fields)
      && isStringArray (lookupField "solvedPuzzles" fields)
      && from_option isJNum false (lookupField "reputation" fields)
      && isStringArray (lookupField "dialogueHistory" fields)
      && isStringArray (lookupField "selectedChoices" fields)
      && isRoomStateMap (lookupField "roomStates" fields)
  | _ => false
  end.

Definition isSaveData (v : JSON) : bool :=
  from_option isJStr false (getField v "version")
  && from_option isJNum false (getField v "timestamp")
  && from_option isJStr false (getField v "slotName")
  && isGameState (getField v "gameState").

(** *** The object that a typed state is at run time *)

Definition encodeStrings (l : list string) : JSON := JArr (JStr <$> l).

Definition encodeFlagValue (v : FlagValue) : JSON :=
  match v with
  | VBool b => JBool b
  | VNum n => JNum (inject_Z n)
  | VStr s => JStr s
  end.

Definition encodeFlags (m : gmap string FlagValue) : JSON :=
  JObj (prod_map id encodeFlagValue <$> map_to_list m).

(** A document holds neither NaN nor an infinity; [JSON.stringify] writes
    them as [null]. *)
Definition encodeNumber (n : Number) : JSON :=
  match n with
  | Finite q => JNum q
  | _ => JNull
  end.

Definition encodePoint (p : Point) : JSON :=
  JObj [("x", JNum (px p)); ("y", JNum (py p))].

Definition encodeFacing (f : Facing) : JSON :=
  match f with FacingLeft => JStr "left" | FacingRight => JStr "right" end.

Definition encodeRoomState (r : RoomState) : JSON :=
  JObj [("disabledHotspots", encodeStrings (disabledHotspots r));
        ("removedCharacters", encodeStrings (removedCharacters r));
        ("customFlags", encodeFlags (customFlags r))].

Definition encodeGameState (g : GameStateT) : JSON :=
  JObj [("currentRoom", JStr (currentRoom g));
        ("playerPosition", encodePoint (playerPosition g));
        ("playerFacing", encodeFacing (playerFacing g));
        ("inventory", encodeStrings (inventory g));
        ("flags", encodeFlags (flags g));
        ("visitedRooms", encodeStrings (visitedRooms g));
        ("solvedPuzzles", encodeStrings (solvedPuzzles g));
        ("reputation", encodeNumber (reputation g));
        ("dialogueHistory", encodeStrings (dialogueHistory g));
        ("selectedChoices", encodeStrings (selectedChoices g));
        ("roomStates", JObj (prod_map id encodeRoomState <$> map_to_list (roomStates g)))].

(** *** Vocabulary of the properties *)

(** What [getSaveSlots] shows in a slot. *)
Definition stored (st : Store) (slot : Z) : option JSValue :=
  getSlot (getSaveSlots st) slot.

(** The slot holds an entry that [loadGame] takes for a save. *)
Definition slotPresent (st : Store) (slot : Z) : bool :=
  match getSlot (getSaveSlots st) slot with
  | Some v => truthy v
  | None => false
  end.

(** The stored structure is corrupt: the blob is no JSON text, or the slot
    holds an entry that is not a [SaveData]. *)
Definition slotCorrupt (st : Store) (slot : Z) : bool :=
  match item (localStorage st) with
  | ItemGarbage => true
  | _ =>
      match getSlot (getSaveSlots st) slot with
      | Some (Some v) => negb (isSaveData v)
      | _ => false
      end
  end.

End Persistence.

(** ** src/engine/pathfinding.ts *)
Module Pathfinding.

(** How a call ends: with a value, with a TypeError, or by exceeding the
    iteration bound that stands for a [while] loop in the model. *)
Inductive Outcome (A : Type) :=
| Returns (a : A)
| Raises
| Diverges.
Arguments Returns {A} a.
Arguments Raises {A}.
Arguments Diverges {A}.

(** [a < b], [a > b] and [a === b] on numbers. *)
Definition ltb (a b : Q) : bool := negb (Qle_bool b a).
Definition gtb (a b : Q) : bool := ltb b a.
Definition eqb (a b : Q) : bool := Qeq_bool a b.

(** [dist < minDist] where [minDist] starts at [Infinity] ([None]). *)
Definition ltInfinity (a : Q) (b : option Q) : bool :=
  match b with
  | None => true
  | Some b => ltb a b
  end.

(** [points[j]] for the [j] that runs one step behind [i], starting at [n - 1]. *)
Definition previous (points : Polygon) : list Point :=
  match points with
  | [] => []
  | p0 :: _ => List.last points p0 :: removelast points
  end.

(** [points[(i + 1) % points.length]] *)
Definition following (points : Polygon) : list Point :=
  match points with
  | [] => []
  | p0 :: rest => rest ++ [p0]
  end.

(** The test of the ray-casting loop for the edge from [pj] to [pi]. *)
Definition crossing (point pi pj : Point) : bool :=
  let xi := px pi in
  let yi := py pi in
  let xj := px pj in
  let yj := py pj in
  xorb (gtb yi (py point)) (gtb yj (py point))
  && ltb (px point) (((xj - xi) * (py point - yi)) / (yj - yi) + xi)%Q.

Definition isPointInPolygon (point : Point) (polygon : Polygon) : bool :=
  fold_left (λ inside e, if crossing point e.1 e.2 then negb inside else inside)
    (zip polygon (previous polygon)) false.

Definition closestPointOnLineSegment (p a b : Point) : Point :=
  let dx := (px b - px a)%Q in
  let dy := (py b - py a)%Q in
  let lenSq := (dx * dx + dy * dy)%Q in
  if eqb lenSq 0 then a
  else
    let t := (((px p - px a) * dx + (py p - py a) * dy) / lenSq)%Q in
    let t := Qmax 0 (Qmin 1 t) in
    mkPoint (px a + t * dx)%Q (py a + t * dy)%Q.

Definition getPolygonCenter (polygon : Polygon) : Point :=
  let x := fold_left (λ x p, (x + px p)%Q) polygon (0 : Q) in
  let y := fold_left (λ y p, (y + py p)%Q) polygon (0 : Q) in
  let n := inject_Z (Z.of_nat (length polygon)) in
  mkPoint (x / n)%Q (y / n)%Q.

Section WithHost.
Context `{!Host}.

Definition distance (a b : Point) : Q :=
  let dx := (px b - px a)%Q in
  let dy := (py b - py a)%Q in
  Math_sqrt (dx * dx + dy * dy)%Q.

(** The edge loop of [getClosestPointInPolygon]: the closest point found
    and [minDist]. *)
Definition closestOnBoundary (point : Point) (polygon : Polygon) (p0 : Point)
  : Point * option Q :=
  fold_left
    (λ acc e,
       let closest := closestPointOnLineSegment point e.1 e.2 in
       let dist := distance point closest in
       if ltInfinity dist acc.2 then (closest, Some dist) else acc)
    (zip polygon (following polygon)) (p0, None).

(** For an empty polygon [points[0]] is [undefined] and reading its [x]
    raises. *)
Definition getClosestPointInPolygon (point : Point) (polygon : Polygon)
  : Outcome Point :=
  if isPointInPolygon point polygon then Returns point
  else
    match polygon with
    | [] => Raises
    | p0 :: _ =>
        let closestPoint := (closestOnBoundary point polygon p0).1 in
        let center := getPolygonCenter polygon in
        let dx := (px center - px closestPoint)%Q in
        let dy := (py center - py closestPoint)%Q in
        let len := Math_sqrt (dx * dx + dy * dy)%Q in
        if gtb len 0
        then Returns (mkPoint (px closestPoint + (dx / len) * 2)%Q
                              (py closestPoint + (dy / len) * 2)%Q)
        else Returns closestPoint
    end.

Definition canWalkDirectly (start end_ : Point) (polygon : Polygon) : bool :=
  if negb (isPointInPolygon start polygon) || negb (isPointInPolygon end_ polygon)
  then false
  else
    let mid := mkPoint ((px start + px end_) / 2)%Q ((py start + py end_) / 2)%Q in
    if negb (isPointInPolygon mid polygon) then false
    else
      forallb
        (λ i : Z,
           let t := (inject_Z i / 5)%Q in
           let sample := mkPoint (px start + (px end_ - px start) * t)%Q
                                 (py start + (py end_ - py start) * t)%Q in
           isPointInPolygon sample polygon)
        [1; 2; 3; 4].

(** The values taken by the counter of [for (v = lo; v <= hi; v += step)],
    for a positive [step]. *)
Definition gridSteps (lo hi step : Q) : list Q :=
  if Qle_bool lo hi
  then (λ k, (lo + inject_Z (Z.of_nat k) * step)%Q)
         <$> seq 0 (Z.to_nat (Qfloor ((hi - lo) / step)) + 1)
  else [].

Definition generateNavNodes (polygon : Polygon) (gridSize : Q) : list Point :=
  match polygon with
  | [] => []
  | p0 :: rest =>
      let minX := fold_left (λ m p, Qmin m (px p)) rest (px p0) in
      let minY := fold_left (λ m p, Qmin m (py p)) rest (py p0) in
      let maxX := fold_left (λ m p, Qmax m (px p)) rest (px p0) in
      let maxY := fold_left (λ m p, Qmax m (py p)) rest (py p0) in
      let grid :=
        x ← gridSteps minX maxX gridSize;
        y ← gridSteps minY maxY gridSize;
        (if isPointInPolygon (mkPoint x y) polygon then [mkPoint x y] else []) in
      let center := getPolygonCenter polygon in
      let insets :=
        p ← polygon;
        (let dx := (px center - px p)%Q in
         let dy := (py center - py p)%Q in
         let len := Math_sqrt (dx * dx + dy * dy)%Q in
         if gtb len 0 then
           let inset := mkPoint (px p + (dx / len) * 15)%Q (py p + (dy / len) * 15)%Q in
           if isPointInPolygon inset polygon then [inset] else []
         else []) in
      grid ++ insets
  end.

(** A node of the search.  A node is the [parent] of another only after it
    has left the open set, and it is not written to from then on. *)
Inductive PathNode :=
| mkPathNode (point : Point) (g h f : Q) (parent : option PathNode).

Definition point (n : PathNode) : Point := match n with mkPathNode p _ _ _ _ => p end.
Definition g (n : PathNode) : Q := match n with mkPathNode _ g _ _ _ => g end.
Definition h (n : PathNode) : Q := match n with mkPathNode _ _ h _ _ => h end.
Definition f (n : PathNode) : Q := match n with mkPathNode _ _ _ f _ => f end.
Definition parent (n : PathNode) : option PathNode :=
  match n with mkPathNode _ _ _ _ p => p end.

(** Two points with the same key [`${x},${y}`]; also the test of
    [openSet.find]. *)
Definition samePoint (a b : Point) : bool := eqb (px a) (px b) && eqb (py a) (py b).

(** [openSet.sort((a, b) => a.f - b.f)]; the sort is stable. *)
Fixpoint insertByF (n : PathNode) (l : list PathNode) : list PathNode :=
  match l with
  | [] => [n]
  | m :: rest => if Qle_bool (f n) (f m) then n :: l else m :: insertByF n rest
  end.

Definition sortByF (l : list PathNode) : list PathNode := foldr insertByF [] l.

(** The [while (node)] loop that rebuilds the path with [unshift]. *)
Fixpoint reconstruct (n : PathNode) : list Point :=
  match n with
  | mkPathNode p _ _ _ None => [p]
  | mkPathNode p _ _ _ (Some parent) => reconstruct parent ++ [p]
  end.

(** The write to [existing], the first node of the open set at that point. *)
Fixpoint improve (neighborPoint : Point) (g' f' : Q) (current : PathNode)
    (openSet : list PathNode) : list PathNode :=
  match openSet with
  | [] => []
  | n :: rest =>
      if samePoint (point n) neighborPoint
      then (if ltb g' (g n)
            then mkPathNode (point n) g' (h n) f' (Some current)
            else n) :: rest
      else n :: improve neighborPoint g' f' current rest
  end.

(** One turn of [for (const neighborPoint of nodes)]. *)
Definition visitNeighbor (polygon : Polygon) (actualEnd : Point) (closedSet : list Point)
    (current : PathNode) (openSet : list PathNode) (neighborPoint : Point)
  : list PathNode :=
  if existsb (samePoint neighborPoint) closedSet then openSet
  else if negb (canWalkDirectly (point current) neighborPoint polygon) then openSet
  else
    let g' := (g current + distance (point current) neighborPoint)%Q in
    let h' := distance neighborPoint actualEnd in
    let f' := (g' + h')%Q in
    if existsb (λ n, samePoint (point n) neighborPoint) openSet
    then improve neighborPoint g' f' current openSet
    else openSet ++ [mkPathNode neighborPoint g' h' f' (Some current)].

(** The furthest later waypoint visible from [path[current]]: the inner [for]
    of [smoothPath] tries the indices [from], [from - 1], ... down to
    [current + 2]. *)
Fixpoint furthestVisible (polygon : Polygon) (path : list Point) (origin : Point)
    (current : nat) (from : nat) : nat :=
  match from with
  | O => S current
  | S from' =>
      if bool_decide (S current < from)%nat then
        if canWalkDirectly origin (default origin (path !! from)) polygon
        then from
        else furthestVisible polygon path origin current from'
      else S current
  end.

Fixpoint smoothLoop (fuel : nat) (polygon : Polygon) (path : list Point)
    (current : nat) (smoothed : list Point) : Outcome (list Point) :=
  if bool_decide (current < length path - 1)%nat then
    match fuel with
    | O => Diverges
    | S fuel =>
        match path !! current with
        | None => Raises
        | Some origin =>
            let furthest :=
              furthestVisible polygon path origin current (length path - 1) in
            match path !! furthest with
            | None => Raises
            | Some next => smoothLoop fuel polygon path furthest (smoothed ++ [next])
            end
        end
    end
  else Returns smoothed.

Definition smoothPath (path : list Point) (polygon : Polygon) : Outcome (list Point) :=
  if bool_decide (length path ≤ 2)%nat then Returns path
  else
    match path with
    | [] => Raises
    | p0 :: _ => smoothLoop (length path) polygon path 0 [p0]
    end.

(** The [while (openSet.length > 0)] loop; [None] when the frontier is
    exhausted. *)
Fixpoint search (fuel : nat) (polygon : Polygon) (nodes : list Point) (actualEnd : Point)
    (openSet : list PathNode) (closedSet : list Point) : Outcome (option (list Point)) :=
  match sortByF openSet with
  | [] => Returns None
  | current :: openSet =>
      match fuel with
      | O => Diverges
      | S fuel =>
          if ltb (distance (point current) actualEnd) 5 then
            match smoothPath (reconstruct current) polygon with
            | Returns path => Returns (Some path)
            | Raises => Raises
            | Diverges => Diverges
            end
          else
            let closedSet := point current :: closedSet in
            let openSet :=
              fold_left (visitNeighbor polygon actualEnd closedSet current) nodes openSet in
            search fuel polygon nodes actualEnd openSet closedSet
      end
  end.

Definition findPath (start end_ : Point) (polygon : Polygon) : Outcome (list Point) :=
  match getClosestPointInPolygon start polygon with
  | Returns actualStart =>
      match getClosestPointInPolygon end_ polygon with
      | Returns actualEnd =>
          if canWalkDirectly actualStart actualEnd polygon
          then Returns [actualStart; actualEnd]
          else
            let nodes := generateNavNodes polygon 30 ++ [actualStart; actualEnd] in
            let startNode :=
              mkPathNode actualStart 0 (distance actualStart actualEnd)
                (distance actualStart actualEnd) None in
            match search (S (length nodes)) polygon nodes actualEnd [startNode] [] with
            | Returns (Some path) => Returns path
            | Returns None => Returns [actualStart; actualEnd]
            | Raises => Raises
            | Diverges => Diverges
            end
      | Raises => Raises
      | Diverges => Diverges
      end
  | Raises => Raises
  | Diverges => Diverges
  end.

Definition getDirection (from to : Point) : Facing :=
  if ltb (px to) (px from) then FacingLeft else FacingRight.

(** What [interpolatePath] returns.  [position] is [None] when the division
    by a segment length of zero makes the coordinates NaN or infinite. *)
Record Interpolation := mkInterpolation {
  position : option Point;
  segmentIndex : nat;
  finished : bool
}.

(** The [for] loop of [interpolatePath] from segment [i] on, [segments]
    being the pairs [(path[i], path[i + 1])] that are left. *)
Fixpoint interpolateSegments (path : list Point) (i : nat)
    (segments : list (Point * Point)) (remaining : Q) : Interpolation :=
  match segments with
  | [] => mkInterpolation (last path) (length path - 2) true
  | (a, b) :: rest =>
      let segmentLength := distance a b in
      if Qle_bool remaining segmentLength then
        let t := (remaining / segmentLength)%Q in
        mkInterpolation
          (if eqb segmentLength 0 then None
           else Some (mkPoint (px a + (px b - px a) * t)%Q
                              (py a + (py b - py a) * t)%Q))
          i false
      else interpolateSegments path (S i) rest (remaining - segmentLength)%Q
  end.

Definition interpolatePath (path : list Point) (distanceTraveled : Q) : Interpolation :=
  if bool_decide (length path < 2)%nat
  then mkInterpolation (Some (default (mkPoint 0 0) (head path))) 0 true
  else interpolateSegments path 0 (zip path (tail path)) distanceTraveled.

(** The [for] loop of [getPathLength] over the pairs [(path[i], path[i + 1])]. *)
Definition sumLengths (segments : list (Point * Point)) : Q :=
  fold_left (λ length e, (length + distance e.1 e.2)%Q) segments (0 : Q).

Definition getPathLength (path : list Point) : Q :=
  sumLengths (zip path (tail path)).

End WithHost.

(** *** Vocabulary of the properties *)

(** The first ancestor of a node. *)
Fixpoint root (n : PathNode) : Point :=
  match n with
  | mkPathNode p _ _ _ None => p
  | mkPathNode _ _ _ _ (Some parent) => root parent
  end.

Definition notClosed (closedSet : list Point) (p : Point) : Prop :=
  existsb (samePoint p) closedSet = false.

#[export] Instance notClosed_dec closedSet p : Decision (notClosed closedSet p) :=
  decide (existsb (samePoint p) closedSet = false).

(** No two points of the list have the same key. *)
Definition uniquePoints (points : list Point) : Prop :=
  ∀ p, (length (filter (λ q, samePoint q p = true) points) ≤ 1)%nat.

(** What the search loop keeps true of its open set: its nodes are mesh
    nodes that are not closed, reached from the start, with distinct keys. *)
Definition frontier (nodes closedSet : list Point) (start : Point)
    (openSet : list PathNode) : Prop :=
  Forall (λ n, point n ∈ nodes ∧ notClosed closedSet (point n) ∧ root n = start) openSet
  ∧ uniquePoints (point <$> openSet).

(** The mesh nodes that can still enter the open set. *)
Definition unvisited (nodes closedSet : list Point) : nat :=
  length (filter (notClosed closedSet) nodes).

(** Two points with equal coordinates. *)
Definition pointEq (a b : Point) : Prop := (px a == px b)%Q ∧ (py a == py b)%Q.

(** Every leg of the path passes [canWalkDirectly]. *)
Fixpoint legsWalkable (polygon : Polygon) (path : list Point) : bool :=
  match path with
  | a :: (b :: _) as rest => canWalkDirectly a b polygon && legsWalkable polygon rest
  | _ => true
  end.

(** The leg from each ancestor of the node to its child passes
    [canWalkDirectly]. *)
Fixpoint walkableChain (polygon : Polygon) (n : PathNode) : Prop :=
  match n with
  | mkPathNode _ _ _ _ None => True
  | mkPathNode p _ _ _ (Some parent) =>
      canWalkDirectly (point parent) p polygon = true ∧ walkableChain polygon parent
  end.

(** The point of the segment from [a] to [b] at parameter [s]. *)
Definition along (a b : Point) (s : Q) : Point :=
  mkPoint (px a + s * (px b - px a))%Q (py a + s * (py b - py a))%Q.

(** The square of the distance between two points. *)
Definition distanceSq (a b : Point) : Q :=
  ((px b - px a) * (px b - px a) + (py b - py a) * (py b - py a))%Q.

End Pathfinding.

(** ** Script commands and dialogue trees (src/types/game.ts) *)

(** The tagged union [ScriptCommand]; [UnknownCommand] stands for an object
    whose [type] is none of the known tags.  A [reputation] command whose
    [amount] is missing adds [undefined] to the reputation and compares it
    with 0, as one with the amount NaN does. *)
Inductive ScriptCommand :=
| Say (character text : string) (voiceLine : option string)
| Narrate (text : string)
| Thought (text : string)
| SetFlag (flag : string) (value : FlagValue)
| IncFlag (flag : string) (amount : Z)
| GiveItem (itemId : string)
| TakeItem (itemId : string)
| EnableHotspot (hotspotId : string) (enabled : bool)
| Teleport (characterId : string) (position : Point)
| GoToRoom (roomId : string) (position : option Point)
| PlaySound (sound : string)
| PlayMusic (music : string) (fade : option Q)
| StopMusic (fade : option Q)
| WaitSeconds (seconds : Q)
| Animate (characterId animation : string)
| Walk (characterId : string) (position : Point)
| Face (characterId : string) (direction : Facing)
| StartDialogue (characterId : string) (nodeId : option string)
| If (condition : string) (then_ : list ScriptCommand) (else_ : option (list ScriptCommand))
| FadeOut (duration : option Q)
| FadeIn (duration : option Q)
| Cutscene (id : string)
| Reputation (amount : Number)
| PuzzleSolved (puzzleId : string)
| UnknownCommand (type : string).

Record DialogueChoice := mkDialogueChoice {
  choiceId : string;
  choiceText : string;
  targetNode : string;
  choiceCondition : option string;
  onSelect : option (list ScriptCommand);
  once : option bool
}.

Record DialogueNode := mkDialogueNode {
  nodeId : string;
  speaker : option string;
  nodeText : string;
  voiceLine : option string;
  portrait : option string;
  choices : option (list DialogueChoice);
  next : option string;
  onEnter : option (list ScriptCommand);
  onExit : option (list ScriptCommand);
  endConversation : option bool
}.

(** [nodes] is an object keyed by node id; its entries are kept in
    enumeration order. *)
Record DialogueTree := mkDialogueTree {
  treeId : string;
  treeCharacterId : string;
  startNode : string;
  nodes : list (string * DialogueNode)
}.

(** What [tree.nodes[id]] is when it is truthy: a node of the tree or, for an
    id that is no key of [nodes], the member of [Object.prototype] of that
    name.  The variable [currentNode] and the events hold either. *)
Inductive NodeObject :=
| NodeOf (node : DialogueNode)
| MemberOf (name : string).

(** [node.f] for an optional field [f] of a node; a member of
    [Object.prototype] has no property of the name of a field of a node. *)
Definition nodeField {A : Type} (f : DialogueNode → option A) (node : NodeObject)
  : option A :=
  match node with
  | NodeOf n => f n
  | MemberOf _ => None
  end.

(** The payloads of the events of src/engine/DialogueManager.ts. *)
Inductive DialogueEvent :=
| NodeEnter (node : NodeObject) (tree : option DialogueTree)
| NodeExit (node : option NodeObject)
| ChoicesReady (choices : list DialogueChoice) (node : NodeObject)
| DialogueEnd (tree : option DialogueTree).

(** The own property [key] of an object held as its list of entries, and
    [Map.prototype.get]. *)
Fixpoint entry {A : Type} (key : string) (entries : list (string * A)) : option A :=
  match entries with
  | [] => None
  | (k, v) :: rest => if bool_decide (k = key) then Some v else entry key rest
  end.

(** [Map.prototype.set]: a key that is present keeps its position. *)
Fixpoint mapSet {A : Type} (key : string) (v : A) (entries : list (string * A))
  : list (string * A) :=
  match entries with
  | [] => [(key, v)]
  | (k, x) :: rest =>
      if bool_decide (k = key) then (k, v) :: rest else (k, x) :: mapSet key v rest
  end.

Fixpoint mapDelete {A : Type} (key : string) (entries : list (string * A))
  : list (string * A) :=
  match entries with
  | [] => []
  | (k, x) :: rest =>
      if bool_decide (k = key) then rest else (k, x) :: mapDelete key rest
  end.

(** [!!s] for a string that may be missing. *)
Definition nonEmpty (s : option string) : option string :=
  match s with
  | Some s => if bool_decide (s = "") then None else Some s
  | None => None
  end.

(** ** The asynchronous run time

    All module-level variables of ScriptRunner.ts and DialogueManager.ts, with
    the game state, the console and the events handed to listeners so far. *)
Module Runtime.

Record World := mkWorld {
  game : GameStateT;
  console : list ConsoleEntry;
  (* ScriptRunner.ts *)
  isRunningScript : bool;
  scriptEvents : list ScriptEvent;
  (* DialogueManager.ts *)
  dialogueTrees : list (string * DialogueTree);
  currentTree : option DialogueTree;
  currentNode : option NodeObject;
  isDialogueActive : bool;
  dialogueEvents : list DialogueEvent
}.

Definition initialWorld : World :=
  mkWorld GameState.createInitialState [] false [] [] None None false [].

Definition with_game (v : GameStateT) (w : World) : World :=
  mkWorld v (console w) (isRunningScript w) (scriptEvents w) (dialogueTrees w)
    (currentTree w) (currentNode w) (isDialogueActive w) (dialogueEvents w).
Definition with_console (v : list ConsoleEntry) (w : World) : World :=
  mkWorld (game w) v (isRunningScript w) (scriptEvents w) (dialogueTrees w)
    (currentTree w) (currentNode w) (isDialogueActive w) (dialogueEvents w).
Definition with_isRunningScript (v : bool) (w : World) : World :=
  mkWorld (game w) (console w) v (scriptEvents w) (dialogueTrees w)
    (currentTree w) (currentNode w) (isDialogueActive w) (dialogueEvents w).
Definition with_scriptEvents (v : list ScriptEvent) (w : World) : World :=
  mkWorld (game w) (console w) (isRunningScript w) v (dialogueTrees w)
    (currentTree w) (currentNode w) (isDialogueActive w) (dialogueEvents w).
Definition with_dialogueTrees (v : list (string * DialogueTree)) (w : World) : World :=
  mkWorld (game w) (console w) (isRunningScript w) (scriptEvents w) v
    (currentTree w) (currentNode w) (isDialogueActive w) (dialogueEvents w).
Definition with_currentTree (v : option DialogueTree) (w : World) : World :=
  mkWorld (game w) (console w) (isRunningScript w) (scriptEvents w) (dialogueTrees w)
    v (currentNode w) (isDialogueActive w) (dialogueEvents w).
Definition with_currentNode (v : option NodeObject) (w : World) : World :=
  mkWorld (game w) (console w) (isRunningScript w) (scriptEvents w) (dialogueTrees w)
    (currentTree w) v (isDialogueActive w) (dialogueEvents w).
Definition with_isDialogueActive (v : bool) (w : World) : World :=
  mkWorld (game w) (console w) (isRunningScript w) (scriptEvents w) (dialogueTrees w)
    (currentTree w) (currentNode w) v (dialogueEvents w).
Definition with_dialogueEvents (v : list DialogueEvent) (w : World) : World :=
  mkWorld (game w) (console w) (isRunningScript w) (scriptEvents w) (dialogueTrees w)
    (currentTree w) (currentNode w) (isDialogueActive w) v.

(** What an [await] of the interpreter waits for. *)
Inductive Wait :=
| WaitDialogueDismiss
| WaitDialogueComplete
| WaitWalkComplete (characterId : string)
| WaitSleep (ms : Q).

(** The progress of a call of an [async] function from a given world: it has
    returned, it has raised, it is suspended on an [await] with the rest of
    the call as a function of the world found on resumption, or it exceeded
    the bound that stands for unbounded recursion in the model. *)
Inductive Res (A : Type) :=
| Ret (a : A) (w : World)
| Throw (e : string) (w : World)
| Susp (on : Wait) (w : World) (k : World → Res A)
| Diverge (w : World).
Arguments Ret {A} a w.
Arguments Throw {A} e w.
Arguments Susp {A} on w k.
Arguments Diverge {A} w.

Definition M (A : Type) : Type := World → Res A.

Definition ret {A} (a : A) : M A := λ w, Ret a w.

Fixpoint bindRes {A B} (r : Res A) (f : A → M B) : Res B :=
  match r with
  | Ret a w => f a w
  | Throw e w => Throw e w
  | Susp on w k => Susp on w (λ w', bindRes (k w') f)
  | Diverge w => Diverge w
  end.

Definition bind {A B} (m : M A) (f : A → M B) : M B := λ w, bindRes (m w) f.

(** [try { ... } finally { h }] for a handler that only writes variables. *)
Fixpoint finallyRes {A} (r : Res A) (h : World → World) : Res A :=
  match r with
  | Ret a w => Ret a (h w)
  | Throw e w => Throw e (h w)
  | Susp on w k => Susp on w (λ w', finallyRes (k w') h)
  | Diverge w => Diverge w
  end.

Definition throw {A} (e : string) : M A := λ w, Throw e w.
Definition modify (f : World → World) : M unit := λ w, Ret tt (f w).
Definition gets {A} (f : World → A) : M A := λ w, Ret (f w) w.
Definition await (on : Wait) : M unit := λ w, Susp on w (λ w', Ret tt w').
Definition log (e : ConsoleEntry) : M unit :=
  modify (λ w, with_console (console w ++ [e]) w).
Definition updateGame (f : GameStateT → GameStateT) : M unit :=
  modify (λ w, with_game (f (game w)) w).

(** A call that runs to its end when every [await] is answered at once and
    [env] is what the rest of the program does to the world while the call is
    suspended.  [inl a] is a normal return, [inr (Some e)] an exception,
    [inr None] an exceeded bound. *)
Fixpoint complete {A} (env : Wait → World → World) (r : Res A)
  : (A + option string) * World :=
  match r with
  | Ret a w => (inl a, w)
  | Throw e w => (inr (Some e), w)
  | Susp on w k => complete env (k (env on w))
  | Diverge w => (inr None, w)
  end.

(** The waits met by such a run, in order. *)
Fixpoint waits {A} (env : Wait → World → World) (r : Res A) : list Wait :=
  match r with
  | Susp on w k => on :: waits env (k (env on w))
  | _ => []
  end.

(** *** Vocabulary of the properties *)

(** [P] holds of the world at each suspension of such a run and [Q] of the
    world in which it returns or raises. *)
Fixpoint throughout {A} (P Q : World → Prop) (env : Wait → World → World) (r : Res A)
  : Prop :=
  match r with
  | Ret _ w | Throw _ w => Q w
  | Susp on w k => P w ∧ throughout P Q env (k (env on w))
  | Diverge _ => True
  end.



End Runtime.

Declare Scope script_scope.
Delimit Scope script_scope with script.
Notation "'let*' x := m 'in' k" := (Runtime.bind m (λ x, k))
  (at level 10, x name, m at level 100, k at level 200) : script_scope.
Notation "m >>> k" := (Runtime.bind m (λ _, k))
  (at level 90, right associativity) : script_scope.

(** ** src/engine/ScriptRunner.ts *)
Module ScriptRunner.
Import Runtime.
Local Open Scope script_scope.

Section WithHost.
Context `{!Host}.

(** Every listener is handed the event; the call raises when one of them does. *)
Definition emit (e : ScriptEvent) : M unit := λ w,
  let w := with_scriptEvents (scriptEvents w ++ [e]) w in
  if listenerFails e then Throw "listener" w else Ret tt w.

Definition sleep (ms : Q) : M unit := await (WaitSleep ms).
Definition waitForDialogueDismiss : M unit := await WaitDialogueDismiss.
Definition waitForDialogueComplete : M unit := await WaitDialogueComplete.
Definition waitForWalkComplete (characterId : string) : M unit :=
  await (WaitWalkComplete characterId).

Definition evaluateCondition (condition : string) : M bool := λ w,
  let r := GameState.evaluateCondition condition (game w) in
  Ret r.1 (with_console (console w ++ r.2) w).

(** [command.duration || 500] *)
Definition durationOr500 (duration : option Q) : Q :=
  match duration with
  | Some d => if Qeq_bool d 0 then 500 else d
  | None => 500
  end.

Fixpoint executeCommand (command : ScriptCommand) : M unit :=
  match command with
  | Say character text voiceLine =>
      emit (EvSay character text voiceLine) >>> waitForDialogueDismiss
  | Narrate text => emit (EvNarrate text) >>> waitForDialogueDismiss
  | Thought text => emit (EvThought text) >>> waitForDialogueDismiss
  | SetFlag flag value => updateGame (GameState.setFlag flag value)
  | IncFlag flag amount => updateGame (GameState.incrementFlag flag amount)
  | GiveItem itemId =>
      updateGame (GameState.addItem itemId) >>> emit (EvItemAdded itemId) >>> sleep 500
  | TakeItem itemId =>
      updateGame (GameState.removeItem itemId) >>> emit (EvItemRemoved itemId)
  | EnableHotspot hotspotId enabled =>
      let* state := gets game in
      match GameState.setHotspotEnabled (currentRoom state) hotspotId enabled state with
      | Some state' => updateGame (λ _, state')
      | None => throw "TypeError"
      end
  | Teleport characterId position => emit (EvWalk characterId position true)
  | GoToRoom roomId position =>
      emit (EvFadeOut 500) >>> sleep 500 >>>
      updateGame (GameState.setCurrentRoom roomId) >>>
      emit (EvRoomChange roomId position) >>>
      emit (EvFadeIn 500) >>> sleep 500
  | PlaySound sound => emit (EvSound sound)
  | PlayMusic music fade => emit (EvMusic (Some music) fade true)
  | StopMusic fade => emit (EvMusic None fade false)
  | WaitSeconds seconds => sleep (seconds * 1000)%Q
  | Animate characterId animation =>
      emit (EvAnimate characterId (Some animation) None)
  | Walk characterId position =>
      emit (EvWalk characterId position false) >>> waitForWalkComplete characterId
  | Face characterId direction =>
      emit (EvAnimate characterId None (Some direction))
  | StartDialogue characterId nodeId =>
      emit (EvDialogue characterId nodeId) >>> waitForDialogueComplete
  | If condition then_ else_ =>
      let runScript :=
        fix runScript (commands : list ScriptCommand) : M unit :=
          match commands with
          | [] => ret tt
          | command :: rest => executeCommand command >>> runScript rest
          end in
      let* holds := evaluateCondition condition in
      if holds then runScript then_
      else match else_ with
           | Some commands => runScript commands
           | None => ret tt
           end
  | FadeOut duration =>
      emit (EvFadeOut (durationOr500 duration)) >>> sleep (durationOr500 duration)
  | FadeIn duration =>
      emit (EvFadeIn (durationOr500 duration)) >>> sleep (durationOr500 duration)
  | Cutscene id => emit (EvNarrate ("[Cutscene: " +:+ id +:+ "]"))
  | Reputation amount =>
      updateGame (GameState.adjustReputation amount) >>>
      (if lessThan (Finite 0) amount then emit (EvSound "sfx_reputation_up")
       else if lessThan amount (Finite 0) then emit (EvSound "sfx_reputation_down")
       else ret tt)
  | PuzzleSolved puzzleId =>
      updateGame (GameState.markPuzzleSolved puzzleId) >>>
      emit (EvPuzzleSolved puzzleId) >>>
      emit (EvSound "sting_puzzle_solved") >>> sleep 1000
  | UnknownCommand type => log (ConsoleWarn ("Unknown script command: " +:+ type))
  end.

Fixpoint runScript (commands : list ScriptCommand) : M unit :=
  match commands with
  | [] => ret tt
  | command :: rest => executeCommand command >>> runScript rest
  end.

Definition getIsRunningScript (w : World) : bool := isRunningScript w.

Definition runScriptWithContext (commands : list ScriptCommand) : M unit := λ w,
  finallyRes (runScript commands (with_isRunningScript true w))
    (with_isRunningScript false).

End WithHost.

(** *** The promises that are pending

    A suspended call waits in the variable that holds its resolver.  A signal
    hands the current world to the call it resumes; the model runs the
    resumed call at once, up to its next [await]. *)

Definition Resolver : Type := World → Res unit.

Record Machine := mkMachine {
  world : World;
  dialogueDismissResolve : option Resolver;
  dialogueCompleteResolve : option Resolver;
  walkCompleteResolvers : list (string * Resolver);
  timers : list (Q * Resolver);
  unhandledRejections : list string;
  hung : bool
}.

Definition boot (w : World) : Machine := mkMachine w None None [] [] [] false.

(** What becomes of a call that was started or resumed. *)
Definition settle (r : Res unit) (m : Machine) : Machine :=
  match r with
  | Ret _ w =>
      mkMachine w (dialogueDismissResolve m) (dialogueCompleteResolve m)
        (walkCompleteResolvers m) (timers m) (unhandledRejections m) (hung m)
  | Throw e w =>
      mkMachine w (dialogueDismissResolve m) (dialogueCompleteResolve m)
        (walkCompleteResolvers m) (timers m) (unhandledRejections m ++ [e]) (hung m)
  | Diverge w =>
      mkMachine w (dialogueDismissResolve m) (dialogueCompleteResolve m)
        (walkCompleteResolvers m) (timers m) (unhandledRejections m) true
  | Susp WaitDialogueDismiss w k =>
      mkMachine w (Some k) (dialogueCompleteResolve m)
        (walkCompleteResolvers m) (timers m) (unhandledRejections m) (hung m)
  | Susp WaitDialogueComplete w k =>
      mkMachine w (dialogueDismissResolve m) (Some k)
        (walkCompleteResolvers m) (timers m) (unhandledRejections m) (hung m)
  | Susp (WaitWalkComplete characterId) w k =>
      mkMachine w (dialogueDismissResolve m) (dialogueCompleteResolve m)
        (mapSet characterId k (walkCompleteResolvers m)) (timers m)
        (unhandledRejections m) (hung m)
  | Susp (WaitSleep ms) w k =>
      mkMachine w (dialogueDismissResolve m) (dialogueCompleteResolve m)
        (walkCompleteResolvers m) (timers m ++ [(ms, k)])
        (unhandledRejections m) (hung m)
  end.

(** A call of an [async] function whose promise nobody awaits. *)
Definition spawn (task : M unit) (m : Machine) : Machine := settle (task (world m)) m.

Definition signalDialogueDismissed (m : Machine) : Machine :=
  match dialogueDismissResolve m with
  | Some resolve =>
      settle (resolve (world m))
        (mkMachine (world m) None (dialogueCompleteResolve m)
           (walkCompleteResolvers m) (timers m) (unhandledRejections m) (hung m))
  | None => m
  end.

Definition signalDialogueComplete (m : Machine) : Machine :=
  match dialogueCompleteResolve m with
  | Some resolve =>
      settle (resolve (world m))
        (mkMachine (world m) (dialogueDismissResolve m) None
           (walkCompleteResolvers m) (timers m) (unhandledRejections m) (hung m))
  | None => m
  end.

Definition signalWalkComplete (characterId : string) (m : Machine) : Machine :=
  match entry characterId (walkCompleteResolvers m) with
  | Some resolve =>
      settle (resolve (world m))
        (mkMachine (world m) (dialogueDismissResolve m) (dialogueCompleteResolve m)
           (mapDelete characterId (walkCompleteResolvers m)) (timers m)
           (unhandledRejections m) (hung m))
  | None => m
  end.

(** The [i]-th pending [setTimeout] callback runs. *)
Definition timerFires (i : nat) (m : Machine) : Machine :=
  match timers m !! i with
  | Some (_, resolve) =>
      settle (resolve (world m))
        (mkMachine (world m) (dialogueDismissResolve m) (dialogueCompleteResolve m)
           (walkCompleteResolvers m) (delete i (timers m))
           (unhandledRejections m) (hung m))
  | None => m
  end.

(** Some call is suspended. *)
Definition pending (m : Machine) : bool :=
  bool_decide (is_Some (dialogueDismissResolve m))
  || bool_decide (is_Some (dialogueCompleteResolve m))
  || negb (bool_decide (length (walkCompleteResolvers m) = 0%nat))
  || negb (bool_decide (length (timers m) = 0%nat)).

(** *** Vocabulary of the properties *)


(** The writes to the store that the commands make, the adjustment of the
    reputation apart: the state before and the state after. *)
Inductive scriptWrite (state : GameStateT) : GameStateT → Prop :=
| write_setFlag flag value : scriptWrite state (GameState.setFlag flag value state)
| write_incrementFlag flag amount :
    scriptWrite state (GameState.incrementFlag flag amount state)
| write_addItem itemId : scriptWrite state (GameState.addItem itemId state)
| write_removeItem itemId : scriptWrite state (GameState.removeItem itemId state)
| write_setHotspotEnabled hotspotId enabled state' :
    GameState.setHotspotEnabled (currentRoom state) hotspotId enabled state = Some state' →
    scriptWrite state state'
| write_setCurrentRoom roomId : scriptWrite state (GameState.setCurrentRoom roomId state)
| write_markPuzzleSolved puzzleId :
    scriptWrite state (GameState.markPuzzleSolved puzzleId state).

(** The amounts of the [reputation] commands of a command, those in the
    branches of a conditional included. *)
Fixpoint adjustments (command : ScriptCommand) : list Number :=
  match command with
  | Reputation amount => [amount]
  | If _ then_ else_ =>
      flat_map adjustments then_
      ++ match else_ with
         | Some commands => flat_map adjustments commands
         | None => []
         end
  | _ => []
  end.

(** What reaches the interpreter from the presentation layer, the scene and
    the timers. *)
Inductive Signal :=
| DialogueDismissed
| DialogueComplete
| WalkComplete (characterId : string)
| TimerFires (i : nat).

Definition deliver (m : Machine) (s : Signal) : Machine :=
  match s with
  | DialogueDismissed => signalDialogueDismissed m
  | DialogueComplete => signalDialogueComplete m
  | WalkComplete characterId => signalWalkComplete characterId m
  | TimerFires i => timerFires i m
  end.

(** The machine with another call, or none, waiting for the dismissal of
    the dialogue box, and for the end of the dialogue. *)
Definition with_dialogueDismissResolve (resolve : option Resolver) (m : Machine)
  : Machine :=
  mkMachine (world m) resolve (dialogueCompleteResolve m) (walkCompleteResolvers m)
    (timers m) (unhandledRejections m) (hung m).

Definition with_dialogueCompleteResolve (resolve : option Resolver) (m : Machine)
  : Machine :=
  mkMachine (world m) (dialogueDismissResolve m) resolve (walkCompleteResolvers m)
    (timers m) (unhandledRejections m) (hung m).

(** The commands that wait for the dismissal of the dialogue box. *)
Definition awaitsDismissal (command : ScriptCommand) : bool :=
  match command with
  | Say _ _ _ | Narrate _ | Thought _ => true
  | _ => false
  end.

End ScriptRunner.

(** ** src/engine/DialogueManager.ts *)
Module DialogueManager.
Import Runtime.
Local Open Scope script_scope.

(** The listeners of dialogue events are taken not to raise. *)
Definition emit (e : DialogueEvent) : M unit :=
  modify (λ w, with_dialogueEvents (dialogueEvents w ++ [e]) w).

Definition registerDialogueTree (tree : DialogueTree) (w : World) : World :=
  with_dialogueTrees (mapSet (treeId tree) tree (dialogueTrees w)) w.

Definition getDialogueTree (id : string) (w : World) : option DialogueTree :=
  entry id (dialogueTrees w).

(** [Array.from(dialogueTrees.values()).find((t) => t.characterId === characterId)] *)
Definition findTree (characterId : string) (w : World) : option DialogueTree :=
  List.find (λ t, bool_decide (treeCharacterId t = characterId))
    ((dialogueTrees w).*2).

(** [tree.nodes[nodeId]]; [None] is [undefined]. *)
Definition nodeAt (tree : DialogueTree) (nodeId : string) : option NodeObject :=
  match property (entry nodeId (nodes tree)) nodeId with
  | Value node => Some (NodeOf node)
  | Inherited name => Some (MemberOf name)
  | Undefined => None
  end.

Definition endDialogue : M unit := λ w,
  let tree := currentTree w in
  let w := with_currentTree None w in
  let w := with_currentNode None w in
  let w := with_isDialogueActive false w in
  emit (DialogueEnd tree) w.

(** [`${currentTree?.id}:${id}`] *)
Definition scopedId (w : World) (id : string) : string :=
  match currentTree w with
  | Some tree => treeId tree +:+ ":" +:+ id
  | None => "undefined:" +:+ id
  end.

Section WithHost.
Context `{!Host}.

Fixpoint filterChoices (choices : list DialogueChoice) : M (list DialogueChoice) :=
  match choices with
  | [] => ret []
  | choice :: rest =>
      let* keep :=
        (let* passes :=
           match nonEmpty (choiceCondition choice) with
           | Some condition => ScriptRunner.evaluateCondition condition
           | None => ret true
           end in
         if negb passes then ret false
         else
           let* selected :=
             gets (λ w, GameState.hasSelectedChoice (scopedId w (choiceId choice)) (game w)) in
           ret (negb (default false (once choice) && selected))) in
      let* kept := filterChoices rest in
      ret (if keep then choice :: kept else kept)
  end.

(** [handleAutoAdvance], given what [enterNode] does. *)
Definition handleAutoAdvanceWith (enterNode : string → M unit) (node : NodeObject)
  : M unit :=
  match nonEmpty (nodeField next node) with
  | Some next =>
      if bool_decide (next = "end") then endDialogue else enterNode next
  | None =>
      if default false (nodeField endConversation node) then endDialogue
      else
        match nodeField choices node with
        | Some (_ :: _) => ret tt
        | _ => endDialogue
        end
  end.

(** [enterNode] and [handleAutoAdvance] call each other for as long as the
    nodes met have choices that are all filtered out and a [next]; [fuel]
    bounds the number of nodes entered by one call. *)
Fixpoint enterNode (fuel : nat) (nodeId : string) : M unit :=
  match fuel with
  | O => λ w, Diverge w
  | S fuel => λ w,
      match currentTree w with
      | None => Ret tt w
      | Some tree =>
          match nodeAt tree nodeId with
          | None =>
              (log (ConsoleError ("Dialogue node not found: " +:+ nodeId)) >>>
               endDialogue) w
          | Some node =>
              (modify (with_currentNode (Some node)) >>>
               updateGame
                 (GameState.recordDialogueVisit (treeId tree +:+ ":" +:+ nodeId)) >>>
               match nodeField onEnter node with
               | Some script => ScriptRunner.runScriptWithContext script
               | None => ret tt
               end >>>
               (let* tree := gets currentTree in emit (NodeEnter node tree)) >>>
               match nodeField choices node with
               | Some (choice :: rest) =>
                   let* availableChoices := filterChoices (choice :: rest) in
                   match availableChoices with
                   | _ :: _ => emit (ChoicesReady availableChoices node)
                   | [] => handleAutoAdvanceWith (enterNode fuel) node
                   end
               | _ => ret tt
               end) w
          end
      end
  end.

Definition handleAutoAdvance (fuel : nat) (node : NodeObject) : M unit :=
  handleAutoAdvanceWith (enterNode fuel) node.

Definition startDialogue (fuel : nat) (characterId : string)
    (startNodeId : option string) : M unit := λ w,
  match findTree characterId w with
  | None =>
      log (ConsoleWarn ("No dialogue tree found for character: " +:+ characterId)) w
  | Some tree =>
      (modify (λ w, with_isDialogueActive true (with_currentTree (Some tree) w)) >>>
       enterNode fuel (default (startNode tree) (nonEmpty startNodeId))) w
  end.

Definition selectChoice (fuel : nat) (id : string) : M unit := λ w,
  match currentTree w, currentNode w with
  | Some tree, Some node =>
      match nodeField choices node with
      | None => Ret tt w
      | Some nodeChoices =>
          match List.find (λ c, bool_decide (choiceId c = id)) nodeChoices with
          | None => log (ConsoleError ("Choice not found: " +:+ id)) w
          | Some choice =>
              (updateGame
                 (GameState.recordChoiceSelection
                    (treeId tree +:+ ":" +:+ choiceId choice)) >>>
               match nodeField onExit node with
               | Some script => ScriptRunner.runScriptWithContext script
               | None => ret tt
               end >>>
               (let* node := gets currentNode in emit (NodeExit node)) >>>
               match onSelect choice with
               | Some script => ScriptRunner.runScriptWithContext script
               | None => ret tt
               end >>>
               (if bool_decide (targetNode choice = "end") then endDialogue
                else enterNode fuel (targetNode choice))) w
          end
      end
  | _, _ => Ret tt w
  end.

Definition advanceDialogue (fuel : nat) : M unit := λ w,
  match currentTree w, currentNode w with
  | Some tree, Some node =>
      (match nodeField onExit node with
       | Some script => ScriptRunner.runScriptWithContext script
       | None => ret tt
       end >>>
       let* node := gets currentNode in
       emit (NodeExit node) >>>
       match node with
       | Some node => handleAutoAdvance fuel node
       | None => throw "TypeError"
       end) w
  | _, _ => Ret tt w
  end.

(** *** Vocabulary of the properties *)

(** The choice passes the filter of [filterChoices] in the world [w]: its
    condition is absent or holds, and it is not a [once] choice that was
    selected before. *)
Definition choiceVisible (w : World) (choice : DialogueChoice) : bool :=
  match nonEmpty (choiceCondition choice) with
  | Some condition => (GameState.evaluateCondition condition (game w)).1
  | None => true
  end
  && negb (default false (once choice)
           && GameState.hasSelectedChoice (scopedId w (choiceId choice)) (game w)).

(** What the evaluation of the condition of the choice writes to the console. *)
Definition choiceLog (w : World) (choice : DialogueChoice) : list ConsoleEntry :=
  match nonEmpty (choiceCondition choice) with
  | Some condition => (GameState.evaluateCondition condition (game w)).2
  | None => []
  end.

End WithHost.

Definition getIsDialogueActive (w : World) : bool := isDialogueActive w.
Definition getCurrentDialogueNode (w : World) : option NodeObject := currentNode w.
Definition getCurrentDialogueTree (w : World) : option DialogueTree := currentTree w.

(** A target is the sentinel or a key of the nodes of the tree. *)
Definition treeResolves (tree : DialogueTree) (id : string) : bool :=
  bool_decide (id = "end") || bool_decide (is_Some (entry id (nodes tree))).

(** The start node is a node of the tree, and so is every [next] and every
    choice target that is not the sentinel. *)
Definition treeClosed (tree : DialogueTree) : bool :=
  bool_decide (is_Some (entry (startNode tree) (nodes tree)))
  && forallb
       (λ e : string * DialogueNode,
          from_option (treeResolves tree) true (next e.2)
          && forallb (λ c, treeResolves tree (targetNode c)) (default [] (choices e.2)))
       (nodes tree).

End DialogueManager.

(** ** src/engine/DialogueLoader.ts, with the types of src/types/dialogue.ts *)
Module DialogueLoader.
Import Runtime.

Record DialogueChoiceDefinition := mkChoiceDefinition {
  defChoiceId : string;
  defChoiceText : string;
  defTargetNode : string;
  defChoiceCondition : option string;
  defOnSelect : option (list ScriptCommand);
  defOnce : option bool
}.

Record DialogueNodeDefinition := mkNodeDefinition {
  defNodeId : string;
  defSpeaker : option string;
  defText : string;
  defVoiceLine : option string;
  defPortrait : option string;
  defChoices : option (list DialogueChoiceDefinition);
  defNext : option string;
  defOnEnter : option (list ScriptCommand);
  defOnExit : option (list ScriptCommand);
  defEndConversation : option bool;
  defEmotion : option string;
  defDisplayType : option string
}.

Record DialogueMetadata := mkMetadata {
  metaTitle : option string;
  metaDescription : option string;
  metaPriority : option Z;
  metaCondition : option string;
  metaOneTime : option bool
}.

Record DialogueTreeDefinition := mkTreeDefinition {
  defId : string;
  defCharacterId : string;
  defStartNode : string;
  defNodes : list (string * DialogueNodeDefinition);
  defMetadata : option DialogueMetadata
}.

Record DialogueFile := mkDialogueFile {
  fileVersion : string;
  fileCharacterId : string;
  fileCharacterName : string;
  fileDefaultPortrait : option string;
  dialogues : list DialogueTreeDefinition
}.

(** The two registries of the module. *)
Record Registry := mkRegistry {
  dialogueFiles : list (string * DialogueFile);
  dialogueTreeDefinitions : list (string * DialogueTreeDefinition)
}.

Definition emptyRegistry : Registry := mkRegistry [] [].

Definition convertChoice (c : DialogueChoiceDefinition) : DialogueChoice :=
  mkDialogueChoice (defChoiceId c) (defChoiceText c) (defTargetNode c)
    (defChoiceCondition c) (defOnSelect c) (defOnce c).

(** Only the fields that are truthy in the definition are set on the node. *)
Definition convertNode (def : DialogueNodeDefinition) : DialogueNode :=
  mkDialogueNode (defNodeId def)
    (nonEmpty (defSpeaker def))
    (defText def)
    (nonEmpty (defVoiceLine def))
    (nonEmpty (defPortrait def))
    (match defChoices def with
     | Some (c :: rest) => Some (convertChoice <$> (c :: rest))
     | _ => None
     end)
    (nonEmpty (defNext def))
    (defOnEnter def)
    (defOnExit def)
    (match defEndConversation def with Some true => Some true | _ => None end).

(** [nodes[nodeId] = convertNode(nodeDef)] for each entry of the definition.
    (For the one key [__proto__] the assignment makes the converted node the
    prototype of [nodes] and not an own property; [nodes[nodeId]] is that
    node then all the same.) *)
Definition convertToEngineFormat (def : DialogueTreeDefinition) : DialogueTree :=
  mkDialogueTree (defId def) (defCharacterId def) (defStartNode def)
    (foldl (λ nodes e, mapSet e.1 (convertNode e.2) nodes) [] (defNodes def)).

Definition loadDialogueFile (file : DialogueFile) (s : Registry * World)
  : Registry * World :=
  let r := mkRegistry (mapSet (fileCharacterId file) file (dialogueFiles s.1))
                      (dialogueTreeDefinitions s.1) in
  let s :=
    foldl
      (λ (s : Registry * World) dialogue,
         (mkRegistry (dialogueFiles s.1)
            (mapSet (defId dialogue) dialogue (dialogueTreeDefinitions s.1)),
          DialogueManager.registerDialogueTree (convertToEngineFormat dialogue) s.2))
      (r, s.2) (dialogues file) in
  (s.1,
   with_console
     (console s.2 ++
      [ConsoleLog ("Loaded " +:+ pretty (length (dialogues file)) +:+
                   " dialogue trees for " +:+ fileCharacterName file)]) s.2).

(** [metadata?.priority || 0] *)
Definition priorityOf (d : DialogueTreeDefinition) : Z :=
  default 0 (defMetadata d ≫= metaPriority).

(** [metadata?.condition], when truthy. *)
Definition conditionOf (d : DialogueTreeDefinition) : option string :=
  nonEmpty (defMetadata d ≫= metaCondition).

(** [[...l].sort((a, b) => priorityOf b - priorityOf a)]; the sort is stable. *)
Fixpoint insertByPriority (d : DialogueTreeDefinition) (l : list DialogueTreeDefinition)
  : list DialogueTreeDefinition :=
  match l with
  | [] => [d]
  | m :: rest =>
      if (priorityOf m - priorityOf d <=? 0)%Z then d :: l
      else m :: insertByPriority d rest
  end.

Definition sortByPriority (l : list DialogueTreeDefinition) : list DialogueTreeDefinition :=
  foldr insertByPriority [] l.

Section WithHost.
Context `{!Host}.

(** The availability condition of the dialogue is absent or holds. *)
Definition available (dialogue : DialogueTreeDefinition) (g : GameStateT) : bool :=
  match conditionOf dialogue with
  | None => true
  | Some condition => (GameState.evaluateCondition condition g).1
  end.

(** The loop over the sorted dialogues: the first whose condition is absent
    or holds, with what the evaluations wrote to the console. *)
Fixpoint firstAvailable (sorted : list DialogueTreeDefinition) (g : GameStateT)
  : option DialogueTreeDefinition * list ConsoleEntry :=
  match sorted with
  | [] => (None, [])
  | dialogue :: rest =>
      match conditionOf dialogue with
      | None => (Some dialogue, [])
      | Some condition =>
          let r := GameState.evaluateCondition condition g in
          if r.1 then (Some dialogue, r.2)
          else let r' := firstAvailable rest g in (r'.1, r.2 ++ r'.2)
      end
  end.

Definition findDialogueForCharacter (characterId : string) (r : Registry) (g : GameStateT)
  : option DialogueTreeDefinition * list ConsoleEntry :=
  match entry characterId (dialogueFiles r) with
  | None =>
      (None, [ConsoleWarn ("No dialogue file found for character: " +:+ characterId)])
  | Some file =>
      let sortedDialogues := sortByPriority (dialogues file) in
      match firstAvailable sortedDialogues g with
      | (Some dialogue, out) => (Some dialogue, out)
      | (None, out) => (head sortedDialogues, out)
      end
  end.

End WithHost.

Definition getDialogueById (id : string) (r : Registry) : option DialogueTreeDefinition :=
  entry id (dialogueTreeDefinitions r).

Definition getDialoguesForCharacter (characterId : string) (r : Registry)
  : list DialogueTreeDefinition :=
  match entry characterId (dialogueFiles r) with
  | Some file => dialogues file
  | None => []
  end.

(** The [name] and the [portrait] of the character. *)
Definition getCharacterInfo (characterId : string) (r : Registry)
  : option (string * option string) :=
  (λ file, (fileCharacterName file, fileDefaultPortrait file))
    <$> entry characterId (dialogueFiles r).

Definition getLoadedCharacters (r : Registry) : list string := (dialogueFiles r).*1.

Definition clearDialogues (r : Registry) : Registry := emptyRegistry.

(** *** Validation *)

(** [!!dialogue.nodes[id]] *)
Definition resolves (nodes : list (string * DialogueNodeDefinition)) (id : string) : bool :=
  found (property (entry id nodes) id).

Definition startNodeError (dialogue : DialogueTreeDefinition) : string :=
  "Dialogue " +:+ defId dialogue +:+ ": Start node '" +:+ defStartNode dialogue
  +:+ "' not found".

Definition nextError (dialogue : DialogueTreeDefinition) (nodeId next : string) : string :=
  "Dialogue " +:+ defId dialogue +:+ ", node " +:+ nodeId
  +:+ ": 'next' references non-existent node '" +:+ next +:+ "'".

Definition choiceError (dialogue : DialogueTreeDefinition) (nodeId : string)
    (choice : DialogueChoiceDefinition) : string :=
  "Dialogue " +:+ defId dialogue +:+ ", node " +:+ nodeId +:+ ", choice "
  +:+ defChoiceId choice +:+ ": 'targetNode' references non-existent node '"
  +:+ defTargetNode choice +:+ "'".

Definition noExitError (dialogue : DialogueTreeDefinition) (nodeId : string) : string :=
  "Dialogue " +:+ defId dialogue +:+ ", node " +:+ nodeId
  +:+ ": Node has no exit (next, choices, or endConversation)".

(** The errors pushed by one turn of the loop over [Object.entries(dialogue.nodes)]. *)
Definition nodeErrors (dialogue : DialogueTreeDefinition) (nodeId : string)
    (node : DialogueNodeDefinition) : list string :=
  (match nonEmpty (defNext node) with
   | Some next =>
       if negb (bool_decide (next = "end")) && negb (resolves (defNodes dialogue) next)
       then [nextError dialogue nodeId next] else []
   | None => []
   end)
  ++ (match defChoices node with
      | Some nodeChoices =>
          choice ← nodeChoices;
          (if negb (bool_decide (defTargetNode choice = "end"))
              && negb (resolves (defNodes dialogue) (defTargetNode choice))
           then [choiceError dialogue nodeId choice] else [])
      | None => []
      end)
  ++ (if negb (bool_decide (is_Some (nonEmpty (defNext node))))
         && negb (bool_decide (is_Some (defChoices node)))
         && negb (default false (defEndConversation node))
      then [noExitError dialogue nodeId] else []).

(** The errors pushed by one turn of the loop over [file.dialogues]. *)
Definition dialogueErrors (dialogue : DialogueTreeDefinition) : list string :=
  (if negb (resolves (defNodes dialogue) (defStartNode dialogue))
   then [startNodeError dialogue] else [])
  ++ (e ← defNodes dialogue; nodeErrors dialogue e.1 e.2).

Record ValidationResult := mkValidationResult {
  valid : bool;
  errors : list string
}.

Definition validateDialogueFile (file : DialogueFile) : ValidationResult :=
  let errors := dialogue ← dialogues file; dialogueErrors dialogue in
  mkValidationResult (bool_decide (length errors = 0%nat)) errors.

(** *** Vocabulary of the properties *)

(** The node has a [next], choices, or the terminal marking. *)
Definition hasExit (node : DialogueNodeDefinition) : bool :=
  bool_decide (is_Some (nonEmpty (defNext node)))
  || bool_decide (is_Some (defChoices node))
  || default false (defEndConversation node).

(** The id is a key of the node map of the tree. *)
Definition inNodeMap (dialogue : DialogueTreeDefinition) (id : string) : bool :=
  bool_decide (is_Some (entry id (defNodes dialogue))).

(** A target is the sentinel or the id of a node of the tree. *)
Definition targetResolves (dialogue : DialogueTreeDefinition) (id : string) : bool :=
  bool_decide (id = "end") || inNodeMap dialogue id.

Definition targetsResolve (dialogue : DialogueTreeDefinition)
    (node : DialogueNodeDefinition) : bool :=
  from_option (targetResolves dialogue) true (nonEmpty (defNext node))
  && forallb (λ c, targetResolves dialogue (defTargetNode c))
       (default [] (defChoices node)).

(** Every node has an exit and every [next] and choice target resolves. *)
Definition nodesWellFormed (dialogue : DialogueTreeDefinition) : bool :=
  forallb (λ e, hasExit e.2 && targetsResolve dialogue e.2) (defNodes dialogue).

Definition startNodePresent (dialogue : DialogueTreeDefinition) : bool :=
  inNodeMap dialogue (defStartNode dialogue).

(** What the validator takes for a node of the tree: a key of the node map
    or the name of a member of [Object.prototype]. *)
Definition passesForNode (dialogue : DialogueTreeDefinition) (id : string) : bool :=
  inNodeMap dialogue id || bool_decide (id ∈ ObjectPrototype).

(** What the validator takes for a target: the sentinel or such an id. *)
Definition targetPasses (dialogue : DialogueTreeDefinition) (id : string) : bool :=
  bool_decide (id = "end") || passesForNode dialogue id.

(** Every node has an exit, and the validator takes every [next] and every
    choice target for a target. *)
Definition nodesPass (dialogue : DialogueTreeDefinition) : bool :=
  forallb
    (λ e : string * DialogueNodeDefinition,
       hasExit e.2
       && from_option (targetPasses dialogue) true (nonEmpty (defNext e.2))
       && forallb (λ c, targetPasses dialogue (defTargetNode c))
            (default [] (defChoices e.2)))
    (defNodes dialogue).

(** No id that the tree uses, as its start node or as a target, is the name
    of a member of [Object.prototype]. *)
Definition plainIds (dialogue : DialogueTreeDefinition) : Prop :=
  (defStartNode dialogue ∉ ObjectPrototype)
  ∧ (∀ id node, (id, node) ∈ defNodes dialogue →
       (∀ next, nonEmpty (defNext node) = Some next → next ∉ ObjectPrototype)
       ∧ (∀ c, c ∈ default [] (defChoices node) → defTargetNode c ∉ ObjectPrototype)).

End DialogueLoader.

(** ** src/engine/GameScene.ts: input handling and the action queue *)
Module GameScene.

Inductive CursorType :=
| CursorDefault | CursorWalk | CursorLook | CursorUse
| CursorTalk | CursorExit | CursorPickup | CursorItem.

Inductive ActionType :=
| ActWalk | ActInteract | ActUse | ActTalk | ActLook | ActUseItem.

(** [onComplete] is the script that the callback hands to
    [runScriptWithContext]; the source builds no other callback. *)
Record QueuedAction := mkQueuedAction {
  actionType : ActionType;
  target : option Point;
  actionHotspotId : option string;
  actionCharacterId : option string;
  actionItemId : option string;
  onComplete : option (list ScriptCommand)
}.

Record RoomExit := mkRoomExit {
  exitId : string;
  targetRoom : string;
  targetPosition : option Point;
  exitPolygon : Polygon;
  exitCursor : option CursorType;
  exitCondition : option string
}.

Record Hotspot := mkHotspot {
  hotspotId : string;
  hotspotName : string;
  hotspotPolygon : Polygon;
  interactionPoint : Point;
  cursor : CursorType;
  lookScript : option (list ScriptCommand);
  useScript : option (list ScriptCommand);
  talkScript : option (list ScriptCommand);
  useWithItem : option (list (string * list ScriptCommand));
  hotspotCondition : option string
}.

Record RoomDefinition := mkRoomDefinition {
  roomId : string;
  roomName : string;
  walkableArea : Polygon;
  exits : list RoomExit;
  hotspots : list Hotspot;
  roomOnEnter : option (list ScriptCommand)
}.

(** The fields of the scene that input handling reads and writes; [player]
    is the position of the sprite and [itemNames] the [name] of each
    registered item. *)
Record Scene := mkScene {
  sceneRoom : option RoomDefinition;
  roomData : list (string * RoomDefinition);
  itemNames : list (string * string);
  player : Point;
  playerPath : list Point;
  playerDistanceTraveled : Q;
  isWalking : bool;
  actionQueue : list QueuedAction;
  currentAction : option QueuedAction;
  selectedItem : option string;
  currentCursor : CursorType
}.

(** The calls that leave the scene.  [RunInherited name] is the call of
    [runScriptWithContext] with the member [name] of [Object.prototype] for a
    script: the run raises, since the member is no array, and the
    [processNextAction] chained to it is not called.  [Uncaught] is an
    exception that leaves the handler. *)
Inductive SceneEffect :=
| RunScript (commands : list ScriptCommand) (thenProcessNextAction : bool)
| RunInherited (name : string)
| SignalWalkComplete (characterId : string)
| Uncaught.

(** The scene with the store it shares with the other modules, and what the
    handlers have called and logged so far. *)
Record Stage := mkStage {
  scene : Scene;
  game : GameStateT;
  effects : list SceneEffect;
  console : list ConsoleEntry
}.

Definition with_scene (v : Scene) (st : Stage) : Stage :=
  mkStage v (game st) (effects st) (console st).
Definition with_game (v : GameStateT) (st : Stage) : Stage :=
  mkStage (scene st) v (effects st) (console st).
Definition effect (e : SceneEffect) (st : Stage) : Stage :=
  mkStage (scene st) (game st) (effects st ++ [e]) (console st).
Definition logged (out : list ConsoleEntry) (st : Stage) : Stage :=
  mkStage (scene st) (game st) (effects st) (console st ++ out).

Definition with_queue (queue : list QueuedAction) (current : option QueuedAction)
    (s : Scene) : Scene :=
  mkScene (sceneRoom s) (roomData s) (itemNames s) (player s) (playerPath s)
    (playerDistanceTraveled s) (isWalking s) queue current (selectedItem s)
    (currentCursor s).
Definition with_walk (path : list Point) (traveled : Q) (walking : bool) (s : Scene)
  : Scene :=
  mkScene (sceneRoom s) (roomData s) (itemNames s) (player s) path traveled walking
    (actionQueue s) (currentAction s) (selectedItem s) (currentCursor s).
Definition with_player (p : Point) (s : Scene) : Scene :=
  mkScene (sceneRoom s) (roomData s) (itemNames s) p (playerPath s)
    (playerDistanceTraveled s) (isWalking s) (actionQueue s) (currentAction s)
    (selectedItem s) (currentCursor s).
Definition with_selection (item : option string) (c : CursorType) (s : Scene) : Scene :=
  mkScene (sceneRoom s) (roomData s) (itemNames s) (player s) (playerPath s)
    (playerDistanceTraveled s) (isWalking s) (actionQueue s) (currentAction s)
    item c.
Definition with_room (room : option RoomDefinition) (s : Scene) : Scene :=
  mkScene room (roomData s) (itemNames s) (player s) (playerPath s)
    (playerDistanceTraveled s) (isWalking s) (actionQueue s) (currentAction s)
    (selectedItem s) (currentCursor s).

(** The scene's own [getPolygonCenter]. *)
Definition getPolygonCenter (polygon : Polygon) : Point :=
  Pathfinding.getPolygonCenter polygon.

Section WithHost.
Context `{!Host}.

(** [c && !evaluateCondition(c)], with what the evaluation logged. *)
Definition conditionFails (condition : option string) (g : GameStateT)
  : bool * list ConsoleEntry :=
  match nonEmpty condition with
  | Some c => let r := GameState.evaluateCondition c g in (negb r.1, r.2)
  | None => (false, [])
  end.

(** The loop of [getHotspotAt]: the hotspot returned with what the
    conditions logged, or [None] when [isHotspotEnabled] raises. *)
Fixpoint hotspotAmong (room : RoomDefinition) (point : Point) (g : GameStateT)
    (candidates : list Hotspot) : option (option Hotspot * list ConsoleEntry) :=
  match candidates with
  | [] => Some (None, [])
  | hotspot :: rest =>
      match GameState.isHotspotEnabled (roomId room) (hotspotId hotspot) g with
      | None => None
      | Some false => hotspotAmong room point g rest
      | Some true =>
          let c := conditionFails (hotspotCondition hotspot) g in
          if c.1 then
            r ← hotspotAmong room point g rest; Some (r.1, c.2 ++ r.2)
          else if Pathfinding.isPointInPolygon point (hotspotPolygon hotspot)
          then Some (Some hotspot, c.2)
          else
            r ← hotspotAmong room point g rest; Some (r.1, c.2 ++ r.2)
      end
  end.

Definition getHotspotAt (point : Point) (st : Stage)
  : option (option Hotspot * list ConsoleEntry) :=
  match sceneRoom (scene st) with
  | None => Some (None, [])
  | Some room => hotspotAmong room point (game st) (hotspots room)
  end.

Fixpoint exitAmong (point : Point) (g : GameStateT) (candidates : list RoomExit)
  : option RoomExit * list ConsoleEntry :=
  match candidates with
  | [] => (None, [])
  | exit :: rest =>
      let c := conditionFails (exitCondition exit) g in
      if c.1 then
        let r := exitAmong point g rest in (r.1, c.2 ++ r.2)
      else if Pathfinding.isPointInPolygon point (exitPolygon exit)
      then (Some exit, c.2)
      else
        let r := exitAmong point g rest in (r.1, c.2 ++ r.2)
  end.

Definition getExitAt (point : Point) (st : Stage) : option RoomExit * list ConsoleEntry :=
  match sceneRoom (scene st) with
  | None => (None, [])
  | Some room => exitAmong point (game st) (exits room)
  end.

(** [onWalkComplete], given what [processNextAction] does. *)
Definition onWalkCompleteWith (processNextAction : Stage → Stage) (st : Stage) : Stage :=
  let st := with_scene (with_walk [] (playerDistanceTraveled (scene st)) false (scene st)) st in
  let st := effect (SignalWalkComplete "player") st in
  processNextAction st.

(** [walkTo], given what [processNextAction] does.  An exception of
    [findPath] leaves the handler. *)
Definition walkToWith (processNextAction : Stage → Stage) (target : Point) (st : Stage)
  : Stage :=
  match sceneRoom (scene st) with
  | None => st
  | Some room =>
      let start := player (scene st) in
      match Pathfinding.findPath start target (walkableArea room) with
      | Pathfinding.Returns path =>
          match path with
          | p0 :: p1 :: _ =>
              let st := with_scene (with_walk path 0 true (scene st)) st in
              with_game (GameState.setPlayerFacing (Pathfinding.getDirection p0 p1) (game st)) st
          | _ => onWalkCompleteWith processNextAction st
          end
      | _ => effect Uncaught st
      end
  end.

Definition findHotspot (room : RoomDefinition) (id : option string) : option Hotspot :=
  match id with
  | Some id => List.find (λ h, bool_decide (hotspotId h = id)) (hotspots room)
  | None => None
  end.

Definition handleUse (id : option string) (st : Stage) : Stage :=
  match sceneRoom (scene st) with
  | None => st
  | Some room =>
      match findHotspot room id with
      | Some (mkHotspot _ _ _ point _ _ (Some script) _ _ _) =>
          let direction := Pathfinding.getDirection (player (scene st)) point in
          let st := with_game (GameState.setPlayerFacing direction (game st)) st in
          effect (RunScript script true) st
      | _ => effect (RunScript [Thought "I can't use that."] true) st
      end
  end.

Definition handleUseItem (id : option string) (item : option string) (st : Stage) : Stage :=
  match sceneRoom (scene st) with
  | None => st
  | Some room =>
      let hotspot := findHotspot room id in
      let st := with_scene (with_selection None CursorDefault (scene st)) st in
      match hotspot with
      | None => effect (RunScript [Thought "That doesn't work."] true) st
      | Some hotspot =>
          let itemId := default "undefined" item in
          match from_option (λ scripts, property (entry itemId scripts) itemId)
                  Undefined (useWithItem hotspot) with
          | Value itemScript => effect (RunScript itemScript true) st
          | Inherited name => effect (RunInherited name) st
          | Undefined =>
              let itemName :=
                default "that" (nonEmpty (item ≫= λ i, entry i (itemNames (scene st)))) in
              effect
                (RunScript [Thought ("I can't use the " +:+ itemName +:+ " on that.")] true)
                st
          end
      end
  end.

Definition handleLook (id : option string) (st : Stage) : Stage :=
  match sceneRoom (scene st) with
  | None => st
  | Some room =>
      match findHotspot room id with
      | Some (mkHotspot _ _ _ _ _ (Some script) _ _ _ _) =>
          effect (RunScript script true) st
      | hotspot =>
          let text := default "Nothing special." (nonEmpty (hotspotName <$> hotspot)) in
          effect (RunScript [Narrate text] true) st
      end
  end.

Definition handleTalk (characterId : option string) (st : Stage) : Stage :=
  effect (RunScript [StartDialogue (default "undefined" characterId) None] true) st.

(** [processNextAction] for a scene whose [actionQueue] is [queue]. *)
Fixpoint processQueue (queue : list QueuedAction) (st : Stage) : Stage :=
  match queue with
  | [] => with_scene (with_queue [] None (scene st)) st
  | action :: rest =>
      let st := with_scene (with_queue rest (Some action) (scene st)) st in
      match actionType action with
      | ActWalk =>
          match target action with
          | Some target => walkToWith (processQueue rest) target st
          | None => st
          end
      | ActInteract =>
          let st :=
            match onComplete action with
            | Some script => effect (RunScript script false) st
            | None => st
            end in
          processQueue rest st
      | ActUse => handleUse (actionHotspotId action) st
      | ActUseItem => handleUseItem (actionHotspotId action) (actionItemId action) st
      | ActLook => handleLook (actionHotspotId action) st
      | ActTalk => handleTalk (actionCharacterId action) st
      end
  end.

Definition processNextAction (st : Stage) : Stage :=
  processQueue (actionQueue (scene st)) st.

Definition onWalkComplete (st : Stage) : Stage :=
  onWalkCompleteWith processNextAction st.

Definition walkTo (target : Point) (st : Stage) : Stage :=
  walkToWith processNextAction target st.

(** [this.actionQueue = chain; this.processNextAction()] *)
Definition enqueue (chain : list QueuedAction) (st : Stage) : Stage :=
  processNextAction (with_scene (with_queue chain (currentAction (scene st)) (scene st)) st).

Definition queueAction (action : QueuedAction) (st : Stage) : Stage :=
  enqueue [action] st.

Definition hotspotChain (selected : option string) (hotspot : Hotspot) : list QueuedAction :=
  let walkAction :=
    mkQueuedAction ActWalk (Some (interactionPoint hotspot)) None None None None in
  let interactAction :=
    match nonEmpty selected with
    | Some item =>
        mkQueuedAction ActUseItem None (Some (hotspotId hotspot)) None (Some item) None
    | None => mkQueuedAction ActUse None (Some (hotspotId hotspot)) None None None
    end in
  [walkAction; interactAction].

Definition queueHotspotInteraction (hotspot : Hotspot) (st : Stage) : Stage :=
  enqueue (hotspotChain (selectedItem (scene st)) hotspot) st.

Definition exitChain (exit : RoomExit) : list QueuedAction :=
  let center := getPolygonCenter (exitPolygon exit) in
  let walkAction := mkQueuedAction ActWalk (Some center) None None None None in
  let exitAction :=
    mkQueuedAction ActInteract (targetPosition exit) None None None
      (Some [GoToRoom (targetRoom exit) (targetPosition exit)]) in
  [walkAction; exitAction].

Definition queueExitInteraction (exit : RoomExit) (st : Stage) : Stage :=
  enqueue (exitChain exit) st.

(** The walk entry of a click on the ground; the projection raises for a
    walkable area without points. *)
Definition groundChain (room : RoomDefinition) (point : Point)
  : option (list QueuedAction) :=
  if Pathfinding.isPointInPolygon point (walkableArea room)
  then Some [mkQueuedAction ActWalk (Some point) None None None None]
  else
    match Pathfinding.getClosestPointInPolygon point (walkableArea room) with
    | Pathfinding.Returns closest =>
        Some [mkQueuedAction ActWalk (Some closest) None None None None]
    | _ => None
    end.

Definition handleClick (point : Point) (st : Stage) : Stage :=
  match sceneRoom (scene st) with
  | None => st
  | Some room =>
      match getHotspotAt point st with
      | None => effect Uncaught st
      | Some (Some hotspot, out) => queueHotspotInteraction hotspot (logged out st)
      | Some (None, out) =>
          let st := logged out st in
          let e := getExitAt point st in
          let st := logged e.2 st in
          match e.1 with
          | Some exit => queueExitInteraction exit st
          | None =>
              match groundChain room point with
              | Some chain => enqueue chain st
              | None => effect Uncaught st
              end
          end
      end
  end.

(** The frame of [update] on which [interpolatePath] reports that the end of
    the path is reached: the sprite and the stored position are at the last
    waypoint and [onWalkComplete] runs. *)
Definition walkArrives (st : Stage) : Stage :=
  if isWalking (scene st) then
    match last (playerPath (scene st)) with
    | Some destination =>
        let st := with_scene (with_player destination (scene st)) st in
        let st := with_game (GameState.setPlayerPosition destination (game st)) st in
        onWalkComplete st
    | None => st
    end
  else st.

Definition walkSpeed : Q := 150.

(** The part of [update(time, delta)] that moves the player; the rest of the
    method draws.  [None] when [interpolatePath] gives a position that is not
    a finite point, which the sprite of the model cannot be given. *)
Definition update (delta : Q) (st : Stage) : option Stage :=
  let s := scene st in
  if isWalking s && negb (bool_decide (length (playerPath s) = 0%nat)) then
    let speed := (walkSpeed * (delta / 1000))%Q in
    let traveled := (playerDistanceTraveled s + speed)%Q in
    let result := Pathfinding.interpolatePath (playerPath s) traveled in
    match Pathfinding.position result with
    | None => None
    | Some position =>
        let s := with_player position (with_walk (playerPath s) traveled true s) in
        let st :=
          with_game (GameState.setPlayerPosition position (game st)) (with_scene s st) in
        Some (if Pathfinding.finished result then onWalkComplete st else st)
    end
  else Some st.

(** [n] frames of the same duration. *)
Fixpoint frames (n : nat) (delta : Q) (st : Stage) : option Stage :=
  match n with
  | O => Some st
  | S n => update delta st ≫= frames n delta
  end.

(** The end of a walk along [path]: the sprite and the stored position are
    at [destination], and [onWalkComplete] runs. *)
Definition arrival (path : list Point) (traveled : Q) (destination : Point) (st : Stage)
  : Stage :=
  let s := with_player destination (with_walk path traveled true (scene st)) in
  onWalkComplete
    (with_game (GameState.setPlayerPosition destination (game st)) (with_scene s st)).

Definition teleportPlayer (position : Point) (st : Stage) : Stage :=
  let s := with_player position (scene st) in
  let s := with_walk [] (playerDistanceTraveled s) false s in
  with_game (GameState.setPlayerPosition position (game st)) (with_scene s st).

Definition selectItem (item : string) (st : Stage) : Stage :=
  with_scene (with_selection (Some item) CursorItem (scene st)) st.

Definition clearSelectedItem (st : Stage) : Stage :=
  with_scene (with_selection None CursorDefault (scene st)) st.

Definition loadRoom (id : string) (spawnPosition : option Point) (st : Stage) : Stage :=
  match entry id (roomData (scene st)) with
  | None => logged [ConsoleError ("Room not found: " +:+ id)] st
  | Some room =>
      let pos := default (playerPosition (game st)) spawnPosition in
      let s := with_room (Some room) (scene st) in
      let s := with_player pos s in
      let s := with_walk [] (playerDistanceTraveled s) false s in
      let s := with_queue [] None s in
      let st := with_game (GameState.setPlayerPosition pos (game st)) (with_scene s st) in
      match roomOnEnter room with
      | Some script => effect (RunScript script false) st
      | None => st
      end
  end.

(** What reaches the scene from outside. *)
Inductive SceneInput :=
| Click (point : Point)
| WalkArrives
| ScriptFinished
| SelectItem (item : string)
| ClearSelectedItem
| LoadRoom (id : string) (spawnPosition : option Point).

Definition react (st : Stage) (input : SceneInput) : Stage :=
  match input with
  | Click point => handleClick point st
  | WalkArrives => walkArrives st
  | ScriptFinished => processNextAction st
  | SelectItem item => selectItem item st
  | ClearSelectedItem => clearSelectedItem st
  | LoadRoom id spawnPosition => loadRoom id spawnPosition st
  end.

Definition play (inputs : list SceneInput) (st : Stage) : Stage :=
  foldl react st inputs.

End WithHost.

(** *** Vocabulary of the properties *)

(** The action being processed and those queued behind it. *)
Definition remaining (st : Stage) : list QueuedAction :=
  from_option (λ a, [a]) [] (currentAction (scene st)) ++ actionQueue (scene st).



End GameScene.

(** ** Concrete data for the examples *)
Module Examples.

(** [Math.sqrt] by integer square root on twelve decimal digits; exact on the
    squares of integers. *)
Definition approxSqrt (q : Q) : Q :=
  Qmake (Z.sqrt (Qnum q * Z.pos (Qden q) * 1000000000000))
        (Qden q * 1000000).

(** A host whose engine evaluates three conditions and rejects every other
    text, and whose listeners never raise. *)
#[export] Instance exampleHost : Host := {|
  Math_sqrt := approxSqrt;
  evalFunc condition g :=
    if bool_decide (condition = "reputation > 10")
    then Some (lessThan (Finite 10) (reputation g))
    else if bool_decide (condition = "true") then Some true
    else if bool_decide (condition = "false") then Some false
    else None;
  listenerFails _ := false
|}.

Definition pt (x y : Z) : Point := mkPoint (inject_Z x) (inject_Z y).

Definition square : Polygon := [pt 0 0; pt 10 0; pt 10 10; pt 0 10].

(** A walkable area in the shape of a U: a square of side 10 with a slot of
    width 2 cut from its upper side down to height 2. *)
Definition uArea : Polygon :=
  [pt 0 0; pt 10 0; pt 10 10; pt 6 10; pt 6 2; pt 4 2; pt 4 10; pt 0 10].

(** The same shape ten times larger. *)
Definition wideArea : Polygon :=
  [pt 0 0; pt 100 0; pt 100 100; pt 60 100; pt 60 20; pt 40 20; pt 40 100; pt 0 100].

(** *** Scripts and dialogue trees *)

Definition flagScript : list ScriptCommand :=
  SetFlag "a" (VNum 1)
  :: [WaitSeconds 1; Say "Clem" "Hello." None]
  ++ SetFlag "a" (VNum 2)
  :: [Walk "player" (pt 3 5); FadeOut None].

(** A tree whose start node has an enter script. *)
Definition greetingTree : DialogueTree :=
  mkDialogueTree "maybelle_intro" "maybelle" "start"
    [("start",
      mkDialogueNode "start" (Some "Maybelle") "Well now, you are a new face." None None
        None None (Some [SetFlag "met_maybelle" (VBool true)]) None (Some true))].

(** The script of a talk action, followed by one more command. *)
Definition talkScript : list ScriptCommand :=
  [StartDialogue "maybelle" None; SetFlag "talked" (VBool true)].

(** The talk script is started as a top-level run. *)
Definition talkStarted : ScriptRunner.Machine :=
  ScriptRunner.spawn (ScriptRunner.runScriptWithContext talkScript)
    (ScriptRunner.boot
       (DialogueManager.registerDialogueTree greetingTree Runtime.initialWorld)).

(** The presentation layer answers the dialogue event. *)
Definition dialogueOpened : ScriptRunner.Machine :=
  ScriptRunner.spawn (DialogueManager.startDialogue 8 "maybelle" None) talkStarted.

(** The dialogue tree has ended. *)
Definition talkFinished : ScriptRunner.Machine :=
  ScriptRunner.signalDialogueComplete dialogueOpened.

Definition endNode (id text : string) : DialogueLoader.DialogueNodeDefinition :=
  DialogueLoader.mkNodeDefinition id (Some "Maybelle") text None None None None None None
    (Some true) None None.

(** Two trees of one character: the first of the file has the lower priority. *)
Definition lowTree : DialogueLoader.DialogueTreeDefinition :=
  DialogueLoader.mkTreeDefinition "maybelle_smalltalk" "maybelle" "start"
    [("start", endNode "start" "Nice weather.")]
    (Some (DialogueLoader.mkMetadata None None (Some 1) None None)).

Definition highTree : DialogueLoader.DialogueTreeDefinition :=
  DialogueLoader.mkTreeDefinition "maybelle_quest" "maybelle" "start"
    [("start", endNode "start" "I need your help.")]
    (Some (DialogueLoader.mkMetadata None None (Some 10) None None)).

Definition maybelleFile : DialogueLoader.DialogueFile :=
  DialogueLoader.mkDialogueFile "1.0" "maybelle" "Maybelle" None [lowTree; highTree].

Definition loaded : DialogueLoader.Registry * Runtime.World :=
  DialogueLoader.loadDialogueFile maybelleFile
    (DialogueLoader.emptyRegistry, Runtime.initialWorld).

(** A tree whose nodes are well-formed and whose start node is missing. *)
Definition orphanTree : DialogueLoader.DialogueTreeDefinition :=
  DialogueLoader.mkTreeDefinition "maybelle_rumor" "maybelle" "start"
    [("opening", endNode "opening" "They say the cave is haunted.")] None.



(** *** Stores *)

Definition exampleLive : Persistence.JSON :=
  Persistence.encodeGameState GameState.createInitialState.

(** Slot 1 holds an object that is not a save record. *)
Definition junkStore : Persistence.Store :=
  Persistence.mkStore exampleLive
    (Persistence.mkStorage
       (Persistence.ItemJSON
          (Persistence.JObj [("1", Persistence.JObj [("junk", Persistence.JNum 7)])]))
       false false).

Definition garbageStore : Persistence.Store :=
  Persistence.mkStore exampleLive
    (Persistence.mkStorage Persistence.ItemGarbage false false).

(** The store after a save to slot 1 from an empty storage. *)
Definition savedStore : Persistence.Store :=
  (Persistence.saveGame 1700000000000 1 (Some "Cave entrance")
     (Persistence.mkStore exampleLive
        (Persistence.mkStorage Persistence.ItemAbsent false false))).1.2.


(** *** Two scripts that both open the dialogue box *)

Definition firstScript : list ScriptCommand :=
  [Say "Clem" "Hello." None; SetFlag "first" (VBool true)].

Definition laterScript : list ScriptCommand :=
  [Narrate "The wind picks up."; SetFlag "later" (VBool true)].

(** The first script is waiting for the dismissal of its line. *)
Definition firstWaiting : ScriptRunner.Machine :=
  ScriptRunner.spawn (ScriptRunner.runScript firstScript)
    (ScriptRunner.boot Runtime.initialWorld).

(** The engine with the tree whose start node is missing. *)
Definition orphanWorld : Runtime.World :=
  DialogueManager.registerDialogueTree
    (DialogueLoader.convertToEngineFormat orphanTree) Runtime.initialWorld.

(** A path of two legs, of lengths 5 and 6. *)
Definition twoLegs : list Point := [pt 0 0; pt 3 4; pt 3 10].

(** *** A room *)

Definition door : GameScene.Hotspot :=
  GameScene.mkHotspot "door" "Door"
    [pt 0 8; pt 2 8; pt 2 10; pt 0 10] (pt 1 7) GameScene.CursorUse None
    (Some [SetFlag "door_open" (VBool true)]) None None None.

Definition cellar : GameScene.RoomDefinition :=
  GameScene.mkRoomDefinition "cellar" "Cellar" uArea [] [door] None.

(** The player is walking to the door, with the use of the door queued. *)
Definition walkingToDoor : GameScene.Stage :=
  GameScene.mkStage
    (GameScene.mkScene (Some cellar) [("cellar", cellar)] [] (pt 3 1)
       [pt 3 1; pt 1 7] 0 true
       [GameScene.mkQueuedAction GameScene.ActUse None (Some "door") None None None]
       (Some (GameScene.mkQueuedAction GameScene.ActWalk (Some (pt 1 7)) None None None None))
       None GameScene.CursorDefault)
    GameState.createInitialState [] [].

(** A room with an exit in its lower right corner; the player stands still. *)
Definition stairs : GameScene.RoomExit :=
  GameScene.mkRoomExit "stairs" "sinkhole" (Some (pt 480 450))
    [pt 8 0; pt 10 0; pt 10 2; pt 8 2] None None.

Definition landing : GameScene.RoomDefinition :=
  GameScene.mkRoomDefinition "landing" "Landing" square [stairs] [] None.

Definition onLanding : GameScene.Stage :=
  GameScene.mkStage
    (GameScene.mkScene (Some landing) [("landing", landing)] [] (pt 2 2) [] 0 false []
       None None GameScene.CursorDefault)
    GameState.createInitialState [] [].

End Examples.

(** * Part II: properties *)

(** * Properties of the world state store *)

Section GameStateProperties.
Import GameState.

Lemma setReputation_in_range value g :
  value ≠ NaN → reputationInRange (setReputation value g).
Proof.
  unfold reputationInRange, setReputation. cbn [reputation with_reputation].
  destruct value as [| |q|]; [done| | |]; intros _.
  - cbn. split; [apply Qle_refl|done].
  - unfold Math_min, lessThan.
    destruct (Qle_bool 100 q) eqn:Hhigh; cbn [negb].
    + cbn. split; [done|apply Qle_refl].
    + unfold Math_max, lessThan.
      destruct (Qle_bool q (-100)) eqn:Hlow; cbn [negb].
      * split; [apply Qle_refl|done].
      * split.
        -- apply Qlt_le_weak, Qnot_le_lt. intros Hle.
           apply Qle_bool_iff in Hle. congruence.
        -- apply Qlt_le_weak, Qnot_le_lt. intros Hle.
           apply Qle_bool_iff in Hle. congruence.
  - cbn. split; [done|apply Qle_refl].
Qed.

Lemma addNumbers_in_range g amount :
  reputationInRange g → amount ≠ NaN → addNumbers (reputation g) amount ≠ NaN.
Proof.
  unfold reputationInRange. destruct (reputation g); [done|done| |done].
  intros _ Hamount. by destruct amount.
Qed.

Lemma applyReputationWrite_in_range g op :
  reputationInRange g → writesNumber op → reputationInRange (applyReputationWrite g op).
Proof.
  intros Hg Hop. destruct op as [value|amount]; simpl in *.
  - by apply setReputation_in_range.
  - unfold adjustReputation. by apply setReputation_in_range, addNumbers_in_range.
Qed.

Lemma reputationHistory_in_range ops : ∀ g,
  reputationInRange g → Forall writesNumber ops →
  Forall reputationInRange (reputationHistory g ops).
Proof.
  induction ops as [|op ops IH]; intros g Hg Hops; simpl.
  - by constructor.
  - apply Forall_cons in Hops as [Hop Hops].
    constructor; [done|]. apply IH; [|done]. by apply applyReputationWrite_in_range.
Qed.

(** C3 (as amended).  Starting from a state whose reputation is within
    [-100, 100], every state passed through by a sequence of [setReputation]
    and [adjustReputation] calls whose arguments are numbers other than NaN
    (infinite ones included) has its reputation within [-100, 100]; and
    [adjustReputation 1000] at reputation 0 stores exactly 100. *)
Theorem reputation_stays_clamped (g : GameStateT) (ops : list ReputationWrite) :
  reputationInRange g →
  Forall writesNumber ops →
  Forall reputationInRange (reputationHistory g ops)
  ∧ (∀ q, reputation g = Finite q → q == 0 →
     reputation (adjustReputation (Finite 1000) g) = Finite 100).
Proof.
  intros Hg Hops. split.
  - by apply reputationHistory_in_range.
  - intros q Hq H0. unfold adjustReputation, setReputation.
    cbn [reputation with_reputation]. rewrite Hq. cbn [addNumbers].
    unfold Math_min, lessThan.
    assert (Qle_bool 100 (q + 1000) = true) as ->.
    { apply Qle_bool_iff. rewrite H0. done. }
    reflexivity.
Qed.

Lemma reputation_stays_clamped_witness :
  reputationInRange createInitialState
  ∧ Forall reputationInRange
      (reputationHistory createInitialState
         [AdjustReputation (Finite 1000); SetReputation (Finite (-250));
          AdjustReputation PosInfinity; AdjustReputation (Finite (7 # 2))])
  ∧ reputation (adjustReputation (Finite 1000) createInitialState) = Finite 100.
Proof.
  assert (H : reputationInRange createInitialState) by (by cbn).
  assert (Forall writesNumber
            [AdjustReputation (Finite 1000); SetReputation (Finite (-250));
             AdjustReputation PosInfinity; AdjustReputation (Finite (7 # 2))]) as Hops
    by (by repeat constructor).
  split; [exact H|].
  destruct (reputation_stays_clamped createInitialState _ H Hops) as [Hall Hexact].
  split; [exact Hall|]. by apply (Hexact 0%Q).
Defined.

(** C3 fails as stated: the clamp lets NaN through.  From the initial state,
    whose reputation is 0, [setReputation(NaN)] and [adjustReputation(NaN)]
    store NaN, which is not within [-100, 100], and every adjustment after
    that stores NaN again. *)
Lemma reputation_write_of_NaN_is_stored :
  reputationInRange createInitialState
  ∧ reputation (setReputation NaN createInitialState) = NaN
  ∧ reputation (adjustReputation NaN createInitialState) = NaN
  ∧ ¬ reputationInRange (setReputation NaN createInitialState)
  ∧ ¬ reputationInRange (adjustReputation NaN createInitialState)
  ∧ (∀ amount,
       reputation (adjustReputation amount (adjustReputation NaN createInitialState))
       = NaN).
Proof.
  split; [by cbn|]. split; [reflexivity|]. split; [reflexivity|].
  split; [intros H; exact H|]. split; [intros H; exact H|].
  intros amount. by destruct amount.
Qed.

(** *** Condition evaluation *)

Lemma isSpace2_lead a b : isSpace2 a b = true → isSpace1 a = false.
Proof.
  unfold isSpace1, isSpace2. intros [Ha _]%andb_true_iff.
  apply N.eqb_eq in Ha. rewrite Ha. reflexivity.
Qed.

Lemma isSpace3_lead a b c :
  isSpace3 a b c = true → isSpace1 a = false ∧ isSpace2 a b = false.
Proof.
  unfold isSpace1, isSpace2, isSpace3. cbv zeta.
  generalize (N_of_ascii a) (N_of_ascii b) (N_of_ascii c). intros x y z Hs.
  assert (x = 225 ∨ x = 226 ∨ x = 227 ∨ x = 239)%N as Hx.
  { repeat (apply orb_true_iff in Hs as [Hs|Hs]);
      repeat (apply andb_true_iff in Hs as [Hs _]);
      apply N.eqb_eq in Hs; auto. }
  split; destruct Hx as [->|[->|[->| ->]]]; reflexivity.
Qed.

Lemma trimStart_blank s : Blank s → trimStart s = "".
Proof.
  unfold trimStart. induction 1 as [|a s Ha _ IH|a b s Hab _ IH|a b c s Habc _ IH].
  - reflexivity.
  - simpl. by rewrite Ha.
  - simpl. by rewrite (isSpace2_lead a b Hab), Hab.
  - destruct (isSpace3_lead a b c Habc) as [H1 H2]. simpl. by rewrite H1, H2, Habc.
Qed.

Lemma trim_blank s : Blank s → trim s = "".
Proof. intros Hs. unfold trim. by rewrite (trimStart_blank s Hs). Qed.

Context `{!Host}.

(** C4.  [evaluateCondition] always returns a value: [true] for the empty
    string and for a string of white space only; for any other string, what
    the generated function returns, and [false] with a [console.error] entry
    when building or calling the generated function raises. *)
Theorem evaluateCondition_total (condition : string) (g : GameStateT) :
  (condition = "" → evaluateCondition condition g = (true, []))
  ∧ (Blank condition → evaluateCondition condition g = (true, []))
  ∧ (trim condition ≠ "" → evalFunc condition g = None →
     evaluateCondition condition g
     = (false, [ConsoleError ("Failed to evaluate condition: " +:+ condition)]))
  ∧ (trim condition ≠ "" → ∀ v, evalFunc condition g = Some v →
     evaluateCondition condition g = (v, [])).
Proof.
  unfold evaluateCondition. repeat split.
  - intros ->. reflexivity.
  - intros Hs. rewrite (trim_blank _ Hs). rewrite (bool_decide_eq_true_2 ("" = "")) by done.
    by rewrite orb_true_r.
  - intros Ht He.
    assert (condition ≠ "") by (intros ->; by apply Ht).
    rewrite !bool_decide_eq_false_2 by done. simpl. by rewrite He.
  - intros Ht v He.
    assert (condition ≠ "") by (intros ->; by apply Ht).
    rewrite !bool_decide_eq_false_2 by done. simpl. by rewrite He.
Qed.

End GameStateProperties.

(** * Properties of the save / load system *)

Section PersistenceProperties.
Import Persistence.

Lemma lookupField_setField_ne key key' v fields :
  key ≠ key' → lookupField key' (setField key v fields) = lookupField key' fields.
Proof.
  intros Hne. induction fields as [|[k x] fields IH]; simpl.
  - by rewrite bool_decide_eq_false_2.
  - destruct (decide (k = key)) as [->|Hk].
    + rewrite (bool_decide_eq_true_2 (key = key)) by done. simpl.
      by rewrite !bool_decide_eq_false_2.
    + rewrite (bool_decide_eq_false_2 (k = key)) by done. simpl.
      by rewrite IH.
Qed.

Lemma getSlot_assignSlot_ne saves saves' slot m data :
  m ≠ slot → assignSlot saves slot data = Some saves' →
  (∀ v, getSlot saves m = Some (Some v) → getSlot saves' m = Some (Some v))
  ∧ (getSlot saves m = Some None →
     getSlot saves' m = Some None ∨ getSlot saves' m = Some (Some JNull)).
Proof.
  intros Hne Ha. destruct saves as [| | | |items|fields]; simpl in Ha; try done.
  - (* array *)
    destruct (Z.leb_spec 0 slot) as [Hs|Hs]; [|injection Ha as <-; by auto].
    case_bool_decide as Hlen; injection Ha as <-; simpl.
    + destruct (Z.leb_spec 0 m) as [Hm|Hm]; [|by auto].
      rewrite list_lookup_insert_ne by lia.
      split; [done|]. intros [= ->]. by left.
    + destruct (Z.leb_spec 0 m) as [Hm|Hm]; [|by auto].
      split.
      * intros v [= Hv]. f_equal.
        rewrite lookup_app_l; [done|]. by eapply lookup_lt_Some.
      * intros [= Hv]. apply lookup_ge_None in Hv.
        rewrite lookup_app_r by done.
        destruct (decide (Z.to_nat m - length items < Z.to_nat slot - length items)%nat)
          as [Hlt|Hge].
        -- right. f_equal. rewrite lookup_app_l by (rewrite length_replicate; lia).
           by rewrite lookup_replicate_2.
        -- left. f_equal. apply lookup_ge_None.
           rewrite length_app, length_replicate. simpl. lia.
  - (* object *)
    injection Ha as <-. simpl.
    assert (pretty slot ≠ pretty m) as Hk by (intros ?%(inj pretty); congruence).
    rewrite lookupField_setField_ne by done. split; [done|]. auto.
Qed.

(** C10.  [saveGame] to a slot leaves every other slot of the persisted
    collection as it was: what [getSaveSlots] shows in a slot [m] other than
    the one saved to is the same value before and after (and a slot that
    showed nothing still shows nothing, or [null] where an array grew). *)
Theorem saveGame_preserves_other_slots
    (now slot : Z) (slotName : option string) (st : Store) (m : Z) :
  m ≠ slot →
  let st' := (saveGame now slot slotName st).1.2 in
  (∀ v, stored st m = Some (Some v) → stored st' m = Some (Some v))
  ∧ (stored st m = Some None →
     stored st' m = Some None ∨ stored st' m = Some (Some JNull)).
Proof.
  intros Hne. unfold stored, saveGame. cbv zeta.
  destruct (assignSlot (getSaveSlots st) slot _) as [saves'|] eqn:Ha; [|by auto].
  destruct (setItemThrows (localStorage st)) eqn:Hw; [by auto|]. simpl.
  unfold getSaveSlots in *. simpl.
  destruct (getItemThrows (localStorage st)) eqn:Hr.
  - simpl. auto.
  - by eapply getSlot_assignSlot_ne.
Qed.

End PersistenceProperties.

Section LoadProperties.
Import Persistence Examples.

(** C8 (as amended).  [loadGame] returns [true] exactly when the slot holds an
    entry; when it returns [false] the store is unchanged; the slot holds
    no entry whenever the blob is missing, unreadable or rejected by
    [JSON.parse]; and when the slot holds an entry, whatever its structure,
    the state becomes a copy of the entry's [gameState] field and the blob is
    unchanged. *)
Theorem loadGame_replaces_state_iff_slot_present (slot : Z) (st : Store) :
  (loadGame slot st).1.1 = slotPresent st slot
  ∧ ((loadGame slot st).1.1 = false → (loadGame slot st).1.2 = st)
  ∧ (getItemThrows (localStorage st) = true ∨ item (localStorage st) = ItemAbsent
     ∨ item (localStorage st) = ItemGarbage → slotPresent st slot = false)
  ∧ (∀ saveData, getSlot (getSaveSlots st) slot = Some (Some saveData) →
     truthy (Some saveData) = true →
     (loadGame slot st).1.2
     = mkStore (spread (getField saveData "gameState")) (localStorage st)).
Proof.
  unfold loadGame, slotPresent. repeat split.
  - destruct (getSlot _ _) as [v|]; [|done]. by destruct (truthy v).
  - destruct (getSlot _ _) as [v|]; [|done]. by destruct (truthy v).
  - unfold getSaveSlots. intros [->|[->| ->]]; [done| |];
      by destruct (getItemThrows _).
  - intros saveData -> Ht. by rewrite Ht.
Qed.

Lemma loadGame_replaces_state_iff_slot_present_witness :
  (loadGame 1 junkStore).1.1 = slotPresent junkStore 1
  ∧ (loadGame 2 junkStore).1.2 = junkStore
  ∧ slotPresent garbageStore 1 = false
  ∧ (loadGame 1 junkStore).1.2 = mkStore (JObj []) (localStorage junkStore).
Proof.
  pose proof (loadGame_replaces_state_iff_slot_present 1 junkStore) as (H1 & _ & _ & H4).
  pose proof (loadGame_replaces_state_iff_slot_present 2 junkStore) as (_ & H2 & _).
  pose proof (loadGame_replaces_state_iff_slot_present 1
                garbageStore) as (_ & _ & H3 & _).
  split; [exact H1|]. split; [apply H2; vm_compute; reflexivity|].
  split; [apply H3; right; right; reflexivity|].
  apply (H4 (JObj [("junk", JNum 7)])); vm_compute; reflexivity.
Defined.

(** C8 fails as stated: slot 1 holds an entry that is not a [SaveData],
    yet [loadGame 1] returns [true] and the state is replaced. *)
Lemma loadGame_accepts_corrupt_entry :
  slotCorrupt junkStore 1 = true
  ∧ (loadGame 1 junkStore).1.1 = true
  ∧ gameState (loadGame 1 junkStore).1.2 ≠ gameState junkStore.
Proof.
  split; [vm_compute; reflexivity|]. split; [vm_compute; reflexivity|].
  vm_compute. discriminate.
Qed.

End LoadProperties.

Section PathfindingProperties.
Import Pathfinding.
Local Open Scope nat_scope.
Context `{!Host}.

Lemma PathNode_chain_ind (P : PathNode → Prop) :
  (∀ p g h f, P (mkPathNode p g h f None)) →
  (∀ p g h f q, P q → P (mkPathNode p g h f (Some q))) →
  ∀ n, P n.
Proof.
  intros Hroot Hstep. fix IH 1. intros [p g h f [q|]].
  - apply Hstep, IH.
  - apply Hroot.
Qed.

Lemma reconstruct_head n : head (reconstruct n) = Some (root n).
Proof.
  induction n as [p g h f|p g h f q IH] using PathNode_chain_ind; simpl; [done|].
  rewrite head_app, IH. done.
Qed.

Lemma reconstruct_last n : last (reconstruct n) = Some (point n).
Proof. destruct n as [p g h f [q|]]; simpl; [apply last_snoc|done]. Qed.

(** *** Smoothing keeps both ends *)

Lemma furthestVisible_bounds polygon path origin current from :
  (S current ≤ furthestVisible polygon path origin current from
   ∧ furthestVisible polygon path origin current from ≤ max (S current) from)%nat.
Proof.
  induction from as [|from IH]; simpl; [lia|].
  case_bool_decide; [|lia].
  destruct (canWalkDirectly _ _ _); lia.
Qed.

Lemma smoothLoop_ends polygon path : ∀ fuel current smoothed,
  (current < length path)%nat → (length path - 1 - current ≤ fuel)%nat →
  smoothed ≠ [] → last smoothed = path !! current →
  ∃ sm, smoothLoop fuel polygon path current smoothed = Returns sm
        ∧ head sm = head smoothed ∧ last sm = last path.
Proof.
  induction fuel as [|fuel IH]; intros current smoothed Hcur Hfuel Hne Hlast.
  - simpl. rewrite bool_decide_eq_false_2 by lia.
    exists smoothed. rewrite Hlast, last_lookup. repeat split. f_equal. lia.
  - simpl. case_bool_decide as Hloop.
    + destruct (lookup_lt_is_Some_2 path current Hcur) as [origin ->].
      pose proof (furthestVisible_bounds polygon path origin current (length path - 1))
        as [Hlo Hhi].
      set (furthest := furthestVisible polygon path origin current (length path - 1)) in *.
      destruct (lookup_lt_is_Some_2 path furthest) as [next Hnext]; [lia|].
      rewrite Hnext.
      destruct (IH furthest (smoothed ++ [next])) as (sm & -> & Hhead & Hend);
        [lia|lia|by destruct smoothed|by rewrite last_snoc|].
      exists sm. repeat split; [|done]. rewrite Hhead.
      destruct smoothed; [done|reflexivity].
    + exists smoothed. rewrite Hlast, last_lookup. repeat split. f_equal. lia.
Qed.

Lemma smoothPath_ends path polygon :
  path ≠ [] →
  ∃ sm, smoothPath path polygon = Returns sm ∧ head sm = head path ∧ last sm = last path.
Proof.
  intros Hne. unfold smoothPath. case_bool_decide; [by exists path|].
  destruct path as [|p0 rest]; [done|].
  destruct (smoothLoop_ends polygon (p0 :: rest) (length (p0 :: rest)) 0 [p0])
    as (sm & -> & Hhead & Hlast); simpl; try lia; try done.
  by exists sm.
Qed.

(** *** Keys *)

Lemma samePoint_refl p : samePoint p p = true.
Proof.
  unfold samePoint, eqb. apply andb_true_iff; split; apply Qeq_bool_iff; reflexivity.
Qed.

Lemma samePoint_sym p q : samePoint p q = samePoint q p.
Proof.
  unfold samePoint, eqb. f_equal; apply eq_true_iff_eq;
    rewrite !Qeq_bool_iff; split; intros ->; reflexivity.
Qed.

Lemma samePoint_trans p q r :
  samePoint p q = true → samePoint q r = true → samePoint p r = true.
Proof.
  unfold samePoint, eqb. rewrite !andb_true_iff, !Qeq_bool_iff.
  intros [-> ->] [-> ->]. split; reflexivity.
Qed.

Lemma existsb_samePoint_false p l :
  existsb (samePoint p) l = false ↔ Forall (λ q, samePoint q p = false) l.
Proof.
  induction l as [|q l IH]; simpl.
  - split; [by constructor|done].
  - rewrite orb_false_iff, IH, Forall_cons, (samePoint_sym p q). done.
Qed.

Lemma uniquePoints_snoc points p :
  uniquePoints points → Forall (λ q, samePoint q p = false) points →
  uniquePoints (points ++ [p]).
Proof.
  intros Huniq Hfresh r. rewrite filter_app, length_app.
  destruct (samePoint p r) eqn:Hpr.
  - rewrite (filter_cons_True _ p) by done. simpl.
    assert (filter (λ q, samePoint q r = true) points = []) as ->; [|simpl; lia].
    induction Hfresh as [|q points Hq Hfresh IH]; [done|].
    rewrite filter_cons_False.
    + apply IH. intros r'. specialize (Huniq r'). rewrite filter_cons in Huniq.
      case_decide; simpl in Huniq; lia.
    + intros Hqr. rewrite (samePoint_trans q r p) in Hq; [done|done|].
      by rewrite samePoint_sym.
  - rewrite (filter_cons_False _ p) by (by rewrite Hpr). simpl.
    specialize (Huniq r). lia.
Qed.

Lemma uniquePoints_head p points q :
  uniquePoints (p :: points) → q ∈ points → samePoint q p = false.
Proof.
  intros Huniq Hq. destruct (samePoint q p) eqn:Hqp; [|done].
  specialize (Huniq p). rewrite filter_cons_True in Huniq by apply samePoint_refl.
  simpl in Huniq.
  assert (q ∈ filter (λ q, samePoint q p = true) points) as Hin
    by (by apply list_elem_of_filter).
  destruct (filter _ points); [by apply not_elem_of_nil in Hin|simpl in Huniq; lia].
Qed.

Lemma uniquePoints_tail p points : uniquePoints (p :: points) → uniquePoints points.
Proof.
  intros Huniq r. specialize (Huniq r). rewrite filter_cons in Huniq.
  case_decide; simpl in Huniq; lia.
Qed.

(** *** The open set *)

Lemma insertByF_perm n l : insertByF n l ≡ₚ n :: l.
Proof.
  induction l as [|m l IH]; simpl; [done|].
  destruct (Qle_bool _ _); [done|]. rewrite IH. apply Permutation_swap.
Qed.

Lemma sortByF_perm l : sortByF l ≡ₚ l.
Proof.
  induction l as [|n l IH]; simpl; [done|].
  unfold sortByF in *. simpl. by rewrite insertByF_perm, IH.
Qed.

Lemma frontier_perm nodes closedSet start l l' :
  l ≡ₚ l' → frontier nodes closedSet start l → frontier nodes closedSet start l'.
Proof.
  intros Hperm [Hall Huniq]. split; [by rewrite <- Hperm|].
  intros p. specialize (Huniq p). by rewrite <- Hperm.
Qed.

Lemma improve_points np g' f' current openSet :
  point <$> improve np g' f' current openSet = point <$> openSet.
Proof.
  induction openSet as [|n rest IH]; [done|]. cbn [improve].
  destruct (samePoint (point n) np).
  - by destruct (ltb g' (g n)).
  - by rewrite !fmap_cons, IH.
Qed.

Lemma improve_frontier nodes closedSet start np g' f' current openSet :
  root current = start →
  frontier nodes closedSet start openSet →
  frontier nodes closedSet start (improve np g' f' current openSet).
Proof.
  intros Hroot [Hall Huniq]. split; [|by rewrite improve_points].
  clear Huniq. induction Hall as [|n rest Hn Hrest IH]; simpl; [by constructor|].
  destruct (samePoint (point n) np).
  - constructor; [|done]. destruct (ltb g' (g n)); [|done].
    destruct Hn as (Hin & Hopen & _). by repeat split.
  - by constructor.
Qed.

Lemma visitNeighbor_frontier polygon actualEnd nodes closedSet start current openSet np :
  np ∈ nodes → root current = start →
  frontier nodes closedSet start openSet →
  frontier nodes closedSet start
    (visitNeighbor polygon actualEnd closedSet current openSet np).
Proof.
  intros Hin Hroot Hfr. unfold visitNeighbor.
  destruct (existsb (samePoint np) closedSet) eqn:Hclosed; [done|].
  destruct (negb _); [done|].
  destruct (existsb _ openSet) eqn:Hexists; [by apply improve_frontier|].
  destruct Hfr as [Hall Huniq]. split.
  - apply Forall_app. split; [done|]. constructor; [|by constructor]. by repeat split.
  - rewrite fmap_app. apply uniquePoints_snoc; [done|].
    apply Forall_fmap, Forall_forall. intros n Hn. simpl.
    destruct (samePoint (point n) np) eqn:Hsame; [|done].
    rewrite <- Hexists. symmetry. apply existsb_exists.
    exists n. split; [by apply list_elem_of_In|done].
Qed.

Lemma visitNeighbors_frontier polygon actualEnd nodes closedSet start current :
  ∀ neighbors openSet,
  neighbors ⊆ nodes → root current = start →
  frontier nodes closedSet start openSet →
  frontier nodes closedSet start
    (fold_left (visitNeighbor polygon actualEnd closedSet current) neighbors openSet).
Proof.
  induction neighbors as [|np rest IH]; intros openSet Hsub Hroot Hfr; simpl; [done|].
  apply IH; [set_solver|done|].
  apply visitNeighbor_frontier; [set_solver|done|done].
Qed.

Lemma frontier_pop nodes closedSet start current rest :
  frontier nodes closedSet start (current :: rest) →
  frontier nodes (point current :: closedSet) start rest.
Proof.
  intros [Hall Huniq]. apply Forall_cons in Hall as [_ Hrest]. split.
  - apply Forall_forall. intros n Hn.
    pose proof (proj1 (Forall_forall _ _) Hrest n Hn) as (Hin & Hopen & Hroot).
    repeat split; [done| |done]. unfold notClosed in *. simpl.
    rewrite Hopen, orb_false_r.
    apply (uniquePoints_head _ (point <$> rest)); [done|].
    by apply list_elem_of_fmap_2.
  - by eapply uniquePoints_tail.
Qed.

Lemma unvisited_pop nodes closedSet p :
  p ∈ nodes → notClosed closedSet p →
  (unvisited nodes (p :: closedSet) < unvisited nodes closedSet)%nat.
Proof.
  intros Hin Hopen. unfold unvisited.
  induction nodes as [|q nodes IH]; [by apply not_elem_of_nil in Hin|].
  assert (∀ l, length (filter (notClosed (p :: closedSet)) l)
               ≤ length (filter (notClosed closedSet) l))%nat as Hle.
  { induction l as [|r l IHl]; [done|]. rewrite !filter_cons.
    repeat case_decide; simpl; try lia.
    exfalso. unfold notClosed in *. simpl in *.
    match goal with Hc : _ || _ = false |- _ => apply orb_false_iff in Hc as [_ Hc] end.
    congruence. }
  rewrite !filter_cons. apply elem_of_cons in Hin as [<-|Hin].
  - rewrite decide_False, decide_True; [|done|].
    + simpl. specialize (Hle nodes). lia.
    + unfold notClosed. simpl. by rewrite samePoint_refl.
  - specialize (IH Hin). repeat case_decide; simpl; try lia.
    exfalso. unfold notClosed in *. simpl in *.
    match goal with Hc : _ || _ = false |- _ => apply orb_false_iff in Hc as [_ Hc] end.
    congruence.
Qed.

Lemma search_returns polygon nodes actualEnd start : ∀ fuel openSet closedSet,
  frontier nodes closedSet start openSet →
  (unvisited nodes closedSet < fuel)%nat →
  ∃ r, search fuel polygon nodes actualEnd openSet closedSet = Returns r
       ∧ ∀ path, r = Some path →
           head path = Some start
           ∧ ∃ p, last path = Some p ∧ ltb (distance p actualEnd) 5 = true.
Proof.
  induction fuel as [|fuel IH]; intros openSet closedSet Hfr Hfuel; [lia|].
  pose proof (frontier_perm _ _ _ _ _ (symmetry (sortByF_perm openSet)) Hfr) as Hsorted.
  simpl. destruct (sortByF openSet) as [|current rest]; [by exists None|].
  pose proof Hsorted as [Hall _]. apply Forall_cons in Hall as [(Hin & Hopen & Hroot) _].
  destruct (ltb (distance (point current) actualEnd) 5) eqn:Hgoal.
  - destruct (smoothPath_ends (reconstruct current) polygon) as (sm & -> & Hhead & Hlast).
    { by destruct current as [? ? ? ? [|]]; simpl; try destruct (reconstruct _). }
    exists (Some sm). split; [done|]. intros path [= <-].
    rewrite Hhead, Hlast, reconstruct_head, reconstruct_last, Hroot. eauto.
  - apply IH.
    + apply visitNeighbors_frontier; [done|done|]. by apply frontier_pop.
    + pose proof (unvisited_pop nodes closedSet (point current) Hin Hopen). lia.
Qed.

(** C1 (as amended).  For a walkable polygon that has points, [findPath]
    returns a non-empty path whose first point is the projected start (the
    start itself when it is inside the polygon); its last point is the
    projected end, or a point at a distance below 5 from the projected end
    where the graph search stopped. *)
Theorem findPath_starts_at_projection_ends_near_projection
    (start end_ : Point) (polygon : Polygon) :
  polygon ≠ [] →
  ∃ actualStart actualEnd path,
    getClosestPointInPolygon start polygon = Returns actualStart
    ∧ getClosestPointInPolygon end_ polygon = Returns actualEnd
    ∧ (isPointInPolygon start polygon = true → actualStart = start)
    ∧ (isPointInPolygon end_ polygon = true → actualEnd = end_)
    ∧ findPath start end_ polygon = Returns path
    ∧ head path = Some actualStart
    ∧ ∃ p, last path = Some p
           ∧ (p = actualEnd ∨ ltb (distance p actualEnd) 5 = true).
Proof.
  intros Hne.
  assert (∀ point, ∃ p, getClosestPointInPolygon point polygon = Returns p
                        ∧ (isPointInPolygon point polygon = true → p = point))
    as Hclosest.
  { intros pt. unfold getClosestPointInPolygon.
    destruct (isPointInPolygon pt polygon); [by eexists|].
    destruct polygon as [|p0 rest]; [done|].
    match goal with |- context [if ?c then _ else _] => destruct c end; by eexists. }
  destruct (Hclosest start) as (actualStart & HS & HSin).
  destruct (Hclosest end_) as (actualEnd & HE & HEin).
  exists actualStart, actualEnd. unfold findPath. rewrite HS, HE.
  destruct (canWalkDirectly actualStart actualEnd polygon).
  { exists [actualStart; actualEnd]. repeat split; try done. exists actualEnd. by auto. }
  set (nodes := generateNavNodes polygon 30 ++ [actualStart; actualEnd]).
  set (startNode := mkPathNode actualStart 0 _ _ None).
  destruct (search_returns polygon nodes actualEnd actualStart (S (length nodes))
              [startNode] []) as (r & -> & Hr).
  - split.
    + constructor; [|by constructor]. repeat split. unfold nodes. set_solver.
    + intros p. simpl. rewrite filter_cons, filter_nil. case_decide; simpl; lia.
  - unfold unvisited. pose proof (length_filter (notClosed []) nodes). lia.
  - destruct r as [path|].
    + destruct (Hr path eq_refl) as (Hhead & p & Hlast & Hnear).
      exists path. repeat split; try done. exists p. by auto.
    + exists [actualStart; actualEnd]. repeat split; try done. exists actualEnd. by auto.
Qed.

End PathfindingProperties.

Section ScriptOrder.
Import Runtime ScriptRunner.
Local Open Scope script_scope.

Context `{!Host}.











End ScriptOrder.

Section ScriptRunningFlagAlone.
Import Runtime ScriptRunner.
Local Open Scope script_scope.
Context `{!Host}.

Lemma throughout_bindRes {A B} (P Q Q' : World → Prop) env (r : Res A) (f : A → M B) :
  throughout P Q' env r →
  (∀ w, Q' w → Q w) →
  (∀ a w, Q' w → throughout P Q env (f a w)) →
  throughout P Q env (bindRes r f).
Proof.
  intros Hr Hq Hf. induction r as [a w|e w|on w k IH|w]; simpl in *; auto.
  destruct Hr as [Hw Hk]. split; [done|]. by apply IH.
Qed.

Lemma throughout_finallyRes {A} (P Q Q' : World → Prop) env (r : Res A) h :
  throughout P Q' env r → (∀ w, Q' w → Q (h w)) →
  throughout P Q env (finallyRes r h).
Proof.
  intros Hr Hq. induction r as [a w|e w|on w k IH|w]; simpl in *; auto.
  destruct Hr as [Hw Hk]. split; [done|]. by apply IH.
Qed.

(** While a script runs, and nothing else writes the flag, the flag keeps
    its value. *)
Lemma executeCommand_keeps_flag env b :
  (∀ on w, isRunningScript (env on w) = isRunningScript w) →
  ∀ command w, isRunningScript w = b →
  throughout (λ w, isRunningScript w = b) (λ w, isRunningScript w = b) env
    (executeCommand command w).
Proof.
  intros Henv. set (P := λ w, isRunningScript w = b).
  assert (∀ e w, P w → throughout P P env (emit e w)) as Hemit.
  { intros e w Hw. unfold emit. by destruct (listenerFails e). }
  assert (∀ on w, P w → throughout P P env (await on w)) as Hawait.
  { intros on w Hw. simpl. split; [done|]. unfold P. by rewrite Henv. }
  assert (∀ f w, P w → throughout P P env (updateGame f w)) as Hupdate by done.
  assert (∀ (m : M unit) (k : M unit) w,
            throughout P P env (m w) → (∀ w', P w' → throughout P P env (k w')) →
            throughout P P env ((m >>> k) w)) as Hseq.
  { intros m k w Hm Hk. unfold bind. eapply throughout_bindRes; eauto. }
  fix IH 1. intros command w Hw. destruct command; cbn [executeCommand];
    repeat first
      [ apply Hemit; assumption | apply Hawait; assumption
      | apply Hupdate; assumption
      | apply Hseq; [|clear w Hw; intros w Hw] ];
    try exact Hw.
  - (* enableHotspot *)
    unfold bind, gets. cbn [bindRes].
    by destruct (GameState.setHotspotEnabled _ _ _ _).
  - (* if *)
    unfold bind. eapply throughout_bindRes with (Q' := P); [|done|].
    + unfold evaluateCondition. done.
    + clear w Hw. intros holds w Hw.
      assert (∀ commands w,
                (∀ c, c ∈ commands → ∀ w, P w → throughout P P env (executeCommand c w)) →
                P w →
                throughout P P env
                  ((fix runScript (commands : list ScriptCommand) : M unit :=
                      match commands with
                      | [] => ret tt
                      | command :: rest => executeCommand command >>> runScript rest
                      end) commands w)) as Hrun.
      { clear. induction commands as [|c cs IHcs]; intros w Hc Hw; [done|].
        unfold bind. eapply throughout_bindRes with (Q' := P); [|done|].
        - apply Hc; [by left|done].
        - intros _ w' Hw'. apply IHcs; [|done]. intros c' Hc'. apply Hc. by right. }
      destruct holds.
      * apply Hrun; [|done]. clear w Hw Hrun. induction then_ as [|c cs IHcs].
        -- intros c Hc. by apply not_elem_of_nil in Hc.
        -- intros c' [->|Hc']%elem_of_cons; [apply IH|by apply IHcs].
      * destruct else_ as [commands|]; [|done].
        apply Hrun; [|done]. clear w Hw Hrun. induction commands as [|c cs IHcs].
        -- intros c Hc. by apply not_elem_of_nil in Hc.
        -- intros c' [->|Hc']%elem_of_cons; [apply IH|by apply IHcs].
  - (* reputation *)
    destruct (lessThan (Finite 0) amount); [by apply Hemit|].
    destruct (lessThan amount (Finite 0)); [by apply Hemit|done].
Qed.

Lemma runScript_keeps_flag env b :
  (∀ on w, isRunningScript (env on w) = isRunningScript w) →
  ∀ commands w, isRunningScript w = b →
  throughout (λ w, isRunningScript w = b) (λ w, isRunningScript w = b) env
    (runScript commands w).
Proof.
  intros Henv. induction commands as [|c cs IH]; intros w Hw; [done|].
  cbn [runScript]. unfold bind.
  eapply throughout_bindRes with (Q' := λ w, isRunningScript w = b); [|done|].
  - by apply executeCommand_keeps_flag.
  - intros _ w' Hw'. by apply IH.
Qed.

(** X12.  A top-level run during which no other run is started or resumed: the
    flag reads [true] at every suspension and [false] once the list has
    drained, whether the run returned or raised. *)
Lemma runScriptWithContext_alone env commands w :
  (∀ on w, isRunningScript (env on w) = isRunningScript w) →
  throughout (λ w, getIsRunningScript w = true) (λ w, getIsRunningScript w = false) env
    (runScriptWithContext commands w).
Proof.
  intros Henv. unfold runScriptWithContext.
  eapply throughout_finallyRes with (Q' := λ w, isRunningScript w = true); [|done].
  by apply runScript_keeps_flag.
Qed.

End ScriptRunningFlagAlone.

Section ScriptRunningFlag.
Import Runtime ScriptRunner Examples.

(** C5 at the failing input.  The talk script is started as a top-level run
    and waits for the dialogue to complete; the dialogue manager then enters
    the start node of the tree, whose enter script is run by a nested
    [runScriptWithContext].  When the nested run ends, the flag reads [false]
    although the talk script is still suspended and its last command has not
    run; the command runs only after the dialogue-complete signal. *)
Theorem nested_run_clears_script_running_flag :
  getIsRunningScript (world talkStarted) = true
  ∧ is_Some (dialogueCompleteResolve talkStarted)
  ∧ getIsRunningScript (world dialogueOpened) = false
  ∧ is_Some (dialogueCompleteResolve dialogueOpened)
  ∧ flags (game (world dialogueOpened)) !! "met_maybelle" = Some (VBool true)
  ∧ flags (game (world dialogueOpened)) !! "talked" = None
  ∧ flags (game (world talkFinished)) !! "talked" = Some (VBool true)
  ∧ pending talkFinished = false.
Proof.
  repeat split; try (vm_compute; reflexivity); vm_compute; eauto.
Qed.

End ScriptRunningFlag.

Section DialogueSelection.
Import Runtime DialogueManager.
Context `{!Host}.

Lemma find_first {A} (P : A → bool) (l : list A) (x : A) :
  List.find P l = Some x →
  ∃ before after, l = before ++ x :: after ∧ P x = true
                  ∧ Forall (λ y, P y = false) before.
Proof.
  induction l as [|y l IH]; simpl; [done|].
  destruct (P y) eqn:Hy.
  - intros [= ->]. exists [], l. by repeat split.
  - intros (before & after & -> & Hx & Hb)%IH.
    exists (y :: before), after. repeat split; [done|]. by constructor.
Qed.

(** C6 (as amended).  [startDialogue] without a node id takes the first tree,
    in registration order, whose character is the one asked for, makes it the
    current tree and enters its start node; when no tree of that character is
    registered it only logs a warning.  Neither priority nor availability
    condition takes part in the choice. *)
Theorem startDialogue_takes_first_registered_tree
    (fuel : nat) (characterId : string) (w : World) :
  match findTree characterId w with
  | Some tree =>
      startDialogue fuel characterId None w
      = enterNode fuel (startNode tree)
          (with_isDialogueActive true (with_currentTree (Some tree) w))
      ∧ ∃ before after,
          (dialogueTrees w).*2 = before ++ tree :: after
          ∧ treeCharacterId tree = characterId
          ∧ Forall (λ t, treeCharacterId t ≠ characterId) before
  | None =>
      startDialogue fuel characterId None w
      = log (ConsoleWarn ("No dialogue tree found for character: " +:+ characterId)) w
      ∧ Forall (λ t, treeCharacterId t ≠ characterId) (dialogueTrees w).*2
  end.
Proof.
  unfold startDialogue. destruct (findTree characterId w) as [tree|] eqn:Hfind.
  - split; [reflexivity|]. unfold findTree in Hfind.
    apply find_first in Hfind as (before & after & Heq & Hc & Hb).
    exists before, after. split; [done|]. split.
    + by apply bool_decide_eq_true in Hc.
    + eapply Forall_impl; [exact Hb|]. intros t Ht. simpl in Ht.
      by apply bool_decide_eq_false in Ht.
  - split; [reflexivity|]. unfold findTree in Hfind.
    apply Forall_forall. intros t Ht%list_elem_of_In Heq.
    apply (find_none _ _ Hfind) in Ht. simpl in Ht.
    by apply bool_decide_eq_false in Ht.
Qed.

End DialogueSelection.

Section DialogueSelectionExample.
Import Runtime DialogueManager DialogueLoader Examples.

(** C6 fails as stated: with two trees of one character loaded from a file,
    the second of higher priority and without condition, [startDialogue] makes
    the first, lower-priority tree current, while the choice by descending
    priority ([findDialogueForCharacter]) is the second. *)
Lemma startDialogue_ignores_priority :
  (priorityOf lowTree < priorityOf highTree)%Z
  ∧ conditionOf highTree = None
  ∧ (findDialogueForCharacter "maybelle" loaded.1 (game loaded.2)).1 = Some highTree
  ∧ ∃ w, startDialogue 8 "maybelle" None loaded.2 = Ret tt w
         ∧ dialogueEvents w
           = [NodeEnter (NodeOf (convertNode (endNode "start" "Nice weather.")))
                (Some (convertToEngineFormat lowTree))].
Proof.
  split; [vm_compute; reflexivity|]. split; [reflexivity|].
  split; [vm_compute; reflexivity|].
  eexists. split; vm_compute; reflexivity.
Qed.

End DialogueSelectionExample.

Section RegistrationOrder.
Import Runtime DialogueManager DialogueLoader.

Lemma mapSet_fresh {A} key (v : A) entries :
  key ∉ entries.*1 → mapSet key v entries = entries ++ [(key, v)].
Proof.
  induction entries as [|[k x] entries IH]; simpl; [done|].
  intros Hfresh. apply not_elem_of_cons in Hfresh as [Hne Hfresh].
  rewrite bool_decide_eq_false_2 by done. by rewrite IH.
Qed.

Lemma loadDialogueFile_trees ds : ∀ r w,
  NoDup (defId <$> ds) →
  (∀ d, d ∈ ds → defId d ∉ (dialogueTrees w).*1) →
  dialogueTrees
    (foldl
       (λ (s : Registry * World) dialogue,
          (mkRegistry (dialogueFiles s.1)
             (mapSet (defId dialogue) dialogue (dialogueTreeDefinitions s.1)),
           registerDialogueTree (convertToEngineFormat dialogue) s.2))
       (r, w) ds).2
  = dialogueTrees w ++ ((λ d, (defId d, convertToEngineFormat d)) <$> ds).
Proof.
  induction ds as [|d ds IH]; intros r w Hnodup Hfresh; simpl.
  - by rewrite app_nil_r.
  - apply NoDup_cons in Hnodup as [Hd Hnodup].
    rewrite IH; [| done |].
    + unfold registerDialogueTree. simpl.
      rewrite mapSet_fresh by (apply Hfresh; by left).
      by rewrite <- app_assoc.
    + intros d' Hd'. unfold registerDialogueTree. simpl.
      rewrite mapSet_fresh by (apply Hfresh; by left).
      rewrite fmap_app. simpl. intros [Hin|Hin]%elem_of_app.
      * by apply (Hfresh d'); [right|].
      * apply list_elem_of_singleton in Hin.
        apply Hd. rewrite <- Hin. by apply list_elem_of_fmap_2.
Qed.

(** X18.  Trees are registered in the order of the file: after loading a file
    whose tree ids are distinct into an engine without trees, the tree that
    [startDialogue] takes for a character is the first dialogue of the file
    that belongs to the character, whatever the metadata of the dialogues. *)
Lemma findTree_after_loadDialogueFile file characterId :
  NoDup (defId <$> dialogues file) →
  findTree characterId (loadDialogueFile file (emptyRegistry, initialWorld)).2
  = convertToEngineFormat
      <$> List.find (λ d, bool_decide (defCharacterId d = characterId)) (dialogues file).
Proof.
  intros Hnodup. unfold findTree, loadDialogueFile. cbn [snd fst dialogueTrees with_console].
  rewrite loadDialogueFile_trees; [|done|by intros; apply not_elem_of_nil].
  simpl. induction (dialogues file) as [|d ds IH]; [done|]. simpl.
  apply NoDup_cons in Hnodup as [_ Hnodup].
  destruct (bool_decide (defCharacterId d = characterId)); [done|]. by apply IH.
Qed.

End RegistrationOrder.

Section PrioritySelection.
Import DialogueLoader.
Context `{!Host}.

Lemma insertByPriority_perm d l : insertByPriority d l ≡ₚ d :: l.
Proof.
  induction l as [|m l IH]; simpl; [done|].
  destruct (_ <=? _)%Z; [done|]. rewrite IH. apply Permutation_swap.
Qed.

Lemma sortByPriority_perm l : sortByPriority l ≡ₚ l.
Proof.
  induction l as [|d l IH]; [done|].
  unfold sortByPriority in *. simpl. by rewrite insertByPriority_perm, IH.
Qed.

Lemma insertByPriority_sorted d l :
  StronglySorted (λ a b, priorityOf b ≤ priorityOf a)%Z l →
  StronglySorted (λ a b, priorityOf b ≤ priorityOf a)%Z (insertByPriority d l).
Proof.
  induction 1 as [|m l Hl IH Hm]; simpl; [by repeat constructor|].
  destruct (Z.leb_spec (priorityOf m - priorityOf d) 0) as [Hle|Hgt].
  - constructor; [by constructor|]. constructor; [lia|].
    eapply Forall_impl; [exact Hm|]. simpl. lia.
  - constructor; [done|]. rewrite insertByPriority_perm. constructor; [lia|done].
Qed.

Lemma sortByPriority_sorted l :
  StronglySorted (λ a b, priorityOf b ≤ priorityOf a)%Z (sortByPriority l).
Proof.
  induction l as [|d l IH]; [constructor|]. by apply insertByPriority_sorted.
Qed.

Lemma firstAvailable_find sorted g :
  (firstAvailable sorted g).1 = List.find (λ d, available d g) sorted.
Proof.
  induction sorted as [|d l IH]; [done|]. simpl. unfold available.
  destruct (conditionOf d) as [c|]; [|done].
  destruct (GameState.evaluateCondition c g).1; [done|]. simpl. exact IH.
Qed.

(** X20.  The choice by priority is what [findDialogueForCharacter] computes over
    the file of a character: a dialogue that is available and of the highest
    priority among the available ones or, when none is available, a dialogue
    of the highest priority. *)
Lemma findDialogueForCharacter_by_priority characterId r g file :
  entry characterId (dialogueFiles r) = Some file →
  match (findDialogueForCharacter characterId r g).1 with
  | None => dialogues file = []
  | Some d =>
      d ∈ dialogues file
      ∧ ((available d g = true
          ∧ ∀ e, e ∈ dialogues file → available e g = true →
                 (priorityOf e ≤ priorityOf d)%Z)
         ∨ ((∀ e, e ∈ dialogues file → available e g = false)
            ∧ ∀ e, e ∈ dialogues file → (priorityOf e ≤ priorityOf d)%Z))
  end.
Proof.
  intros Hfile. unfold findDialogueForCharacter. rewrite Hfile.
  pose proof (sortByPriority_perm (dialogues file)) as Hperm.
  pose proof (sortByPriority_sorted (dialogues file)) as Hsorted.
  pose proof (firstAvailable_find (sortByPriority (dialogues file)) g) as Hfind.
  destruct (firstAvailable (sortByPriority (dialogues file)) g) as [[d|] out];
    simpl in *.
  - symmetry in Hfind.
    apply find_first in Hfind as (before & after & Heq & Hd & Hbefore).
    split; [rewrite <- Hperm, Heq; set_solver|]. left. split; [done|].
    intros e He Hav. rewrite <- Hperm, Heq in He.
    apply elem_of_app in He as [He|He].
    + rewrite Forall_forall in Hbefore. rewrite (Hbefore e He) in Hav. done.
    + apply elem_of_cons in He as [->|He]; [lia|].
      rewrite Heq in Hsorted. apply StronglySorted_app_1_r in Hsorted.
      apply StronglySorted_inv in Hsorted as [_ Hafter].
      rewrite Forall_forall in Hafter. by apply Hafter.
  - symmetry in Hfind.
    destruct (sortByPriority (dialogues file)) as [|d l] eqn:Hs; simpl.
    + by apply Permutation_nil in Hperm.
    + split; [rewrite <- Hperm; by left|]. right. split.
      * intros e He. rewrite <- Hperm in He.
        apply (find_none _ _ Hfind). by apply list_elem_of_In.
      * intros e He. rewrite <- Hperm in He.
        apply elem_of_cons in He as [->|He]; [lia|].
        apply StronglySorted_inv in Hsorted as [_ Hl].
        rewrite Forall_forall in Hl. by apply Hl.
Qed.

End PrioritySelection.

Section ValidationProperties.
Import DialogueLoader.

Lemma resolves_passesForNode dialogue id :
  resolves (defNodes dialogue) id = passesForNode dialogue id.
Proof.
  unfold resolves, passesForNode, inNodeMap, property.
  destruct (entry id (defNodes dialogue)) as [node|].
  - by rewrite bool_decide_eq_true_2 by by eexists.
  - rewrite (bool_decide_eq_false_2 (is_Some None)) by by intros [? [=]].
    simpl. by destruct (bool_decide (id ∈ ObjectPrototype)).
Qed.





End ValidationProperties.

Section ActionQueue.
Import GameScene.
Context `{!Host}.

Lemma processQueue_overwrites chain st queue current :
  chain ≠ [] →
  processQueue chain (with_scene (with_queue queue current (scene st)) st)
  = processQueue chain st.
Proof. destruct chain as [|a rest]; [done|]. intros _. by destruct st as [[] ? ? ?]. Qed.


Lemma getClosestPointInPolygon_returns point polygon :
  polygon ≠ [] → ∃ p, Pathfinding.getClosestPointInPolygon point polygon = Pathfinding.Returns p.
Proof.
  intros Hne. unfold Pathfinding.getClosestPointInPolygon.
  destruct (Pathfinding.isPointInPolygon point polygon); [by eexists|].
  destruct polygon as [|p0 rest]; [done|].
  match goal with |- context [if ?c then _ else _] => destruct c end; by eexists.
Qed.





Lemma hotspotAmong_elem room point g candidates h out :
  hotspotAmong room point g candidates = Some (Some h, out) → h ∈ candidates.
Proof.
  revert out. induction candidates as [|c cs IH]; intros out; simpl; [done|].
  destruct (GameState.isHotspotEnabled _ _ _) as [[]|]; [| |done].
  - destruct (conditionFails _ _) as [[] o]; simpl.
    + destruct (hotspotAmong room point g cs) as [[r o']|] eqn:Hr; [|done]. simpl.
      intros [= -> _]. right. by eapply IH.
    + destruct (Pathfinding.isPointInPolygon _ _).
      * intros [= -> _]. by left.
      * destruct (hotspotAmong room point g cs) as [[r o']|] eqn:Hr; [|done]. simpl.
        intros [= -> _]. right. by eapply IH.
  - intros ?%IH. by right.
Qed.

Lemma exitAmong_elem point g candidates x out :
  exitAmong point g candidates = (Some x, out) → x ∈ candidates.
Proof.
  revert out. induction candidates as [|c cs IH]; intros out; simpl; [done|].
  destruct (conditionFails _ _) as [[] o]; simpl.
  - destruct (exitAmong point g cs) as [r o'] eqn:Hr. simpl.
    intros [= -> _]. right. by eapply IH.
  - destruct (Pathfinding.isPointInPolygon _ _).
    + intros [= -> _]. by left.
    + destruct (exitAmong point g cs) as [r o'] eqn:Hr. simpl.
      intros [= -> _]. right. by eapply IH.
Qed.



End ActionQueue.

(** ** The model on small inputs *)

Section ModelExamples.
Import Examples.

Example point_inside_square : Pathfinding.isPointInPolygon (pt 5 5) square = true.
Proof. reflexivity. Qed.

Example point_far_outside_square : Pathfinding.isPointInPolygon (pt 50 5) square = false.
Proof. reflexivity. Qed.

(** The boundary classification of the ray casting: the lower left corner
    counts as inside, the other three corners as outside. *)
Example corners_of_square :
  (λ p, Pathfinding.isPointInPolygon p square) <$> [pt 0 0; pt 10 0; pt 10 10; pt 0 10]
  = [true; false; false; false].
Proof. reflexivity. Qed.

Example findPath_same_point :
  Pathfinding.findPath (pt 5 5) (pt 5 5) square = Pathfinding.Returns [pt 5 5; pt 5 5].
Proof. vm_compute. reflexivity. Qed.

Example findPath_clear_line :
  Pathfinding.findPath (pt 2 2) (pt 8 7) square = Pathfinding.Returns [pt 2 2; pt 8 7].
Proof. vm_compute. reflexivity. Qed.

Example findPath_empty_area :
  Pathfinding.findPath (pt 2 2) (pt 8 7) [] = Pathfinding.Raises.
Proof. reflexivity. Qed.

Example trim_both_ends : GameState.trim "  hasItem(x)  " = "hasItem(x)".
Proof. reflexivity. Qed.

(** A no-break space (U+00A0) and a line separator (U+2028) are trimmed. *)
Example trim_unicode_spaces :
  GameState.trim
    (String (ascii_of_N 194) (String (ascii_of_N 160)
       ("x" +:+ String (ascii_of_N 226) (String (ascii_of_N 128)
                   (String (ascii_of_N 168) EmptyString)))))
  = "x".
Proof. reflexivity. Qed.

Example addItem_twice :
  inventory (GameState.addItem "lantern"
               (GameState.addItem "lantern" GameState.createInitialState))
  = ["lantern"].
Proof. vm_compute. reflexivity. Qed.

Example incrementFlag_absent :
  flags (GameState.incrementFlag "visits" 3 GameState.createInitialState) !! "visits"
  = Some (VNum 3).
Proof. vm_compute. reflexivity. Qed.

Example setCurrentRoom_visits :
  visitedRooms (GameState.setCurrentRoom "saloon" GameState.createInitialState)
  = ["saloon"].
Proof. vm_compute. reflexivity. Qed.

(** A use script with a thought, a flag and a conditional: once every
    acknowledgement is given the flag is set, the puzzle is solved and the
    script-running flag reads [false] again. *)
Example use_script_end_to_end :
  let outcome :=
    Runtime.complete (λ _ w, w)
      (ScriptRunner.runScriptWithContext
         [Thought "x"; SetFlag "f" (VBool true); If "true" [PuzzleSolved "p"] None]
         Runtime.initialWorld) in
  outcome.1 = inl tt
  ∧ flags (Runtime.game outcome.2) !! "f" = Some (VBool true)
  ∧ solvedPuzzles (Runtime.game outcome.2) = ["p"]
  ∧ Runtime.isRunningScript outcome.2 = false
  ∧ Runtime.waits (λ _ w, w)
      (ScriptRunner.runScriptWithContext
         [Thought "x"; SetFlag "f" (VBool true); If "true" [PuzzleSolved "p"] None]
         Runtime.initialWorld)
    = [Runtime.WaitDialogueDismiss; Runtime.WaitSleep 1000].
Proof. vm_compute. repeat split; reflexivity. Qed.

(** What [saveGame] writes is a [SaveData], and loading it back restores the
    state that was saved. *)
Example save_then_load :
  Persistence.isSaveData
    (default Persistence.JNull (default None (Persistence.stored savedStore 1))) = true
  ∧ Persistence.loadGame 1
      (Persistence.mkStore (Persistence.JObj []) (Persistence.localStorage savedStore))
    = (true, savedStore, []).
Proof. split; vm_compute; reflexivity. Qed.

End ModelExamples.

Section Witnesses.
Import Examples.

Lemma evaluateCondition_total_witness :
  GameState.evaluateCondition "" GameState.createInitialState = (true, [])
  ∧ GameState.evaluateCondition "   " GameState.createInitialState = (true, [])
  ∧ GameState.evaluateCondition "hasItem(" GameState.createInitialState
    = (false, [ConsoleError "Failed to evaluate condition: hasItem("])
  ∧ GameState.evaluateCondition "reputation > 10" GameState.createInitialState
    = (false, []).
Proof.
  pose proof (evaluateCondition_total "" GameState.createInitialState) as (H1 & _).
  pose proof (evaluateCondition_total "   " GameState.createInitialState) as (_ & H2 & _).
  pose proof (evaluateCondition_total "hasItem(" GameState.createInitialState)
    as (_ & _ & H3 & _).
  pose proof (evaluateCondition_total "reputation > 10" GameState.createInitialState)
    as (_ & _ & _ & H4).
  split; [exact (H1 eq_refl)|]. split.
  - apply H2. repeat (apply GameState.Blank_1; [reflexivity|]).
    apply GameState.Blank_empty.
  - split.
    + apply H3; [vm_compute; discriminate|reflexivity].
    + apply (H4 ltac:(vm_compute; discriminate) false). reflexivity.
Defined.

Lemma findPath_starts_at_projection_ends_near_projection_witness :
  ∃ actualStart actualEnd path,
    Pathfinding.getClosestPointInPolygon (pt 20 90) wideArea
    = Pathfinding.Returns actualStart
    ∧ Pathfinding.getClosestPointInPolygon (pt 80 90) wideArea
      = Pathfinding.Returns actualEnd
    ∧ (Pathfinding.isPointInPolygon (pt 20 90) wideArea = true → actualStart = pt 20 90)
    ∧ (Pathfinding.isPointInPolygon (pt 80 90) wideArea = true → actualEnd = pt 80 90)
    ∧ Pathfinding.findPath (pt 20 90) (pt 80 90) wideArea = Pathfinding.Returns path
    ∧ head path = Some actualStart
    ∧ ∃ p, last path = Some p
           ∧ (p = actualEnd
              ∨ Pathfinding.ltb (Pathfinding.distance p actualEnd) 5 = true).
Proof.
  apply (findPath_starts_at_projection_ends_near_projection (pt 20 90) (pt 80 90) wideArea).
  discriminate.
Defined.

(** C1 fails as stated: both points are inside the area, less than 5 apart
    and on either side of the slot, so that the straight line leaves the
    area; the search stops at its first node and the path is the start
    alone, which is not the projected end. *)
Lemma findPath_can_end_at_start :
  Pathfinding.isPointInPolygon (pt 3 5) uArea = true
  ∧ Pathfinding.getClosestPointInPolygon (pt 7 5) uArea = Pathfinding.Returns (pt 7 5)
  ∧ Pathfinding.findPath (pt 3 5) (pt 7 5) uArea = Pathfinding.Returns [pt 3 5]
  ∧ Pathfinding.samePoint (pt 3 5) (pt 7 5) = false
  ∧ last [pt 3 5] ≠ Some (pt 7 5).
Proof.
  split; [vm_compute; reflexivity|]. split; [vm_compute; reflexivity|].
  split; [vm_compute; reflexivity|]. split; [vm_compute; reflexivity|].
  discriminate.
Qed.

(** In the larger area the search finds a way around the slot. *)
Example findPath_goes_around :
  Pathfinding.findPath (pt 20 90) (pt 80 90) wideArea
  = Pathfinding.Returns [pt 20 90; pt 30 30; pt 60 0; pt 80 90].
Proof. vm_compute. reflexivity. Qed.




Lemma saveGame_preserves_other_slots_witness :
  (1 ≠ 2)%Z
  ∧ Persistence.isSaveData
      (default Persistence.JNull (default None (Persistence.stored savedStore 1))) = true
  ∧ (∀ v, Persistence.stored savedStore 1 = Some (Some v) →
          Persistence.stored (Persistence.saveGame 1700000000500 2 None savedStore).1.2 1
          = Some (Some v)).
Proof.
  assert (1 ≠ 2)%Z as Hne by discriminate.
  split; [exact Hne|]. split; [vm_compute; reflexivity|].
  exact (proj1 (saveGame_preserves_other_slots 1700000000500 2 None savedStore 1 Hne)).
Defined.


(** The click on the ground while the player walks to the door, with the use
    of the door queued: the walk to the clicked point is being processed and
    nothing is queued behind it. *)
Example click_installs_its_own_chain :
  let st := GameScene.handleClick (pt 8 5) walkingToDoor in
  GameScene.currentAction (GameScene.scene st)
  = Some (GameScene.mkQueuedAction GameScene.ActWalk (Some (pt 8 5)) None None None None)
  ∧ GameScene.actionQueue (GameScene.scene st) = []
  ∧ GameScene.isWalking (GameScene.scene st) = true
  ∧ last (GameScene.playerPath (GameScene.scene st)) = Some (pt 8 5)
  ∧ GameScene.effects st = [].
Proof. vm_compute. repeat split; reflexivity. Qed.

(** After the click on the ground the use of the door is gone: walking on and
    letting every script finish starts no script at all. *)
Example old_interaction_never_fires :
  GameScene.effects
    (GameScene.play [GameScene.WalkArrives; GameScene.ScriptFinished]
       (GameScene.handleClick (pt 8 5) walkingToDoor))
  = [GameScene.SignalWalkComplete "player"].
Proof. vm_compute. reflexivity. Qed.

(** Without the click the queued use fires when the walk arrives. *)
Example queued_interaction_fires_without_click :
  GameScene.effects (GameScene.play [GameScene.WalkArrives] walkingToDoor)
  = [GameScene.SignalWalkComplete "player";
     GameScene.RunScript [SetFlag "door_open" (VBool true)] true].
Proof. vm_compute. reflexivity. Qed.

(** The same cellar under the id [constructor], without a room state:
    [getRoomState] returns the inherited member, [isHotspotEnabled] raises
    inside [handleClick], and the exception leaves the handler before the
    queue is touched. *)
Example click_where_isHotspotEnabled_raises :
  let room := GameScene.mkRoomDefinition "constructor" "Cellar" uArea [] [door] None in
  let st :=
    GameScene.with_scene
      (GameScene.with_room (Some room) (GameScene.scene walkingToDoor)) walkingToDoor in
  GameState.getRoomState "constructor" (GameScene.game st) = Inherited "constructor"
  ∧ GameScene.getHotspotAt (pt 8 5) st = None
  ∧ GameScene.handleClick (pt 8 5) st = GameScene.effect GameScene.Uncaught st.
Proof. vm_compute. repeat split; reflexivity. Qed.

End Witnesses.

(** * Part III: further properties of the engine

    Properties of the functions around the ones above: the laws of the
    store, the save slots, the geometry of the paths and of the walk, the
    slots of the pending promises, the registries of the dialogues and the
    way from a click to the script it starts. *)

(** ** The world state store *)

Section StoreLaws.
Import GameState.

Lemma includes_true l x : includes l x = true ↔ x ∈ l.
Proof. unfold includes. apply bool_decide_eq_true. Qed.

Lemma includes_false l x : includes l x = false ↔ x ∉ l.
Proof. unfold includes. apply bool_decide_eq_false. Qed.

Lemma includes_pushUnique l x y :
  includes (pushUnique l x) y = bool_decide (y = x) || includes l y.
Proof.
  apply eq_true_iff_eq. rewrite orb_true_iff, !includes_true, bool_decide_eq_true.
  unfold pushUnique. destruct (includes l x) eqn:Hx.
  - apply includes_true in Hx. split; [by right|]. intros [->|?]; done.
  - rewrite elem_of_app, list_elem_of_singleton. tauto.
Qed.

Lemma includes_filter_ne l x y :
  includes (filter (λ id, id ≠ x) l) y = negb (bool_decide (y = x)) && includes l y.
Proof.
  apply eq_true_iff_eq.
  rewrite andb_true_iff, negb_true_iff, !includes_true, bool_decide_eq_false,
    list_elem_of_filter. tauto.
Qed.

Lemma NoDup_pushUnique l x : NoDup l → NoDup (pushUnique l x).
Proof.
  intros Hl. unfold pushUnique. destruct (includes l x) eqn:Hx; [done|].
  apply includes_false in Hx. apply NoDup_app. split; [done|]. split.
  - intros y Hy ->%list_elem_of_singleton. done.
  - apply NoDup_singleton.
Qed.

Lemma filter_ne_absent (l : list string) x : x ∉ l → filter (λ id, id ≠ x) l = l.
Proof.
  induction l as [|y l IH]; [done|]. intros [Hne Hl]%not_elem_of_cons.
  rewrite filter_cons_True by done. by rewrite IH.
Qed.

(** X1.  The inventory is a set of item ids.  After [addItem] an item is held
    exactly when it is the item added or was held before; after [removeItem]
    exactly when it is another item that was held.  Both keep an inventory
    without duplicates free of duplicates, adding an item twice is adding it
    once, and removing an item that has just been added to an inventory that
    did not hold it gives the inventory back. *)
Theorem inventory_is_a_set (itemId other : string) (g : GameStateT) :
  hasItem other (addItem itemId g) = bool_decide (other = itemId) || hasItem other g
  ∧ hasItem other (removeItem itemId g)
    = negb (bool_decide (other = itemId)) && hasItem other g
  ∧ (NoDup (inventory g) →
     NoDup (inventory (addItem itemId g)) ∧ NoDup (inventory (removeItem itemId g)))
  ∧ addItem itemId (addItem itemId g) = addItem itemId g
  ∧ (hasItem itemId g = false →
     inventory (removeItem itemId (addItem itemId g)) = inventory g).
Proof.
  unfold hasItem, addItem, removeItem. simpl. repeat split.
  - apply includes_pushUnique.
  - apply includes_filter_ne.
  - by apply NoDup_pushUnique.
  - by apply NoDup_filter.
  - unfold with_inventory. simpl. f_equal.
    unfold pushUnique at 1. rewrite includes_pushUnique.
    by rewrite (bool_decide_eq_true_2 (itemId = itemId)).
  - intros Hx. unfold pushUnique. rewrite Hx. apply includes_false in Hx.
    rewrite filter_app, filter_ne_absent by done.
    rewrite filter_cons_False by (intros H; by apply H). by rewrite filter_nil, app_nil_r.
Qed.

(** X2.  [setCurrentRoom] makes the room current and visited;
    [markPuzzleSolved], [recordChoiceSelection] and [recordDialogueVisit] add
    their id to the solved puzzles, the selected choices and the dialogue
    history.  In each case the ids recorded afterwards are the new id and the
    ids recorded before, and a list without duplicates stays without
    duplicates. *)
Theorem history_fields_are_sets (id other : string) (g : GameStateT) :
  currentRoom (setCurrentRoom id g) = id
  ∧ hasVisitedRoom other (setCurrentRoom id g)
    = bool_decide (other = id) || hasVisitedRoom other g
  ∧ hasSolvedPuzzle other (markPuzzleSolved id g)
    = bool_decide (other = id) || hasSolvedPuzzle other g
  ∧ hasSelectedChoice other (recordChoiceSelection id g)
    = bool_decide (other = id) || hasSelectedChoice other g
  ∧ includes (dialogueHistory (recordDialogueVisit id g)) other
    = bool_decide (other = id) || includes (dialogueHistory g) other
  ∧ (NoDup (visitedRooms g) → NoDup (visitedRooms (setCurrentRoom id g)))
  ∧ (NoDup (solvedPuzzles g) → NoDup (solvedPuzzles (markPuzzleSolved id g)))
  ∧ (NoDup (selectedChoices g) → NoDup (selectedChoices (recordChoiceSelection id g)))
  ∧ (NoDup (dialogueHistory g) → NoDup (dialogueHistory (recordDialogueVisit id g))).
Proof.
  unfold hasVisitedRoom, hasSolvedPuzzle, hasSelectedChoice, setCurrentRoom,
    markPuzzleSolved, recordChoiceSelection, recordDialogueVisit. simpl.
  repeat split; try apply includes_pushUnique; by apply NoDup_pushUnique.
Qed.

Lemma property_own {A} (own : option A) key a :
  own = Some a → property own key = Value a.
Proof. by intros ->. Qed.

Lemma property_undefined {A} key :
  key ∉ ObjectPrototype → property (@None A) key = Undefined.
Proof. intros Hkey. unfold property. by rewrite bool_decide_eq_false_2. Qed.

Lemma property_inherited {A} key :
  key ∈ ObjectPrototype → property (@None A) key = Inherited key.
Proof. intros Hkey. unfold property. by rewrite bool_decide_eq_true_2. Qed.

(** X3.  [getFlag] reads what was last written to a flag, and what every
    object inherits for a flag that was never written: the value of the flag
    when it has one; for a flag without a value the default of the call, or
    the member of [Object.prototype] when the flag has the name of one
    ([constructor], [toString], ...).  For a flag other than [__proto__],
    [getFlag] after [setFlag] is the value set; after [incrementFlag] of a
    numeric flag it is the old number plus the amount, and the amount alone
    when the flag was missing, a boolean or a string; two increments are one
    increment by the sum; and a write to the flag leaves every other flag as
    it was. *)
Theorem flags_hold_the_last_write
    (flag other : string) (value : FlagValue) (amount more : Z)
    (defaultValue : option FlagValue) (g : GameStateT) :
  (∀ v, flags g !! flag = Some v → getFlag flag defaultValue g = Value v)
  ∧ (flags g !! flag = None → flag ∉ ObjectPrototype →
     getFlag flag defaultValue g = from_option Value Undefined defaultValue)
  ∧ (flags g !! flag = None → flag ∈ ObjectPrototype →
     getFlag flag defaultValue g = Inherited flag)
  ∧ (flag ≠ "__proto__" →
     getFlag flag defaultValue (setFlag flag value g) = Value value
     ∧ (∀ n, flags g !! flag = Some (VNum n) →
        getFlag flag defaultValue (incrementFlag flag amount g)
        = Value (VNum (n + amount)))
     ∧ ((∀ n, flags g !! flag ≠ Some (VNum n)) →
        getFlag flag defaultValue (incrementFlag flag amount g) = Value (VNum amount))
     ∧ incrementFlag flag more (incrementFlag flag amount g)
       = incrementFlag flag (amount + more) g
     ∧ (other ≠ flag →
        getFlag other defaultValue (setFlag flag value g) = getFlag other defaultValue g
        ∧ getFlag other defaultValue (incrementFlag flag amount g)
          = getFlag other defaultValue g)).
Proof.
  split; [|split; [|split; [|intros _; split; [|split; [|split; [|split]]]]]].
  - intros v Hv. unfold getFlag. by rewrite Hv.
  - intros Hf Hp. unfold getFlag. by rewrite Hf, property_undefined.
  - intros Hf Hp. unfold getFlag. by rewrite Hf, property_inherited.
  - unfold getFlag, setFlag. simpl. by rewrite lookup_insert_eq.
  - intros n Hn. unfold getFlag, incrementFlag. rewrite Hn. simpl.
    by rewrite lookup_insert_eq.
  - intros Hn. unfold getFlag, incrementFlag.
    destruct (property (flags g !! flag) flag) as [[b|n|t]| |] eqn:Hp;
      simpl; rewrite ?lookup_insert_eq; try done.
    destruct (flags g !! flag) as [v|] eqn:Hf.
    + simpl in Hp. injection Hp as ->. by destruct (Hn n).
    + unfold property in Hp. by destruct (bool_decide _).
  - unfold incrementFlag.
    destruct (property (flags g !! flag) flag) as [[b|n|t]| |] eqn:Hp;
      simpl; rewrite lookup_insert_eq; unfold with_flags; simpl;
      rewrite insert_insert_eq, ?Z.add_assoc; reflexivity.
  - intros Hne. split.
    + unfold getFlag, setFlag. simpl. by rewrite lookup_insert_ne.
    + unfold getFlag, incrementFlag.
      destruct (property (flags g !! flag) flag) as [[b|n|t]| |];
        simpl; by rewrite lookup_insert_ne.
Qed.

Lemma getRoomState_readable roomId g :
  roomStates g !! roomId ≠ None ∨ roomId ∉ ObjectPrototype →
  getRoomState roomId g = Value (default emptyRoomState (roomStates g !! roomId)).
Proof.
  unfold getRoomState. destruct (roomStates g !! roomId) as [roomState|]; [done|].
  intros [?|Hp]; [done|]. by rewrite property_undefined.
Qed.

Lemma setHotspotEnabled_readable roomId hotspotId enabled g :
  roomStates g !! roomId ≠ None ∨ roomId ∉ ObjectPrototype →
  let roomState := default emptyRoomState (roomStates g !! roomId) in
  setHotspotEnabled roomId hotspotId enabled g
  = Some (with_roomStates
            (<[roomId :=
                 mkRoomState
                   (if enabled
                    then filter (λ id, id ≠ hotspotId) (disabledHotspots roomState)
                    else pushUnique (disabledHotspots roomState) hotspotId)
                   (removedCharacters roomState) (customFlags roomState)]>
               (roomStates g)) g).
Proof.
  unfold setHotspotEnabled, ensureRoomState.
  destruct (roomStates g !! roomId) as [roomState|]; [done|].
  intros [?|Hp]; [done|]. rewrite property_undefined by done. simpl.
  unfold with_roomStates. simpl. by rewrite insert_insert_eq.
Qed.

Lemma setHotspotEnabled_raises roomId hotspotId enabled g :
  roomStates g !! roomId = None → roomId ∈ ObjectPrototype →
  setHotspotEnabled roomId hotspotId enabled g = None
  ∧ isHotspotEnabled roomId hotspotId g = None
  ∧ getRoomState roomId g = Inherited roomId.
Proof.
  intros Hr Hp. unfold setHotspotEnabled, isHotspotEnabled, getRoomState, ensureRoomState.
  by rewrite Hr, property_inherited.
Qed.

Lemma isHotspotEnabled_set roomId hotspotId enabled g g' :
  setHotspotEnabled roomId hotspotId enabled g = Some g' →
  isHotspotEnabled roomId hotspotId g' = Some enabled.
Proof.
  intros Hset.
  assert (roomStates g !! roomId ≠ None ∨ roomId ∉ ObjectPrototype) as Hreadable.
  { destruct (roomStates g !! roomId) eqn:Hr; [by left|]. right. intros Hp.
    destruct (setHotspotEnabled_raises roomId hotspotId enabled g Hr Hp) as [Hnone _].
    congruence. }
  rewrite setHotspotEnabled_readable in Hset by done. injection Hset as <-.
  unfold isHotspotEnabled, getRoomState. simpl. rewrite lookup_insert_eq. simpl.
  destruct enabled.
  - rewrite includes_filter_ne. by rewrite (bool_decide_eq_true_2 (hotspotId = hotspotId)).
  - rewrite includes_pushUnique. by rewrite (bool_decide_eq_true_2 (hotspotId = hotspotId)).
Qed.

(** X4.  For a room that has a room state, or whose id is not the name of a
    member of [Object.prototype], [setHotspotEnabled] returns and
    [isHotspotEnabled] of the same hotspot then returns the value that was
    set, whatever the state was; every other hotspot, of this room or
    another, reads as before; and the characters removed from the room are
    untouched.  A hotspot of a room without a room state is enabled.  For a
    room without a room state whose id is such a name ([constructor],
    [toString], ...) [getRoomState] returns the inherited member, and both
    [isHotspotEnabled] and [setHotspotEnabled] raise a TypeError. *)
Theorem hotspot_switch_round_trip
    (roomId hotspotId : string) (enabled : bool) (g : GameStateT) :
  (roomStates g !! roomId ≠ None ∨ roomId ∉ ObjectPrototype →
   ∃ g' before after,
     setHotspotEnabled roomId hotspotId enabled g = Some g'
     ∧ isHotspotEnabled roomId hotspotId g' = Some enabled
     ∧ (∀ r h, r ≠ roomId ∨ h ≠ hotspotId →
        isHotspotEnabled r h g' = isHotspotEnabled r h g)
     ∧ getRoomState roomId g = Value before
     ∧ getRoomState roomId g' = Value after
     ∧ removedCharacters after = removedCharacters before)
  ∧ (roomStates g !! roomId = None → roomId ∉ ObjectPrototype →
     isHotspotEnabled roomId hotspotId g = Some true)
  ∧ (roomStates g !! roomId = None → roomId ∈ ObjectPrototype →
     getRoomState roomId g = Inherited roomId
     ∧ isHotspotEnabled roomId hotspotId g = None
     ∧ setHotspotEnabled roomId hotspotId enabled g = None).
Proof.
  split; [|split].
  - intros Hreadable.
    pose proof (setHotspotEnabled_readable roomId hotspotId enabled g Hreadable) as Hset.
    cbv zeta in Hset. eexists _, _, _. split; [exact Hset|].
    split; [by eapply isHotspotEnabled_set|]. split; [|split; [|split]].
    + intros r h Hne. destruct (decide (r = roomId)) as [->|Hr].
      * destruct Hne as [?|Hh]; [done|].
        unfold isHotspotEnabled. rewrite (getRoomState_readable roomId g) by done.
        unfold getRoomState. simpl. rewrite lookup_insert_eq. simpl. f_equal. f_equal.
        destruct enabled.
        -- rewrite includes_filter_ne. by rewrite (bool_decide_eq_false_2 (h = hotspotId)).
        -- rewrite includes_pushUnique. by rewrite (bool_decide_eq_false_2 (h = hotspotId)).
      * unfold isHotspotEnabled, getRoomState. simpl. by rewrite lookup_insert_ne.
    + by apply getRoomState_readable.
    + unfold getRoomState. simpl. by rewrite lookup_insert_eq.
    + done.
  - intros Hr Hp. unfold isHotspotEnabled.
    rewrite getRoomState_readable by (by right). by rewrite Hr.
  - intros Hr Hp.
    destruct (setHotspotEnabled_raises roomId hotspotId enabled g Hr Hp) as (? & ? & ?).
    done.
Qed.

End StoreLaws.

(** ** What a script keeps *)

Section ScriptInvariants.
Import Runtime ScriptRunner.
Local Open Scope script_scope.
Context `{!Host}.
Variable P : World → Prop.
Variable env : Wait → World → World.
Variable allowed : Number → Prop.
Hypothesis Henv : ∀ on w, P w → P (env on w).
Hypothesis Hevents : ∀ v w, P w → P (with_scriptEvents v w).
Hypothesis Hconsole : ∀ v w, P w → P (with_console v w).
Hypothesis Hgame : ∀ w state', scriptWrite (game w) state' → P w → P (with_game state' w).
Hypothesis Hreputation :
  ∀ amount w, allowed amount → P w →
    P (with_game (GameState.adjustReputation amount (game w)) w).

Lemma executeCommand_preserves :
  ∀ command w, Forall allowed (adjustments command) → P w →
    throughout P P env (executeCommand command w).
Proof.
  assert (∀ e w, P w → throughout P P env (emit e w)) as Hemit.
  { intros e w Hw. unfold emit. destruct (listenerFails e); simpl; by apply Hevents. }
  assert (∀ on w, P w → throughout P P env (await on w)) as Hawait.
  { intros on w Hw. simpl. split; [done|]. by apply Henv. }
  assert (∀ f w, scriptWrite (game w) (f (game w)) → P w →
                 throughout P P env (updateGame f w)) as Hupdate.
  { intros f w Hf Hw. simpl. by apply Hgame. }
  assert (∀ (m : M unit) (k : M unit) w,
            throughout P P env (m w) → (∀ w', P w' → throughout P P env (k w')) →
            throughout P P env ((m >>> k) w)) as Hseq.
  { intros m k w Hm Hk. unfold bind. eapply throughout_bindRes; eauto. }
  fix IH 1. intros command w Hallowed Hw. destruct command; cbn [executeCommand];
    repeat first
      [ apply Hemit; assumption | apply Hawait; assumption
      | apply Hupdate; [constructor|assumption]
      | apply Hseq; [|clear w Hw; intros w Hw] ];
    try exact Hw.
  - (* enableHotspot *)
    unfold bind, gets. cbn [bindRes].
    destruct (GameState.setHotspotEnabled _ _ _ _) as [state'|] eqn:Hset; [|done].
    simpl. apply Hgame; [|done]. by econstructor.
  - (* if *)
    cbn [adjustments] in Hallowed. apply Forall_app in Hallowed as [Hthen Helse].
    unfold bind. eapply throughout_bindRes with (Q' := P); [|done|].
    + unfold evaluateCondition. simpl. by apply Hconsole.
    + clear w Hw. intros holds w Hw.
      assert (∀ commands w,
                (∀ c, c ∈ commands → ∀ w, P w → throughout P P env (executeCommand c w)) →
                P w →
                throughout P P env
                  ((fix runScript (commands : list ScriptCommand) : M unit :=
                      match commands with
                      | [] => ret tt
                      | command :: rest => executeCommand command >>> runScript rest
                      end) commands w)) as Hrun.
      { clear -Hseq. induction commands as [|c cs IHcs]; intros w Hc Hw; [done|].
        apply Hseq.
        - apply Hc; [by left|done].
        - intros w' Hw'. apply IHcs; [|done]. intros c' Hc'. apply Hc. by right. }
      destruct holds.
      * apply Hrun; [|done]. clear w Hw Hrun Helse.
        induction then_ as [|c cs IHcs].
        -- intros c Hc. by apply not_elem_of_nil in Hc.
        -- cbn [flat_map] in Hthen. apply Forall_app in Hthen as [Hc Hcs].
           intros c' [->|Hc']%elem_of_cons; [intros w Hw; by apply IH|by apply IHcs].
      * destruct else_ as [commands|]; [|done].
        apply Hrun; [|done]. clear w Hw Hrun Hthen.
        induction commands as [|c cs IHcs].
        -- intros c Hc. by apply not_elem_of_nil in Hc.
        -- cbn [flat_map] in Helse. apply Forall_app in Helse as [Hc Hcs].
           intros c' [->|Hc']%elem_of_cons; [intros w Hw; by apply IH|by apply IHcs].
  - (* reputation *)
    cbn [adjustments] in Hallowed. apply Forall_cons in Hallowed as [Hamount _].
    simpl. by apply Hreputation.
  - (* reputation, the sound *)
    destruct (lessThan (Finite 0) amount); [by apply Hemit|].
    destruct (lessThan amount (Finite 0)); [by apply Hemit|done].
  - (* unknown *)
    simpl. by apply Hconsole.
Qed.

Lemma runScript_preserves :
  ∀ commands w, Forall allowed (flat_map adjustments commands) → P w →
    throughout P P env (runScript commands w).
Proof.
  induction commands as [|c cs IH]; intros w Hallowed Hw; [done|].
  cbn [flat_map] in Hallowed. apply Forall_app in Hallowed as [Hc Hcs].
  cbn [runScript]. unfold bind.
  eapply throughout_bindRes with (Q' := P); [|done|].
  - by apply executeCommand_preserves.
  - intros _ w' Hw'. by apply IH.
Qed.

End ScriptInvariants.

Section ScriptStoreInvariants.
Import Runtime ScriptRunner.
Context `{!Host}.

Lemma setHotspotEnabled_reputation roomId hotspotId enabled g g' :
  GameState.setHotspotEnabled roomId hotspotId enabled g = Some g' →
  reputation g' = reputation g.
Proof.
  unfold GameState.setHotspotEnabled, GameState.ensureRoomState.
  destruct (property (roomStates g !! roomId) roomId); simpl; [|done|];
    by intros [= <-].
Qed.

(** X11.  While a script runs, at every suspension and at its end,
    the reputation is within [-100, 100], provided that it was at the start,
    that what happens while the script is suspended keeps it there, and
    that no [reputation] command of the script, nested [if] branches
    included, has the amount NaN: no other command of the interpreter takes
    it out of the range.  A [reputation] command with the amount NaN stores
    NaN. *)
Theorem runScript_keeps_reputation_in_range
    (env : Wait → World → World) (commands : list ScriptCommand) (w : World) :
  (∀ on w, GameState.reputationInRange (game w) →
           GameState.reputationInRange (game (env on w))) →
  Forall (λ amount, amount ≠ NaN) (flat_map adjustments commands) →
  GameState.reputationInRange (game w) →
  throughout (λ w, GameState.reputationInRange (game w))
             (λ w, GameState.reputationInRange (game w)) env
    (runScript commands w)
  ∧ ∃ w', runScript [Reputation NaN] w = Ret tt w'
          ∧ reputation (game w') = NaN.
Proof.
  intros Henv Hamounts Hw. split.
  - apply (runScript_preserves (λ w, GameState.reputationInRange (game w)) env
             (λ amount, amount ≠ NaN)); try done.
    + intros w' state' Hwrite Hw'. simpl.
      destruct Hwrite as [| | | |hotspotId enabled state' Hset| |]; try exact Hw'.
      * unfold GameState.incrementFlag.
        by destruct (property (flags (game w') !! flag) flag) as [[]| |].
      * unfold GameState.reputationInRange.
        by rewrite (setHotspotEnabled_reputation _ _ _ _ _ Hset).
    + intros amount w' Hamount Hw'. simpl. unfold GameState.adjustReputation.
      by apply setReputation_in_range, addNumbers_in_range.
  - eexists. split; [reflexivity|]. simpl.
    unfold GameState.adjustReputation, GameState.setReputation. simpl.
    by destruct (reputation (game w)).
Qed.

End ScriptStoreInvariants.

(** ** Save slots *)

Section SaveLoadRoundTrip.
Import Persistence.







Lemma lookupField_deleteField_eq key fields :
  lookupField key (deleteField key fields) = None.
Proof.
  induction fields as [|[k x] fields IH]; simpl; [done|].
  case_bool_decide as Hk; [done|]. simpl. by rewrite bool_decide_eq_false_2.
Qed.

Lemma lookupField_deleteField_ne key key' fields :
  key ≠ key' → lookupField key' (deleteField key fields) = lookupField key' fields.
Proof.
  intros Hne. induction fields as [|[k x] fields IH]; simpl; [done|].
  case_bool_decide as Hk.
  - subst k. by rewrite bool_decide_eq_false_2.
  - simpl. by rewrite IH.
Qed.

Lemma String_get_None n s : (String.length s ≤ n)%nat → String.get n s = None.
Proof.
  revert n. induction s as [|c s IH]; intros n Hn; [done|].
  destruct n as [|n]; simpl in *; [lia|]. apply IH. lia.
Qed.

Lemma getSlot_deleteSlot saves saves' slot :
  deleteSlot saves slot = Some saves' →
  (∃ v, getSlot saves' slot = Some v ∧ truthy v = false)
  ∧ ∀ m, m ≠ slot → getSlot saves' m = getSlot saves m.
Proof.
  intros Hd. destruct saves as [|b|q|text|items|fields]; simpl in Hd; try done.
  - injection Hd as <-. split; [by exists None|done].
  - injection Hd as <-. split; [by exists None|done].
  - destruct (Z.leb_spec 0 slot) as [Hs|Hs]; simpl in Hd.
    + case_bool_decide as Hlen; [done|]. injection Hd as <-. split; [|done].
      exists None. simpl. destruct (Z.leb_spec 0 slot); [|done].
      rewrite String_get_None by lia. done.
    + injection Hd as <-. split; [|done]. exists None. simpl.
      destruct (Z.leb_spec 0 slot); [lia|done].
  - destruct (Z.leb_spec 0 slot) as [Hs|Hs]; simpl in Hd.
    + case_bool_decide as Hlen; injection Hd as <-; simpl.
      * split.
        -- exists (Some JNull). destruct (Z.leb_spec 0 slot); [|lia].
           by rewrite list_lookup_insert_eq.
        -- intros m Hm. destruct (Z.leb_spec 0 m); [|done].
           rewrite list_lookup_insert_ne by lia. done.
      * split; [|done]. exists None. destruct (Z.leb_spec 0 slot); [|done].
        split; [|done]. f_equal. apply lookup_ge_None. lia.
    + injection Hd as <-. split; [|done]. exists None. simpl.
      destruct (Z.leb_spec 0 slot); [lia|done].
  - injection Hd as <-. simpl. split.
    + exists None. by rewrite lookupField_deleteField_eq.
    + intros m Hm. rewrite lookupField_deleteField_ne; [done|].
      intros ?%(inj pretty). congruence.
Qed.

(** X7.  After a successful [deleteSave] the slot is absent from the
    stored table, [loadGame] from it returns [false], every other slot holds
    what it held and the live state is untouched. *)
Theorem deleteSave_removes_only_that_slot (slot : Z) (st : Store) :
  (deleteSave slot st).1 = true →
  let st' := (deleteSave slot st).2 in
  slotPresent st' slot = false
  ∧ (loadGame slot st').1.1 = false
  ∧ (∀ m, m ≠ slot → stored st' m = stored st m)
  ∧ gameState st' = gameState st.
Proof.
  unfold deleteSave. cbv zeta. intros Hok.
  destruct (deleteSlot (getSaveSlots st) slot) as [saves'|] eqn:Hd; [|done].
  destruct (setItemThrows (localStorage st)) eqn:Hset; [done|]. simpl.
  set (st' := mkStore _ _).
  assert (getSaveSlots st' = if getItemThrows (localStorage st) then JObj [] else saves')
    as Hsaves by (unfold getSaveSlots; simpl; by destruct (getItemThrows _)).
  assert (getItemThrows (localStorage st) = true → getSaveSlots st = JObj []) as Hthrows
    by (unfold getSaveSlots; by intros ->).
  destruct (getSlot_deleteSlot _ _ _ Hd) as [(v & Hv & Hfalse) Hother].
  assert (slotPresent st' slot = false) as Hgone.
  { unfold slotPresent. rewrite Hsaves.
    destruct (getItemThrows (localStorage st)); [done|]. by rewrite Hv. }
  split; [done|]. split.
  - unfold loadGame, slotPresent in *. cbv zeta.
    destruct (getSlot (getSaveSlots st') slot) as [x|]; [|done]. simpl in Hgone.
    by rewrite Hgone.
  - split; [|done]. intros m Hm. unfold stored. rewrite Hsaves.
    destruct (getItemThrows (localStorage st)) eqn:Hget.
    + by rewrite Hthrows.
    + by apply Hother.
Qed.

End SaveLoadRoundTrip.

(** ** Geometry of the paths *)

Section Projection.
Import Pathfinding.
Local Open Scope Q_scope.

Lemma Qsquare_nonneg (x : Q) : 0 <= x * x.
Proof.
  destruct (Qlt_le_dec x 0) as [Hneg|Hpos].
  - assert (x * x == (- x) * (- x)) as -> by ring. apply Qmult_le_0_compat; lra.
  - apply Qmult_le_0_compat; lra.
Qed.

Lemma clamp_cases (t0 : Q) :
  let t := Qmax 0 (Qmin 1 t0) in
  (t == 0 ∧ t0 <= 0) ∨ (t == 1 ∧ 1 <= t0) ∨ (t == t0 ∧ 0 <= t0 ∧ t0 <= 1).
Proof.
  cbv zeta.
  destruct (Q.min_spec 1 t0) as [[H1 E1]|[H1 E1]];
    destruct (Q.max_spec 0 (Qmin 1 t0)) as [[H2 E2]|[H2 E2]];
    rewrite E2, ?E1 in *; rewrite ?E1 in *.
  - right; left. split; [reflexivity|lra].
  - lra.
  - right; right. lra.
  - left. split; [reflexivity|lra].
Qed.

(** X8.  The point that [closestPointOnLineSegment] returns lies on the
    segment from [a] to [b] (it is [a + t (b - a)] for some [t] between 0 and
    1) and no point of the segment is nearer to [p], degenerate segments
    ([a = b]) included. *)
Theorem closestPointOnLineSegment_is_closest (p a b : Point) :
  let c := closestPointOnLineSegment p a b in
  (∃ t, 0 <= t ∧ t <= 1 ∧ pointEq c (along a b t))
  ∧ ∀ s, 0 <= s → s <= 1 → distanceSq p c <= distanceSq p (along a b s).
Proof.
  cbv zeta. unfold closestPointOnLineSegment. cbv zeta.
  set (dx := px b - px a). set (dy := py b - py a).
  set (lenSq := dx * dx + dy * dy).
  unfold eqb. destruct (Qeq_bool lenSq 0) eqn:Hz.
  - apply Qeq_bool_iff in Hz.
    assert (dx == 0 ∧ dy == 0) as [Hdx Hdy].
    { unfold lenSq in Hz. split; nra. }
    split.
    + exists 0. unfold pointEq, along. simpl. split; [lra|]. split; [lra|]. split; ring.
    + intros s Hs0 Hs1. unfold distanceSq, along. simpl. fold dx dy.
      rewrite Hdx, Hdy. apply Qle_lteq. right. ring.
  - apply Qeq_bool_neq in Hz.
    assert (0 < lenSq) as Hpos.
    { assert (0 <= lenSq) by (unfold lenSq; nra).
      destruct (Qlt_le_dec 0 lenSq) as [|Hle]; [done|]. exfalso. apply Hz. lra. }
    set (n := (px p - px a) * dx + (py p - py a) * dy).
    set (t0 := n / lenSq).
    assert (t0 * lenSq == n) as Ht0.
    { unfold t0. rewrite Qmult_comm. apply Qmult_div_r. lra. }
    pose proof (clamp_cases t0) as Hcases. cbv zeta in Hcases.
    set (t := Qmax 0 (Qmin 1 t0)) in *.
    split.
    + exists t. split; [|split].
      * destruct Hcases as [[? ?]|[[? ?]|[? ?]]]; lra.
      * destruct Hcases as [[? ?]|[[? ?]|[? ?]]]; lra.
      * unfold pointEq, along. simpl. fold dx dy. split; ring.
    + intros s Hs0 Hs1. unfold distanceSq, along. simpl. fold dx dy.
      assert ((px a + s * dx - px p) * (px a + s * dx - px p)
              + (py a + s * dy - py p) * (py a + s * dy - py p)
              - ((px a + t * dx - px p) * (px a + t * dx - px p)
                 + (py a + t * dy - py p) * (py a + t * dy - py p))
              == (s - t) * ((s + t) * lenSq - 2 * n)) as Hdiff.
      { unfold lenSq, n. ring. }
      assert (0 <= (s - t) * ((s + t) * lenSq - 2 * n)) as Hsign.
      { rewrite <- Ht0.
        destruct Hcases as [[Et Hc]|[[Et Hc]|[Et Hc]]].
        - assert ((s - t) * ((s + t) * lenSq - 2 * (t0 * lenSq))
                  == lenSq * (s * (s - 2 * t0))) as -> by (rewrite Et; ring).
          apply Qmult_le_0_compat; [lra|]. apply Qmult_le_0_compat; lra.
        - assert ((s - t) * ((s + t) * lenSq - 2 * (t0 * lenSq))
                  == lenSq * ((1 - s) * (2 * t0 - s - 1))) as -> by (rewrite Et; ring).
          apply Qmult_le_0_compat; [lra|]. apply Qmult_le_0_compat; lra.
        - assert ((s - t) * ((s + t) * lenSq - 2 * (t0 * lenSq))
                  == lenSq * ((s - t0) * (s - t0))) as -> by (rewrite Et; ring).
          apply Qmult_le_0_compat; [lra|]. apply Qsquare_nonneg. }
      lra.
Qed.

End Projection.

Section WalkableLegs.
Import Pathfinding.
Local Open Scope nat_scope.
Context `{!Host}.

Lemma samePoint_pointEq a b : samePoint a b = true ↔ pointEq a b.
Proof. unfold samePoint, eqb, pointEq. by rewrite andb_true_iff, !Qeq_bool_iff. Qed.

Lemma crossing_pointEq p q pi pj : pointEq p q → crossing p pi pj = crossing q pi pj.
Proof.
  intros [Hx Hy]. unfold crossing, gtb, ltb. cbv zeta. by rewrite Hx, Hy.
Qed.

Lemma isPointInPolygon_pointEq p q polygon :
  pointEq p q → isPointInPolygon p polygon = isPointInPolygon q polygon.
Proof.
  intros Hpq. unfold isPointInPolygon.
  generalize (zip polygon (previous polygon)) false.
  induction l as [|e l IH]; intros inside; simpl; [done|].
  by rewrite (crossing_pointEq p q), IH.
Qed.

Lemma canWalkDirectly_pointEq a b b' polygon :
  pointEq b b' → canWalkDirectly a b polygon = canWalkDirectly a b' polygon.
Proof.
  intros [Hx Hy]. unfold canWalkDirectly. cbv zeta.
  rewrite (isPointInPolygon_pointEq b b') by done.
  assert (∀ t : Q,
            isPointInPolygon
              (mkPoint (px a + (px b - px a) * t)%Q (py a + (py b - py a) * t)%Q) polygon
            = isPointInPolygon
                (mkPoint (px a + (px b' - px a) * t)%Q (py a + (py b' - py a) * t)%Q)
                polygon) as Hsample.
  { intros t. apply isPointInPolygon_pointEq. split; simpl; by rewrite ?Hx, ?Hy. }
  rewrite (isPointInPolygon_pointEq
             (mkPoint ((px a + px b) / 2)%Q ((py a + py b) / 2)%Q)
             (mkPoint ((px a + px b') / 2)%Q ((py a + py b') / 2)%Q))
    by (split; simpl; by rewrite ?Hx, ?Hy).
  simpl. by rewrite !Hsample.
Qed.

Lemma legsWalkable_snoc polygon path p :
  legsWalkable polygon (path ++ [p])
  = legsWalkable polygon path
    && from_option (λ a, canWalkDirectly a p polygon) true (last path).
Proof.
  induction path as [|a [|b path] IH]; [done|simpl; by rewrite andb_true_r|].
  change (legsWalkable polygon ((a :: b :: path) ++ [p]))
    with (canWalkDirectly a b polygon && legsWalkable polygon ((b :: path) ++ [p])).
  rewrite IH. simpl. by rewrite andb_assoc.
Qed.

Lemma legsWalkable_lookup polygon path i a b :
  legsWalkable polygon path = true → path !! i = Some a → path !! S i = Some b →
  canWalkDirectly a b polygon = true.
Proof.
  revert i. induction path as [|x [|y path] IH]; intros i Hlegs Ha Hb; [done|by destruct i|].
  simpl in Hlegs. apply andb_true_iff in Hlegs as [Hxy Hrest].
  destruct i as [|i]; simpl in *; [by simplify_eq|]. by eapply IH.
Qed.

Lemma legsWalkable_inside polygon path :
  legsWalkable polygon path = true → 2 ≤ length path →
  Forall (λ p, isPointInPolygon p polygon = true) path.
Proof.
  induction path as [|a [|b path] IH]; simpl; intros Hlegs Hlen; try lia.
  apply andb_true_iff in Hlegs as [Hab Hrest].
  assert (isPointInPolygon a polygon = true ∧ isPointInPolygon b polygon = true) as [Ha Hb].
  { unfold canWalkDirectly in Hab.
    destruct (isPointInPolygon a polygon), (isPointInPolygon b polygon); done. }
  constructor; [done|]. destruct path as [|c path]; [by repeat constructor|].
  apply IH; [done|simpl; lia].
Qed.

Lemma reconstruct_legs polygon n :
  walkableChain polygon n → legsWalkable polygon (reconstruct n) = true.
Proof.
  induction n as [p g h f|p g h f q IH] using PathNode_chain_ind; simpl; [done|].
  intros [Hleg Hchain]. rewrite legsWalkable_snoc, IH, reconstruct_last by done. done.
Qed.

Lemma furthestVisible_walkable polygon path origin current from :
  furthestVisible polygon path origin current from = S current
  ∨ canWalkDirectly origin
      (default origin (path !! furthestVisible polygon path origin current from)) polygon
    = true.
Proof.
  induction from as [|from IH]; simpl; [by left|].
  case_bool_decide; [|by left].
  destruct (canWalkDirectly origin (default origin (path !! S from)) polygon) eqn:Hwalk;
    [by right|done].
Qed.

Lemma smoothLoop_legs polygon path : ∀ fuel current smoothed sm,
  legsWalkable polygon path = true →
  legsWalkable polygon smoothed = true →
  last smoothed = path !! current →
  smoothLoop fuel polygon path current smoothed = Returns sm →
  legsWalkable polygon sm = true.
Proof.
  induction fuel as [|fuel IH]; intros current smoothed sm Hpath Hsm Hlast; simpl.
  - case_bool_decide; [done|]. by intros [= <-].
  - case_bool_decide as Hloop; [|by intros [= <-]].
    destruct (path !! current) as [origin|] eqn:Horigin; [|done].
    set (furthest := furthestVisible polygon path origin current (length path - 1)).
    destruct (path !! furthest) as [next|] eqn:Hnext; [|done].
    apply IH; [done| |by rewrite last_snoc].
    rewrite legsWalkable_snoc, Hsm, Hlast. simpl.
    destruct (furthestVisible_walkable polygon path origin current (length path - 1))
      as [Hadj|Hvis]; unfold furthest in Hnext.
    + rewrite Hadj in Hnext.
      by apply (legsWalkable_lookup polygon path current origin next).
    + by rewrite Hnext in Hvis.
Qed.

Lemma smoothPath_legs polygon path sm :
  legsWalkable polygon path = true →
  smoothPath path polygon = Returns sm → legsWalkable polygon sm = true.
Proof.
  intros Hpath. unfold smoothPath. case_bool_decide; [by intros [= <-]|].
  destruct path as [|p0 rest]; [done|].
  by apply smoothLoop_legs.
Qed.

Lemma improve_chains polygon np g' f' current openSet :
  walkableChain polygon current →
  canWalkDirectly (point current) np polygon = true →
  Forall (walkableChain polygon) openSet →
  Forall (walkableChain polygon) (improve np g' f' current openSet).
Proof.
  intros Hcurrent Hwalk. induction 1 as [|n rest Hn Hrest IH]; simpl; [by constructor|].
  destruct (samePoint (point n) np) eqn:Hsame; [|by constructor].
  constructor; [|done]. destruct (ltb g' (g n)); [|done].
  simpl. split; [|done].
  rewrite <- Hwalk. apply canWalkDirectly_pointEq. by apply samePoint_pointEq.
Qed.

Lemma visitNeighbor_chains polygon actualEnd closedSet current openSet np :
  walkableChain polygon current →
  Forall (walkableChain polygon) openSet →
  Forall (walkableChain polygon)
    (visitNeighbor polygon actualEnd closedSet current openSet np).
Proof.
  intros Hcurrent Hopen. unfold visitNeighbor.
  destruct (existsb (samePoint np) closedSet); [done|].
  destruct (canWalkDirectly (point current) np polygon) eqn:Hwalk; [|done]. simpl.
  destruct (existsb _ openSet); [by apply improve_chains|].
  apply Forall_app. split; [done|]. by repeat constructor.
Qed.

Lemma visitNeighbors_chains polygon actualEnd closedSet current : ∀ neighbors openSet,
  walkableChain polygon current →
  Forall (walkableChain polygon) openSet →
  Forall (walkableChain polygon)
    (fold_left (visitNeighbor polygon actualEnd closedSet current) neighbors openSet).
Proof.
  induction neighbors as [|np rest IH]; intros openSet Hcurrent Hopen; simpl; [done|].
  apply IH; [done|]. by apply visitNeighbor_chains.
Qed.

Lemma search_legs polygon nodes actualEnd : ∀ fuel openSet closedSet path,
  Forall (walkableChain polygon) openSet →
  search fuel polygon nodes actualEnd openSet closedSet = Returns (Some path) →
  legsWalkable polygon path = true.
Proof.
  induction fuel as [|fuel IH]; intros openSet closedSet path Hopen; simpl.
  - by destruct (sortByF openSet).
  - pose proof (sortByF_perm openSet) as Hperm.
    destruct (sortByF openSet) as [|current rest]; [done|].
    rewrite <- Hperm in Hopen. apply Forall_cons in Hopen as [Hcurrent Hrest].
    destruct (ltb (distance (point current) actualEnd) 5).
    + destruct (smoothPath (reconstruct current) polygon) as [sm| |] eqn:Hsm; try done.
      intros [= <-]. eapply smoothPath_legs; [|done]. by apply reconstruct_legs.
    + apply IH. by apply visitNeighbors_chains.
Qed.

Lemma findPath_returns start end_ polygon :
  polygon ≠ [] → ∃ path, findPath start end_ polygon = Returns path.
Proof.
  intros Hne.
  destruct (getClosestPointInPolygon_returns start polygon Hne) as [actualStart HS].
  destruct (getClosestPointInPolygon_returns end_ polygon Hne) as [actualEnd HE].
  unfold findPath. rewrite HS, HE.
  destruct (canWalkDirectly actualStart actualEnd polygon); [by eexists|].
  set (nodes := generateNavNodes polygon 30 ++ [actualStart; actualEnd]).
  set (startNode := mkPathNode actualStart 0 _ _ None).
  destruct (search_returns polygon nodes actualEnd actualStart (S (length nodes))
              [startNode] []) as (r & -> & _).
  - split.
    + constructor; [|by constructor]. repeat split. unfold nodes. set_solver.
    + intros p. simpl. rewrite filter_cons, filter_nil. case_decide; simpl; lia.
  - unfold unvisited. pose proof (length_filter (notClosed []) nodes). lia.
  - destruct r; by eexists.
Qed.

(** X9.  For a polygon that has points [findPath] returns a path, and
    either every leg of the path passes [canWalkDirectly], or the path is the
    fallback: the two clamped end points alone, joined by a leg that does not
    pass it (no route was found).  On a path of two or more points whose legs
    are walkable every point is inside the polygon.  A path of one point has
    no leg: it is returned when the clamped start lies within 5 of the clamped
    end although the leg between them is not walkable, it is the clamped start
    alone, and that point can test outside the polygon
    ([findPath_of_one_point_can_test_outside]). *)
Theorem findPath_legs_are_walkable (start end_ : Point) (polygon : Polygon) :
  polygon ≠ [] →
  ∃ actualStart actualEnd path,
    getClosestPointInPolygon start polygon = Returns actualStart
    ∧ getClosestPointInPolygon end_ polygon = Returns actualEnd
    ∧ findPath start end_ polygon = Returns path
    ∧ (legsWalkable polygon path = true
       ∨ (path = [actualStart; actualEnd]
          ∧ canWalkDirectly actualStart actualEnd polygon = false))
    ∧ (legsWalkable polygon path = true → 2 ≤ length path →
       Forall (λ p, isPointInPolygon p polygon = true) path).
Proof.
  intros Hne.
  destruct (getClosestPointInPolygon_returns start polygon Hne) as [actualStart HS].
  destruct (getClosestPointInPolygon_returns end_ polygon Hne) as [actualEnd HE].
  exists actualStart, actualEnd. unfold findPath. rewrite HS, HE.
  destruct (canWalkDirectly actualStart actualEnd polygon) eqn:Hdirect.
  { exists [actualStart; actualEnd]. repeat split; try done.
    - left. simpl. by rewrite Hdirect.
    - intros. by apply legsWalkable_inside. }
  set (nodes := generateNavNodes polygon 30 ++ [actualStart; actualEnd]).
  set (startNode := mkPathNode actualStart 0 _ _ None).
  destruct (search_returns polygon nodes actualEnd actualStart (S (length nodes))
              [startNode] []) as (r & Hr & _).
  - split.
    + constructor; [|by constructor]. repeat split. unfold nodes. set_solver.
    + intros p. simpl. rewrite filter_cons, filter_nil. case_decide; simpl; lia.
  - unfold unvisited. pose proof (length_filter (notClosed []) nodes). lia.
  - rewrite Hr. destruct r as [path|].
    + exists path. repeat split; try done.
      * left. eapply search_legs; [|exact Hr]. by repeat constructor.
      * intros. by apply legsWalkable_inside.
    + exists [actualStart; actualEnd]. repeat split; try done.
      * by right.
      * intros. by apply legsWalkable_inside.
Qed.

End WalkableLegs.

Section Interpolation.
Import Pathfinding.
Context `{!Host}.

Lemma interpolateSegments_finished path : ∀ segments i remaining,
  finished (interpolateSegments path i segments remaining) = true →
  position (interpolateSegments path i segments remaining) = last path.
Proof.
  induction segments as [|[a b] rest IH]; intros i remaining; simpl; [done|].
  destruct (Qle_bool remaining (distance a b)); [done|]. apply IH.
Qed.

Lemma interpolateSegments_position path : ∀ segments i remaining,
  path ≠ [] → (0 < remaining)%Q →
  is_Some (position (interpolateSegments path i segments remaining)).
Proof.
  induction segments as [|[a b] rest IH]; intros i remaining Hne Hpos; simpl.
  - destruct path as [|p path] using rev_ind; [done|]. rewrite last_snoc. by eexists.
  - destruct (Qle_bool remaining (distance a b)) eqn:Hle; simpl.
    + apply Qle_bool_iff in Hle. unfold eqb.
      destruct (Qeq_bool (distance a b) 0) eqn:Hz; [|by eexists].
      apply Qeq_bool_iff in Hz. lra.
    + apply IH; [done|].
      assert (¬ (remaining <= distance a b)%Q) as Hgt
        by (rewrite <- Qle_bool_iff, Hle; done).
      lra.
Qed.

Lemma interpolateSegments_index path : ∀ segments i remaining,
  (segmentIndex (interpolateSegments path i segments remaining) < i + length segments
   ∨ segmentIndex (interpolateSegments path i segments remaining) = length path - 2)%nat.
Proof.
  induction segments as [|[a b] rest IH]; intros i remaining; simpl; [by right|].
  destruct (Qle_bool remaining (distance a b)); simpl; [left; lia|].
  destruct (IH (S i) (remaining - distance a b)%Q) as [Hlt|Heq]; [left; lia|by right].
Qed.

Lemma fold_lengths segments : ∀ acc : Q,
  (fold_left (λ length e, (length + distance e.1 e.2)%Q) segments acc
   == acc + sumLengths segments)%Q.
Proof.
  unfold sumLengths. induction segments as [|e rest IH]; intros acc; simpl; [lra|].
  rewrite (IH (acc + _)%Q), (IH (0 + _)%Q). lra.
Qed.

Lemma sumLengths_cons e rest :
  (sumLengths (e :: rest) == distance e.1 e.2 + sumLengths rest)%Q.
Proof. unfold sumLengths at 1. simpl. rewrite fold_lengths. lra. Qed.

Lemma sumLengths_nonneg segments :
  (∀ q, 0 <= Math_sqrt q)%Q → (0 <= sumLengths segments)%Q.
Proof.
  intros Hsqrt. induction segments as [|e rest IH]; [unfold sumLengths; simpl; lra|].
  rewrite sumLengths_cons. pose proof (Hsqrt ((px e.2 - px e.1) * (px e.2 - px e.1)
    + (py e.2 - py e.1) * (py e.2 - py e.1))%Q) as Hd.
  unfold distance. lra.
Qed.

Lemma interpolateSegments_finished_iff path : ∀ segments i remaining,
  (∀ q, 0 <= Math_sqrt q)%Q → segments ≠ [] →
  finished (interpolateSegments path i segments remaining) = true
  ↔ (sumLengths segments < remaining)%Q.
Proof.
  intros segments i remaining Hsqrt. revert i remaining.
  induction segments as [|[a b] rest IH]; intros i remaining Hne; [done|].
  simpl. rewrite sumLengths_cons. simpl.
  pose proof (sumLengths_nonneg rest Hsqrt) as Hrest.
  destruct (Qle_bool remaining (distance a b)) eqn:Hle; simpl.
  - apply Qle_bool_iff in Hle. split; [done|]. lra.
  - assert (¬ (remaining <= distance a b)%Q) as Hgt
      by (rewrite <- Qle_bool_iff, Hle; done).
    destruct rest as [|e rest].
    + simpl. unfold sumLengths. simpl. split; [lra|done].
    + rewrite IH by done. lra.
Qed.

Lemma interpolatePath_finished_position path distanceTraveled :
  finished (interpolatePath path distanceTraveled) = true →
  position (interpolatePath path distanceTraveled)
  = Some (default (mkPoint 0 0) (last path)).
Proof.
  unfold interpolatePath. case_bool_decide as Hshort.
  - intros _. simpl. by destruct path as [|p [|q path]]; simpl in *; [..|lia].
  - intros Hf. rewrite interpolateSegments_finished by done.
    destruct (last path) eqn:Hl; [done|]. apply last_None in Hl. subst path.
    simpl in Hshort. lia.
Qed.

Lemma interpolatePath_finished_iff path distanceTraveled :
  (∀ q, 0 <= Math_sqrt q)%Q → (2 ≤ length path)%nat →
  finished (interpolatePath path distanceTraveled) = true
  ↔ (getPathLength path < distanceTraveled)%Q.
Proof.
  intros Hsqrt Hlen. unfold interpolatePath, getPathLength.
  rewrite bool_decide_eq_false_2 by lia.
  apply interpolateSegments_finished_iff; [done|].
  destruct path as [|p [|q path]]; simpl in *; try lia. done.
Qed.

Lemma interpolatePath_position path distanceTraveled :
  (0 < distanceTraveled)%Q → is_Some (position (interpolatePath path distanceTraveled)).
Proof.
  intros Hpos. unfold interpolatePath. case_bool_decide as Hshort; [by eexists|].
  apply interpolateSegments_position; [|done]. intros ->. simpl in Hshort. lia.
Qed.

Lemma interpolatePath_index path distanceTraveled :
  (2 ≤ length path)%nat →
  (segmentIndex (interpolatePath path distanceTraveled) < length path - 1)%nat.
Proof.
  intros Hlen. unfold interpolatePath. rewrite bool_decide_eq_false_2 by lia.
  destruct (interpolateSegments_index path (zip path (tail path)) 0 distanceTraveled)
    as [Hlt|Heq]; [|lia].
  rewrite length_zip in Hlt.
  assert (length (tail path) = length path - 1)%nat as Ht by (by destruct path; simpl; lia).
  rewrite Ht in Hlt. lia.
Qed.

(** X10.  [interpolatePath] reports [finished] with the last point
    of the path as position (the origin for the empty path); for a path of at
    least two points it is finished exactly when the distance travelled
    exceeds the length of the path ([getPathLength]), and the segment index
    it reports is the index of a segment of the path; for a positive distance
    the position is always a point (no division of zero by zero). *)
Theorem interpolatePath_finishes_past_the_end (path : list Point) (distanceTraveled : Q) :
  (∀ q, 0 <= Math_sqrt q)%Q →
  let result := interpolatePath path distanceTraveled in
  (finished result = true →
   position result = Some (default (mkPoint 0 0) (last path)))
  ∧ ((length path < 2)%nat → finished result = true)
  ∧ ((2 ≤ length path)%nat →
     (finished result = true ↔ (getPathLength path < distanceTraveled)%Q)
     ∧ (segmentIndex result < length path - 1)%nat)
  ∧ ((0 < distanceTraveled)%Q → is_Some (position result)).
Proof.
  intros Hsqrt result. split; [apply interpolatePath_finished_position|]. split.
  - intros Hshort. unfold result, interpolatePath. by rewrite bool_decide_eq_true_2.
  - split; [|apply interpolatePath_position].
    intros Hlen. split; [by apply interpolatePath_finished_iff|].
    by apply interpolatePath_index.
Qed.

End Interpolation.

(** ** The walk, frame by frame *)

Section WalkFrames.
Import GameScene.
Context `{!Host}.

(** One frame of a walk in progress. *)
Lemma update_walking delta st :
  (∀ q, 0 <= Math_sqrt q)%Q →
  isWalking (scene st) = true →
  (2 ≤ length (playerPath (scene st)))%nat →
  let path := playerPath (scene st) in
  let traveled := (playerDistanceTraveled (scene st) + walkSpeed * (delta / 1000))%Q in
  ((Pathfinding.getPathLength path < traveled)%Q →
   ∃ destination, last path = Some destination
     ∧ update delta st = Some (arrival path traveled destination st))
  ∧ ((0 < traveled)%Q → (traveled <= Pathfinding.getPathLength path)%Q →
     ∃ p, update delta st
          = Some (with_game (GameState.setPlayerPosition p (game st))
                    (with_scene (with_player p (with_walk path traveled true (scene st)))
                       st))).
Proof.
  intros Hsqrt Hwalk Hlen path traveled.
  pose proof (interpolatePath_finished_position path traveled) as Hpos.
  pose proof (interpolatePath_finished_iff path traveled Hsqrt Hlen) as Hiff.
  pose proof (interpolatePath_position path traveled) as Hsome.
  unfold update. cbv zeta. rewrite Hwalk.
  rewrite bool_decide_eq_false_2 by lia. simpl.
  fold path. fold traveled. split.
  - intros Hpast. apply Hiff in Hpast. rewrite (Hpos Hpast), Hpast.
    destruct (last path) as [destination|] eqn:Hlast.
    + by exists destination.
    + apply last_None in Hlast. unfold path in Hlast. rewrite Hlast in Hlen.
      simpl in Hlen. lia.
  - intros Hpositive Hnot. destruct (Hsome Hpositive) as [p Hp]. rewrite Hp.
    rewrite (not_true_is_false (Pathfinding.finished _)); [by exists p|].
    intros Hf. apply Hiff in Hf. lra.
Qed.

Lemma frames_arrive delta : ∀ n st,
  (∀ q, 0 <= Math_sqrt q)%Q →
  isWalking (scene st) = true →
  (2 ≤ length (playerPath (scene st)))%nat →
  (0 <= playerDistanceTraveled (scene st))%Q →
  (0 < walkSpeed * (delta / 1000))%Q →
  (Pathfinding.getPathLength (playerPath (scene st))
   < playerDistanceTraveled (scene st)
     + inject_Z (Z.of_nat (S n)) * (walkSpeed * (delta / 1000)))%Q →
  ∃ m traveled destination,
    (m ≤ n)%nat
    ∧ last (playerPath (scene st)) = Some destination
    ∧ frames (S m) delta st
      = Some (arrival (playerPath (scene st)) traveled destination st).
Proof.
  induction n as [|n IH]; intros st Hsqrt Hwalk Hlen Hstart Hspeed Hbound.
  - destruct (update_walking delta st Hsqrt Hwalk Hlen) as [Harrive _].
    destruct Harrive as (destination & Hlast & Hup).
    { change (inject_Z (Z.of_nat 1)) with 1%Q in Hbound. cbv zeta.
      set (speed := (walkSpeed * (delta / 1000))%Q) in *. clearbody speed. lra. }
    eexists 0%nat, _, destination. split; [done|]. split; [done|].
    simpl. by rewrite Hup.
  - destruct (update_walking delta st Hsqrt Hwalk Hlen) as [Harrive Hgo].
    set (path := playerPath (scene st)) in *.
    set (traveled := (playerDistanceTraveled (scene st) + walkSpeed * (delta / 1000))%Q) in *.
    destruct (Qlt_le_dec (Pathfinding.getPathLength path) traveled) as [Hpast|Hnot].
    + destruct (Harrive Hpast) as (destination & Hlast & Hup).
      eexists 0%nat, _, destination. split; [lia|]. split; [done|].
      simpl. by rewrite Hup.
    + destruct Hgo as [p Hp]; [|done|].
      { unfold traveled. set (speed := (walkSpeed * (delta / 1000))%Q) in *.
        clearbody speed. lra. }
      set (st1 := with_game _ _) in Hp.
      assert (isWalking (scene st1) = true) as Hwalk1 by reflexivity.
      assert (playerPath (scene st1) = path) as Hpath1 by reflexivity.
      assert (playerDistanceTraveled (scene st1) = traveled) as Htraveled1 by reflexivity.
      destruct (IH st1) as (m & traveled' & destination & Hm & Hlast & Hframes);
        rewrite ?Hpath1, ?Htraveled1 in *; try done.
      * unfold traveled. set (speed := (walkSpeed * (delta / 1000))%Q) in *.
        clearbody speed. lra.
      * rewrite Nat2Z.inj_succ, <- Z.add_1_r, inject_Z_plus in Hbound.
        change (inject_Z 1) with 1%Q in Hbound. unfold traveled.
        set (speed := (walkSpeed * (delta / 1000))%Q) in *. clearbody speed. lra.
      * exists (S m), traveled', destination. split; [lia|]. split; [done|].
        change (frames (S (S m)) delta st) with (update delta st ≫= frames (S m) delta).
        rewrite Hp.
        change (Some st1 ≫= frames (S m) delta) with (frames (S m) delta st1).
        rewrite Hframes. reflexivity.
Qed.

(** X26.  A walk ends.  With the player walking along a path of at
    least two points, frames of a positive duration lead after finitely many
    calls of [update] to the arrival: the player stands on the last point of
    the path, the walk is over and [onWalkComplete] has run. *)
Theorem walk_arrives_after_finitely_many_frames (delta : Q) (st : Stage) :
  (∀ q, 0 <= Math_sqrt q)%Q →
  isWalking (scene st) = true →
  (2 ≤ length (playerPath (scene st)))%nat →
  (0 <= playerDistanceTraveled (scene st))%Q →
  (0 < delta)%Q →
  ∃ n traveled destination,
    last (playerPath (scene st)) = Some destination
    ∧ frames (S n) delta st
      = Some (arrival (playerPath (scene st)) traveled destination st).
Proof.
  intros Hsqrt Hwalk Hlen Hstart Hdelta.
  set (speed := (walkSpeed * (delta / 1000))%Q).
  assert (0 < speed)%Q as Hspeed.
  { unfold speed, walkSpeed. apply Qmult_lt_0_compat; [done|].
    apply Qlt_shift_div_l; [done|]. lra. }
  set (x := ((Pathfinding.getPathLength (playerPath (scene st))
              - playerDistanceTraveled (scene st)) / speed)%Q).
  destruct (frames_arrive delta (Z.to_nat (Qfloor x)) st)
    as (m & traveled & destination & _ & Hlast & Hframes); try done.
  - fold speed.
    assert (x < inject_Z (Z.of_nat (S (Z.to_nat (Qfloor x)))))%Q as Hx.
    { eapply Qlt_le_trans; [apply Qlt_floor|].
      rewrite <- Zle_Qle. lia. }
    apply (Qmult_lt_compat_r _ _ speed) in Hx; [|done].
    unfold x in Hx at 1.
    rewrite Qmult_comm, Qmult_div_r in Hx by lra. lra.
  - by exists m, traveled, destination.
Qed.

End WalkFrames.

(** ** The dialogue registries *)

Section Entries.

Lemma entry_mapSet {A} key key' (v : A) entries :
  entry key' (mapSet key v entries)
  = if bool_decide (key' = key) then Some v else entry key' entries.
Proof.
  induction entries as [|[k x] entries IH]; simpl.
  - destruct (decide (key = key')) as [->|Hne].
    + by rewrite !bool_decide_eq_true_2.
    + by rewrite !bool_decide_eq_false_2.
  - destruct (decide (k = key)) as [->|Hk].
    + rewrite (bool_decide_eq_true_2 (key = key)) by done. simpl.
      destruct (decide (key = key')) as [->|Hne].
      * by rewrite !bool_decide_eq_true_2.
      * by rewrite !bool_decide_eq_false_2.
    + rewrite (bool_decide_eq_false_2 (k = key)) by done. simpl. rewrite IH.
      destruct (decide (k = key')) as [->|Hne].
      * rewrite bool_decide_eq_true_2 by done. by rewrite bool_decide_eq_false_2.
      * by rewrite (bool_decide_eq_false_2 (k = key')).
Qed.

Lemma mapSet_keys_present {A} key (v : A) entries :
  key ∈ entries.*1 → (mapSet key v entries).*1 = entries.*1.
Proof.
  induction entries as [|[k x] entries IH]; simpl; [by intros ?%not_elem_of_nil|].
  destruct (decide (k = key)) as [->|Hk].
  - by rewrite bool_decide_eq_true_2.
  - rewrite bool_decide_eq_false_2 by done. intros [?|Hin]%elem_of_cons; [done|].
    rewrite !fmap_cons. f_equal. by apply IH.
Qed.

Lemma entry_fmap {A B} (f : A → B) key (entries : list (string * A)) :
  entry key (prod_map id f <$> entries) = f <$> entry key entries.
Proof.
  induction entries as [|[k x] entries IH]; simpl; [done|].
  by case_bool_decide.
Qed.

Lemma entry_is_Some {A} key (entries : list (string * A)) :
  is_Some (entry key entries) ↔ key ∈ entries.*1.
Proof.
  induction entries as [|[k x] entries IH]; simpl.
  - split; [by intros [? ?]|by intros ?%not_elem_of_nil].
  - case_bool_decide as H1.
    + subst. split; [by left|by eexists].
    + rewrite IH, elem_of_cons. split; [by right|].
      intros [?|?]; [congruence|done].
Qed.

End Entries.

Section TreeRegistry.
Import Runtime DialogueManager.

(** X14.  [getDialogueTree] after [registerDialogueTree] returns the
    tree registered for its id and what it returned before for any other id.
    A tree registered under an id that is already known keeps the place of
    the id in the order in which [startDialogue] searches the trees; a tree
    with a new id goes to the end. *)
Theorem registerDialogueTree_replaces_in_place (tree : DialogueTree) (id : string) (w : World) :
  getDialogueTree id (registerDialogueTree tree w)
  = (if bool_decide (id = treeId tree) then Some tree else getDialogueTree id w)
  ∧ (treeId tree ∈ (dialogueTrees w).*1 →
     (dialogueTrees (registerDialogueTree tree w)).*1 = (dialogueTrees w).*1)
  ∧ (treeId tree ∉ (dialogueTrees w).*1 →
     dialogueTrees (registerDialogueTree tree w)
     = dialogueTrees w ++ [(treeId tree, tree)]).
Proof.
  unfold getDialogueTree, registerDialogueTree. simpl. repeat split.
  - apply entry_mapSet.
  - apply mapSet_keys_present.
  - apply mapSet_fresh.
Qed.

End TreeRegistry.

Section DialogueErrors.
Import Runtime DialogueManager.
Context `{!Host}.

(** X15.  [startDialogue] with a start id (the given one, or the start node
    of the tree when none or the empty id is given) that is no key of the
    nodes of the tree.  When the id is not the name of a member of
    [Object.prototype] either, the call logs [Dialogue node not found],
    notifies the listeners of the end of the dialogue and leaves no dialogue
    active; the game state is untouched.  When the id is such a name
    ([constructor], [toString], ...) the inherited member is taken for the
    node: nothing is logged, the dialogue stays active with that member as
    its current node, the visit is recorded and the listeners are handed the
    member as the node entered. *)
Theorem startDialogue_at_a_missing_node
    (fuel : nat) (characterId : string) (startNodeId : option string)
    (tree : DialogueTree) (w : World) :
  findTree characterId w = Some tree →
  let nodeId := default (startNode tree) (nonEmpty startNodeId) in
  entry nodeId (nodes tree) = None →
  (nodeId ∉ ObjectPrototype →
   ∃ w', startDialogue (S fuel) characterId startNodeId w = Ret tt w'
         ∧ getIsDialogueActive w' = false
         ∧ getCurrentDialogueTree w' = None
         ∧ getCurrentDialogueNode w' = None
         ∧ console w'
           = console w ++ [ConsoleError ("Dialogue node not found: " +:+ nodeId)]
         ∧ dialogueEvents w' = dialogueEvents w ++ [DialogueEnd (Some tree)]
         ∧ game w' = game w)
  ∧ (nodeId ∈ ObjectPrototype →
     ∃ w', startDialogue (S fuel) characterId startNodeId w = Ret tt w'
           ∧ getIsDialogueActive w' = true
           ∧ getCurrentDialogueTree w' = Some tree
           ∧ getCurrentDialogueNode w' = Some (MemberOf nodeId)
           ∧ console w' = console w
           ∧ dialogueEvents w'
             = dialogueEvents w ++ [NodeEnter (MemberOf nodeId) (Some tree)]
           ∧ game w'
             = GameState.recordDialogueVisit (treeId tree +:+ ":" +:+ nodeId) (game w)).
Proof.
  intros Hfind nodeId Hmissing.
  assert (∀ found, nodeAt tree nodeId = found →
            startDialogue (S fuel) characterId startNodeId w
            = match found with
              | Some node =>
                  enterNode (S fuel) nodeId
                    (with_isDialogueActive true (with_currentTree (Some tree) w))
              | None =>
                  (log (ConsoleError ("Dialogue node not found: " +:+ nodeId)) >>>
                   endDialogue)%script
                    (with_isDialogueActive true (with_currentTree (Some tree) w))
              end) as Hstart.
  { intros found Hfound. unfold startDialogue. rewrite Hfind.
    unfold bind at 1, modify. cbn [bindRes enterNode].
    cbn [currentTree with_isDialogueActive with_currentTree].
    fold nodeId. rewrite Hfound. by destruct found. }
  split; intros Hproto.
  - rewrite (Hstart None).
    + eexists. split; [reflexivity|]. by repeat split.
    + unfold nodeAt. by rewrite Hmissing, property_undefined.
  - rewrite (Hstart (Some (MemberOf nodeId))).
    + cbn [enterNode]. cbn [currentTree with_isDialogueActive with_currentTree].
      unfold nodeAt. rewrite Hmissing, property_inherited by done.
      eexists. split; [reflexivity|]. by repeat split.
    + unfold nodeAt. by rewrite Hmissing, property_inherited.
Qed.

(** X16.  Without an active dialogue [selectChoice] and
    [advanceDialogue] do nothing.  In an active dialogue [selectChoice] does
    nothing at a node without choices and, for an id that no choice of the
    node has, only logs [Choice not found]: the dialogue stays at its
    node. *)
Theorem dialogue_calls_out_of_turn (fuel : nat) (id : string) (w : World) :
  (currentTree w = None ∨ currentNode w = None →
   selectChoice fuel id w = Ret tt w ∧ advanceDialogue fuel w = Ret tt w)
  ∧ (∀ tree node, currentTree w = Some tree → currentNode w = Some node →
     nodeField choices node = None → selectChoice fuel id w = Ret tt w)
  ∧ (∀ tree node nodeChoices,
     currentTree w = Some tree → currentNode w = Some node →
     nodeField choices node = Some nodeChoices →
     Forall (λ c, choiceId c ≠ id) nodeChoices →
     selectChoice fuel id w
     = Ret tt (with_console (console w ++ [ConsoleError ("Choice not found: " +:+ id)]) w)).
Proof.
  unfold selectChoice, advanceDialogue. split; [|split].
  - intros [-> | ->]; [done|]. by destruct (currentTree w).
  - by intros tree node -> -> ->.
  - intros tree node nodeChoices -> -> -> Hall.
    assert (List.find (λ c, bool_decide (choiceId c = id)) nodeChoices = None) as ->; [|done].
    induction Hall as [|c cs Hc Hcs IH]; [done|]. simpl.
    by rewrite bool_decide_eq_false_2.
Qed.

End DialogueErrors.

Section LoaderRegistry.
Import Runtime DialogueLoader.

Lemma loadDialogueFile_registry_fold ds : ∀ r w,
  (foldl
     (λ (s : Registry * World) dialogue,
        (mkRegistry (dialogueFiles s.1)
           (mapSet (defId dialogue) dialogue (dialogueTreeDefinitions s.1)),
         DialogueManager.registerDialogueTree (convertToEngineFormat dialogue) s.2))
     (r, w) ds).1
  = mkRegistry (dialogueFiles r)
      (foldl (λ m d, mapSet (defId d) d m) (dialogueTreeDefinitions r) ds).
Proof.
  induction ds as [|d ds IH]; intros r w; simpl; [by destruct r|]. by rewrite IH.
Qed.

Lemma entry_fold_other ds : ∀ (m : list (string * DialogueTreeDefinition)) key,
  key ∉ defId <$> ds →
  entry key (foldl (λ m d, mapSet (defId d) d m) m ds) = entry key m.
Proof.
  induction ds as [|d ds IH]; intros m key Hkey; simpl; [done|].
  rewrite fmap_cons in Hkey. apply not_elem_of_cons in Hkey as [Hne Hkey].
  rewrite IH by done. rewrite entry_mapSet. by rewrite bool_decide_eq_false_2.
Qed.

Lemma entry_fold_member ds : ∀ (m : list (string * DialogueTreeDefinition)) d,
  NoDup (defId <$> ds) → d ∈ ds →
  entry (defId d) (foldl (λ m d, mapSet (defId d) d m) m ds) = Some d.
Proof.
  induction ds as [|d0 ds IH]; intros m d Hnodup Hd; [by apply not_elem_of_nil in Hd|].
  rewrite fmap_cons in Hnodup. apply NoDup_cons in Hnodup as [Hfresh Hnodup].
  simpl. apply elem_of_cons in Hd as [->|Hd].
  - rewrite entry_fold_other by done. rewrite entry_mapSet.
    by rewrite bool_decide_eq_true_2.
  - by apply IH.
Qed.

(** X19.  After [loadDialogueFile] the registry answers for the
    character of the file: [getDialoguesForCharacter] returns the dialogues
    of the file, [getCharacterInfo] its name and portrait,
    [getLoadedCharacters] lists the character, and [getDialogueById] finds
    each dialogue of the file when their ids are distinct.  The dialogues of
    other characters and the ids that the file does not use answer as
    before. *)
Theorem loadDialogueFile_fills_the_registry (file : DialogueFile) (s : Registry * World) :
  let r := (loadDialogueFile file s).1 in
  getDialoguesForCharacter (fileCharacterId file) r = dialogues file
  ∧ getCharacterInfo (fileCharacterId file) r
    = Some (fileCharacterName file, fileDefaultPortrait file)
  ∧ fileCharacterId file ∈ getLoadedCharacters r
  ∧ (∀ characterId, characterId ≠ fileCharacterId file →
     getDialoguesForCharacter characterId r = getDialoguesForCharacter characterId s.1)
  ∧ (NoDup (defId <$> dialogues file) →
     ∀ d, d ∈ dialogues file → getDialogueById (defId d) r = Some d)
  ∧ (∀ id, id ∉ defId <$> dialogues file →
     getDialogueById id r = getDialogueById id s.1).
Proof.
  cbv zeta. unfold loadDialogueFile. cbn [fst snd].
  rewrite loadDialogueFile_registry_fold. cbn [dialogueFiles dialogueTreeDefinitions].
  unfold getDialoguesForCharacter, getCharacterInfo, getLoadedCharacters, getDialogueById.
  cbn [dialogueFiles dialogueTreeDefinitions].
  repeat split.
  - rewrite entry_mapSet. by rewrite bool_decide_eq_true_2.
  - rewrite entry_mapSet. by rewrite bool_decide_eq_true_2.
  - apply entry_is_Some. rewrite entry_mapSet. rewrite bool_decide_eq_true_2 by done.
    by eexists.
  - intros characterId Hne. rewrite entry_mapSet. by rewrite bool_decide_eq_false_2.
  - intros Hnodup d Hd. by apply entry_fold_member.
  - intros id Hid. by apply entry_fold_other.
Qed.

End LoaderRegistry.

Section ChoiceFilter.
Import Runtime DialogueManager.
Context `{!Host}.

Lemma with_console_id w : with_console (console w) w = w.
Proof. by destruct w. Qed.

Lemma decide_is_true {A} (b : bool) (x y : A) :
  (if decide (b = true) then x else y) = if b then x else y.
Proof. by destruct b. Qed.

Lemma filterChoices_from (w : World) (cs : list DialogueChoice) : ∀ l,
  filterChoices cs (with_console l w)
  = Ret (filter (λ c, choiceVisible w c = true) cs)
        (with_console (l ++ (cs ≫= choiceLog w)) w).
Proof.
  induction cs as [|choice rest IH]; intros l.
  - simpl. by rewrite app_nil_r.
  - cbn [filterChoices]. unfold bind at 1. unfold bind at 1.
    rewrite bind_cons, filter_cons, decide_is_true.
    unfold choiceVisible at 1, choiceLog at 1.
    destruct (nonEmpty (choiceCondition choice)) as [condition|].
    + unfold bind at 1. unfold ScriptRunner.evaluateCondition. cbn [bindRes].
      change (game (with_console l w)) with (game w).
      change (console (with_console l w)) with l.
      set (r := GameState.evaluateCondition condition (game w)).
      change (with_console (l ++ r.2) (with_console l w)) with (with_console (l ++ r.2) w).
      destruct r.1; cbn [negb andb].
      * unfold bind at 1, gets, ret. cbn [bindRes].
        change (game (with_console (l ++ r.2) w)) with (game w).
        change (scopedId (with_console (l ++ r.2) w) (choiceId choice))
          with (scopedId w (choiceId choice)).
        unfold bind. rewrite IH. cbn [bindRes]. unfold ret. rewrite <- app_assoc.
        by destruct (negb _).
      * unfold ret at 1. cbn [bindRes]. unfold bind. rewrite IH. cbn [bindRes].
        unfold ret. by rewrite <- app_assoc.
    + unfold bind at 1. unfold ret at 1. cbn [bindRes negb andb].
      unfold bind at 1, gets, ret. cbn [bindRes].
      change (game (with_console l w)) with (game w).
      change (scopedId (with_console l w) (choiceId choice))
        with (scopedId w (choiceId choice)).
      unfold bind. rewrite IH. cbn [bindRes]. simpl.
      by destruct (negb _).
Qed.

(** X17.  [filterChoices] returns choices of the list it is given, in their
    order.  A choice marked [once] that has been selected before is never
    among them, and a choice without a condition is among them unless it is
    such a choice.  (The evaluation of the conditions is taken to end.  The
    choices selected before are not among what a condition is handed, so
    that what an evaluation does to the inventory is of no account here.) *)
Theorem filterChoices_never_offers_a_spent_choice
    (choices : list DialogueChoice) (w : World) :
  ∃ kept w',
    filterChoices choices w = Ret kept w'
    ∧ sublist kept choices
    ∧ Forall
        (λ c, default false (once c)
              && GameState.hasSelectedChoice (scopedId w (choiceId c)) (game w) = false)
        kept
    ∧ (∀ c, c ∈ choices → nonEmpty (choiceCondition c) = None →
         default false (once c)
         && GameState.hasSelectedChoice (scopedId w (choiceId c)) (game w) = false →
         c ∈ kept).
Proof.
  eexists _, _. split.
  { rewrite <- (with_console_id w) at 1. apply filterChoices_from. }
  split; [apply sublist_filter|]. split.
  - apply Forall_forall. intros c [Hvisible _]%list_elem_of_filter.
    unfold choiceVisible in Hvisible. apply andb_true_iff in Hvisible as [_ Hspent].
    by apply negb_true_iff in Hspent.
  - intros c Hc Hcondition Hspent. apply list_elem_of_filter. split; [|done].
    unfold choiceVisible. by rewrite Hcondition, Hspent.
Qed.

End ChoiceFilter.

Section ValidationVerdict.
Import DialogueLoader.

Lemma bind_nil_Forall {A B} (f : A → list B) (l : list A) :
  l ≫= f = [] ↔ Forall (λ x, f x = []) l.
Proof.
  induction l as [|x l IH]; [by split; [constructor|]|].
  rewrite bind_cons, Forall_cons, <- IH. split.
  - by intros [? ?]%app_nil.
  - intros [-> ->]. done.
Qed.

Lemma nodeErrors_nil dialogue nodeId node :
  nodeErrors dialogue nodeId node = [] ↔
  hasExit node = true
  ∧ from_option (targetPasses dialogue) true (nonEmpty (defNext node)) = true
  ∧ forallb (λ c, targetPasses dialogue (defTargetNode c)) (default [] (defChoices node))
    = true.
Proof.
  unfold nodeErrors, hasExit, targetPasses.
  rewrite app_nil, app_nil.
  assert (∀ id,
            (if negb (bool_decide (id = "end")) && negb (resolves (defNodes dialogue) id)
             then [id] else []) = []
            ↔ bool_decide (id = "end") || passesForNode dialogue id = true) as Htarget.
  { intros id. rewrite resolves_passesForNode.
    destruct (bool_decide (id = "end")), (passesForNode dialogue id); simpl;
      split; congruence. }
  split.
  - intros (Hnext & Hchoices & Hexit). split; [|split].
    + destruct (bool_decide (is_Some (nonEmpty (defNext node)))); [done|].
      destruct (bool_decide (is_Some (defChoices node))); [done|].
      simpl in *. by destruct (default false (defEndConversation node)).
    + destruct (nonEmpty (defNext node)) as [n|]; [|done]. simpl.
      apply Htarget.
      destruct (negb (bool_decide (n = "end")) && negb (resolves (defNodes dialogue) n));
        [done|done].
    + destruct (defChoices node) as [cs|]; [|done]. simpl.
      apply bind_nil_Forall in Hchoices. apply forallb_forall.
      intros c Hc%list_elem_of_In. rewrite Forall_forall in Hchoices.
      specialize (Hchoices c Hc). simpl in Hchoices. apply Htarget.
      destruct (negb (bool_decide (defTargetNode c = "end"))
                && negb (resolves (defNodes dialogue) (defTargetNode c))); [done|done].
  - intros (Hexit & Hnext & Hchoices). split; [|split].
    + destruct (nonEmpty (defNext node)) as [n|]; [|done]. simpl in Hnext.
      apply Htarget in Hnext.
      destruct (negb (bool_decide (n = "end")) && negb (resolves (defNodes dialogue) n));
        [done|done].
    + destruct (defChoices node) as [cs|]; [|done]. simpl in Hchoices.
      apply bind_nil_Forall, Forall_forall. intros c Hc.
      rewrite forallb_forall in Hchoices.
      specialize (Hchoices c (proj1 (list_elem_of_In _ _) Hc)). simpl.
      apply Htarget in Hchoices.
      destruct (negb (bool_decide (defTargetNode c = "end"))
                && negb (resolves (defNodes dialogue) (defTargetNode c))); [done|done].
    + destruct (bool_decide (is_Some (nonEmpty (defNext node)))); [done|].
      destruct (bool_decide (is_Some (defChoices node))); [done|].
      simpl in Hexit. by rewrite Hexit.
Qed.

Lemma dialogueErrors_nil dialogue :
  dialogueErrors dialogue = [] ↔
  passesForNode dialogue (defStartNode dialogue) = true ∧ nodesPass dialogue = true.
Proof.
  unfold dialogueErrors, nodesPass. rewrite app_nil, resolves_passesForNode.
  rewrite bind_nil_Forall, forallb_forall, Forall_forall.
  split.
  - intros [Hstart Hnodes]. split; [by destruct (passesForNode _ _)|].
    intros [k node] Hin%list_elem_of_In.
    apply Hnodes, nodeErrors_nil in Hin as (-> & -> & ->). done.
  - intros [-> Hnodes]. split; [done|].
    intros [k node] Hin. apply nodeErrors_nil. simpl.
    specialize (Hnodes (k, node) (proj1 (list_elem_of_In _ _) Hin)). simpl in Hnodes.
    apply andb_true_iff in Hnodes as [[? ?]%andb_true_iff ?]. done.
Qed.

Lemma forallb_agree {A} (f g : A → bool) (l : list A) :
  (∀ x, x ∈ l → f x = g x) → forallb f l = forallb g l.
Proof.
  induction l as [|x l IH]; [done|]. intros Hfg. simpl.
  rewrite (Hfg x) by by left. rewrite IH; [done|]. intros y Hy. apply Hfg. by right.
Qed.

Lemma plainIds_passes dialogue :
  plainIds dialogue →
  passesForNode dialogue (defStartNode dialogue) = startNodePresent dialogue
  ∧ nodesPass dialogue = nodesWellFormed dialogue.
Proof.
  intros [Hstart Hnodes].
  assert (∀ id, id ∉ ObjectPrototype → passesForNode dialogue id = inNodeMap dialogue id)
    as Hplain.
  { intros id Hid. unfold passesForNode.
    by rewrite (bool_decide_eq_false_2 (id ∈ ObjectPrototype)), orb_false_r. }
  split; [by apply Hplain|].
  unfold nodesPass, nodesWellFormed. apply forallb_agree.
  intros [k node] Hin. simpl. rewrite <- andb_assoc. f_equal.
  destruct (Hnodes k node Hin) as [Hnext Hchoices].
  unfold targetsResolve, targetPasses, targetResolves. f_equal.
  - destruct (nonEmpty (defNext node)) as [n|]; [|done]. simpl.
    by rewrite (Hplain n (Hnext n eq_refl)).
  - apply forallb_agree. intros c Hc.
    by rewrite (Hplain _ (Hchoices c Hc)).
Qed.

(** X21.  [validateDialogueFile] reports a file valid exactly when, in each
    tree, every node has an exit (a [next], choices or the terminal marking)
    and the start node id and every target of a [next] or of a choice is a
    key of the node map of the tree or the name of a member of
    [Object.prototype], or, for a target, ["end"].  For a file that uses no
    such name as an id, this is: exactly when each tree has its start node in
    its node map and only well-formed nodes. *)
Theorem validateDialogueFile_accepts_exactly_the_well_formed (file : DialogueFile) :
  (valid (validateDialogueFile file) = true
   ↔ Forall (λ d, passesForNode d (defStartNode d) = true ∧ nodesPass d = true)
       (dialogues file))
  ∧ (Forall plainIds (dialogues file) →
     (valid (validateDialogueFile file) = true
      ↔ Forall (λ d, startNodePresent d = true ∧ nodesWellFormed d = true)
          (dialogues file))).
Proof.
  assert (valid (validateDialogueFile file) = true
          ↔ Forall (λ d, passesForNode d (defStartNode d) = true ∧ nodesPass d = true)
              (dialogues file)) as Hvalid.
  { unfold validateDialogueFile. simpl.
    rewrite bool_decide_eq_true, length_zero_iff_nil.
    rewrite bind_nil_Forall. apply Forall_proper; [|done]. intros d.
    apply dialogueErrors_nil. }
  split; [exact Hvalid|].
  intros Hplain. rewrite Hvalid. rewrite !Forall_forall. split.
  - intros Hall d Hd. rewrite Forall_forall in Hplain.
    destruct (plainIds_passes d (Hplain d Hd)) as [<- <-]. by apply Hall.
  - intros Hall d Hd. rewrite Forall_forall in Hplain.
    destruct (plainIds_passes d (Hplain d Hd)) as [-> ->]. by apply Hall.
Qed.

End ValidationVerdict.

(** ** From the files to the engine *)

Section ClosedTrees.
Import DialogueLoader DialogueManager.

Lemma convertToEngineFormat_nodes_from l : ∀ acc : list (string * DialogueNode),
  NoDup l.*1 → (∀ k, k ∈ l.*1 → k ∉ acc.*1) →
  foldl (λ nodes (e : string * DialogueNodeDefinition), mapSet e.1 (convertNode e.2) nodes)
    acc l
  = acc ++ (prod_map id convertNode <$> l).
Proof.
  induction l as [|[k def] l IH]; intros acc Hnodup Hfresh; simpl.
  - by rewrite app_nil_r.
  - rewrite fmap_cons in Hnodup. apply NoDup_cons in Hnodup as [Hk Hnodup].
    rewrite IH; [| done |].
    + rewrite mapSet_fresh by (apply Hfresh; by left). by rewrite <- app_assoc.
    + intros k' Hk'. rewrite mapSet_fresh by (apply Hfresh; by left).
      rewrite fmap_app. simpl. intros [Hin|Hin]%elem_of_app.
      * by apply (Hfresh k'); [right|].
      * apply list_elem_of_singleton in Hin. simpl in *. congruence.
Qed.

Lemma convertToEngineFormat_nodes def :
  NoDup (defNodes def).*1 →
  nodes (convertToEngineFormat def) = prod_map id convertNode <$> defNodes def.
Proof.
  intros Hnodup. unfold convertToEngineFormat. simpl.
  rewrite convertToEngineFormat_nodes_from; [done|done|].
  intros k _ Hk. by apply not_elem_of_nil in Hk.
Qed.

Lemma treeResolves_convert def id :
  NoDup (defNodes def).*1 →
  treeResolves (convertToEngineFormat def) id = targetResolves def id.
Proof.
  intros Hnodup. unfold treeResolves, targetResolves, resolves.
  rewrite convertToEngineFormat_nodes by done. rewrite entry_fmap.
  f_equal. apply bool_decide_ext. by rewrite fmap_is_Some.
Qed.

Lemma choices_convertNode node :
  default [] (choices (convertNode node)) = convertChoice <$> default [] (defChoices node).
Proof. unfold convertNode. simpl. by destruct (defChoices node) as [[|c cs]|]. Qed.

(** X22.  A dialogue definition with distinct node ids that
    passes the checks of the validator converts ([convertToEngineFormat]) to
    an engine tree that is closed: its start node, and every node that a
    [next] or a choice of one of its nodes names, is a key of the nodes of
    the tree, and so a node that the lookup of [enterNode] finds. *)
Theorem well_formed_definition_converts_to_closed_tree (def : DialogueTreeDefinition) :
  NoDup (defNodes def).*1 →
  startNodePresent def = true →
  nodesWellFormed def = true →
  treeClosed (convertToEngineFormat def) = true.
Proof.
  intros Hnodup Hstart Hwf. unfold treeClosed. apply andb_true_iff. split.
  - pose proof (treeResolves_convert def (defStartNode def) Hnodup) as Hres.
    unfold treeResolves, targetResolves in Hres. unfold startNodePresent in Hstart.
    rewrite Hstart, orb_true_r in Hres.
    apply orb_true_iff in Hres as [Hend|Hres]; [|done].
    apply bool_decide_eq_true in Hend. apply bool_decide_eq_true.
    rewrite convertToEngineFormat_nodes, entry_fmap, fmap_is_Some by done.
    unfold resolves in Hstart. by apply bool_decide_eq_true in Hstart.
  - rewrite convertToEngineFormat_nodes by done.
    unfold nodesWellFormed in Hwf. rewrite forallb_forall in Hwf.
    apply forallb_forall. intros [k node] Hin%list_elem_of_In.
    apply list_elem_of_fmap in Hin as ([k' def'] & [= -> ->] & Hin).
    apply list_elem_of_In, Hwf in Hin. simpl in Hin.
    apply andb_true_iff in Hin as [_ Htargets]. unfold targetsResolve in Htargets.
    apply andb_true_iff in Htargets as [Hnext Hchoices].
    cbn [snd]. rewrite choices_convertNode.
    change (next (convertNode def')) with (nonEmpty (defNext def')).
    apply andb_true_iff. split.
    + destruct (nonEmpty (defNext def')) as [n|]; [|done]. simpl in *.
      by rewrite treeResolves_convert.
    + rewrite forallb_forall in Hchoices.
      apply forallb_forall. intros c Hc%list_elem_of_In.
      apply list_elem_of_fmap in Hc as (c' & -> & Hc'). simpl.
      rewrite treeResolves_convert by done. by apply Hchoices, list_elem_of_In.
Qed.

End ClosedTrees.

(** ** The slots of the pending promises *)

Section LostResolvers.
Import Runtime ScriptRunner.
Context `{!Host}.

(** X13.  There is one slot for the resolver of a dismissal and one
    for the resolver of a dialogue's completion.  A script that starts with a
    command waiting for a dismissal (say, narrate, thought) overwrites the
    slot: whatever resolver was waiting there before, the machine behaves the
    same under every sequence of signals, so the earlier waiter is never
    resumed.  Likewise for [startDialogue] and the completion slot. *)
Theorem later_wait_abandons_the_earlier_one
    (command : ScriptCommand) (rest : list ScriptCommand) (m : Machine)
    (earlier other : option Resolver) (signals : list Signal) :
  (∀ e, listenerFails e = false) →
  (awaitsDismissal command = true →
   foldl deliver
     (spawn (runScript (command :: rest)) (with_dialogueDismissResolve earlier m)) signals
   = foldl deliver
       (spawn (runScript (command :: rest)) (with_dialogueDismissResolve other m)) signals)
  ∧ (∀ characterId nodeId, command = StartDialogue characterId nodeId →
     foldl deliver
       (spawn (runScript (command :: rest)) (with_dialogueCompleteResolve earlier m))
       signals
     = foldl deliver
         (spawn (runScript (command :: rest)) (with_dialogueCompleteResolve other m))
         signals).
Proof.
  intros Hl. split.
  - intros Hc. f_equal. unfold spawn. cbn [world with_dialogueDismissResolve].
    destruct command; try discriminate Hc; cbn [runScript executeCommand];
      unfold bind, emit; rewrite Hl; reflexivity.
  - intros characterId nodeId ->. f_equal. unfold spawn.
    cbn [world with_dialogueCompleteResolve runScript executeCommand].
    unfold bind, emit. rewrite Hl. reflexivity.
Qed.

End LostResolvers.

(** ** From a click to a script *)

Section HotspotHits.
Import GameScene.
Context `{!Host}.

Lemma hotspotAmong_find room point g candidates r :
  hotspotAmong room point g candidates = Some r →
  r.1
  = List.find
      (λ h, bool_decide
              (GameState.isHotspotEnabled (roomId room) (hotspotId h) g = Some true)
            && negb (conditionFails (hotspotCondition h) g).1
            && Pathfinding.isPointInPolygon point (hotspotPolygon h))
      candidates.
Proof.
  revert r. induction candidates as [|h rest IH]; intros r; simpl; [by intros [= <-]|].
  destruct (GameState.isHotspotEnabled _ _ _) as [[]|]; simpl; [| |done].
  - destruct (conditionFails _ _) as [[] out]; simpl.
    + destruct (hotspotAmong room point g rest) as [r'|]; [|done]. simpl.
      intros [= <-]. simpl. by apply IH.
    + destruct (Pathfinding.isPointInPolygon _ _); [by intros [= <-]|].
      destruct (hotspotAmong room point g rest) as [r'|]; [|done]. simpl.
      intros [= <-]. simpl. by apply IH.
  - apply IH.
Qed.

Lemma isHotspotEnabled_returns roomId hotspotId other g enabled :
  GameState.isHotspotEnabled roomId hotspotId g = Some enabled →
  ∃ b, GameState.isHotspotEnabled roomId other g = Some b.
Proof.
  unfold GameState.isHotspotEnabled.
  destruct (GameState.getRoomState roomId g); [|done|done]. by eexists.
Qed.

(** X23.  The hotspot that [getHotspotAt] returns is the first hotspot
    of the room, in the order of the room file, that is enabled, whose
    condition holds and whose polygon contains the point.  A hotspot disabled
    with [setHotspotEnabled] is never returned. *)
Theorem getHotspotAt_skips_disabled_hotspots
    (room : RoomDefinition) (id : string) (point : Point) (st : Stage) :
  sceneRoom (scene st) = Some room →
  (∀ h out, getHotspotAt point st = Some (Some h, out) →
     ∃ before after,
       hotspots room = before ++ h :: after
       ∧ GameState.isHotspotEnabled (roomId room) (hotspotId h) (game st) = Some true
       ∧ (conditionFails (hotspotCondition h) (game st)).1 = false
       ∧ Pathfinding.isPointInPolygon point (hotspotPolygon h) = true
       ∧ Forall
           (λ h', GameState.isHotspotEnabled (roomId room) (hotspotId h') (game st)
                  = Some false
                  ∨ (conditionFails (hotspotCondition h') (game st)).1 = true
                  ∨ Pathfinding.isPointInPolygon point (hotspotPolygon h') = false)
           before)
  ∧ (∀ g' h out,
     GameState.setHotspotEnabled (roomId room) id false (game st) = Some g' →
     getHotspotAt point (with_game g' st) = Some (Some h, out) →
     hotspotId h ≠ id).
Proof.
  intros Hroom. split.
  - intros h out. unfold getHotspotAt. rewrite Hroom.
    intros Hfind%hotspotAmong_find. simpl in Hfind. symmetry in Hfind.
    apply find_first in Hfind as (before & after & Heq & Hh & Hbefore).
    exists before, after. split; [done|].
    apply andb_true_iff in Hh as [[He Hc]%andb_true_iff Hp].
    apply bool_decide_eq_true in He. apply negb_true_iff in Hc.
    repeat split; try done.
    eapply Forall_impl; [exact Hbefore|]. intros h' Hh'. simpl in Hh'.
    destruct (isHotspotEnabled_returns _ _ (hotspotId h') _ _ He) as [[] He'];
      [|by left].
    rewrite (bool_decide_eq_true_2 _ He') in Hh'.
    destruct (conditionFails (hotspotCondition h') (game st)).1; [by right; left|].
    right; right. exact Hh'.
  - intros g' h out Hset. unfold getHotspotAt. cbn [scene with_game game]. rewrite Hroom.
    intros Hfind%hotspotAmong_find. simpl in Hfind. symmetry in Hfind.
    apply find_first in Hfind as (before & after & Heq & Hh & Hbefore). intros Hid.
    apply andb_true_iff in Hh as [[He Hc]%andb_true_iff Hp].
    apply bool_decide_eq_true in He.
    rewrite Hid, (isHotspotEnabled_set _ _ _ _ _ Hset) in He. done.
Qed.

End HotspotHits.

Section ClickToScript.
Import GameScene.
Context `{!Host}.

Ltac stage_cbn :=
  cbn [scene game effects console with_scene with_game with_queue with_walk
       with_player effect logged sceneRoom roomData itemNames player playerPath
       playerDistanceTraveled isWalking actionQueue currentAction selectedItem
       currentCursor actionType target actionHotspotId actionCharacterId
       actionItemId onComplete fst snd processQueue].


(** X25.  A click on an exit that no hotspot covers queues the walk and
    the exit: when the walk arrives the scene has signalled the end of the
    walk and started a script of the single command [goToRoom] to the target
    room and position of the exit; the queue is then empty and nothing is in
    progress. *)
Theorem click_on_exit_changes_room
    (room : RoomDefinition) (st : Stage) (point : Point) (exit : RoomExit)
    (out : list ConsoleEntry) :
  sceneRoom (scene st) = Some room →
  walkableArea room ≠ [] →
  getHotspotAt point st = Some (None, out) →
  (getExitAt point st).1 = Some exit →
  let st' := play [WalkArrives] (handleClick point st) in
  effects st'
  = effects st
    ++ [SignalWalkComplete "player";
        RunScript [GoToRoom (targetRoom exit) (targetPosition exit)] false]
  ∧ actionQueue (scene st') = []
  ∧ currentAction (scene st') = None
  ∧ isWalking (scene st') = false.
Proof.
  intros Hroom Hne Hh Hx.
  destruct st as [[r rd it pl pp pd iw aq ca si cc] g e c]. simpl in Hroom. subst r.
  unfold play. cbn [foldl react]. unfold handleClick. stage_cbn.
  rewrite Hh. stage_cbn.
  assert (∀ out', getExitAt point (logged out' (mkStage
            (mkScene (Some room) rd it pl pp pd iw aq ca si cc) g e c))
          = getExitAt point (mkStage
              (mkScene (Some room) rd it pl pp pd iw aq ca si cc) g e c)) as Hsame
    by done.
  rewrite Hsame. destruct (getExitAt point _) as [x out2] eqn:Hg2. simpl in Hx. subst x.
  stage_cbn. unfold queueExitInteraction, exitChain, enqueue, processNextAction.
  stage_cbn. unfold walkToWith. stage_cbn.
  destruct (findPath_returns pl (getPolygonCenter (exitPolygon exit))
              (walkableArea room) Hne) as [path ->].
  destruct path as [|p0 [|p1 path]].
  - unfold onWalkCompleteWith. stage_cbn. unfold walkArrives. stage_cbn.
    by rewrite <- !app_assoc.
  - unfold onWalkCompleteWith. stage_cbn. unfold walkArrives. stage_cbn.
    by rewrite <- !app_assoc.
  - unfold walkArrives. stage_cbn.
    destruct (last (p0 :: p1 :: path)) as [destination|] eqn:Hlast;
      [|by apply last_None in Hlast].
    unfold onWalkComplete, onWalkCompleteWith, processNextAction. stage_cbn.
    by rewrite <- !app_assoc.
Qed.

End ClickToScript.

(** ** The further properties on concrete inputs *)

Section FurtherWitnesses.
Import Examples.

Lemma approxSqrt_nonneg q : (0 <= approxSqrt q)%Q.
Proof. unfold approxSqrt, Qle. simpl. pose proof (Z.sqrt_nonneg (Qnum q * Z.pos (Qden q) * 1000000000000)). lia. Qed.

Lemma inventory_is_a_set_witness :
  GameState.hasItem "lantern" (GameState.addItem "lantern" GameState.createInitialState)
  = true
  ∧ NoDup (inventory (GameState.addItem "lantern" GameState.createInitialState))
  ∧ inventory
      (GameState.removeItem "lantern"
         (GameState.addItem "lantern" GameState.createInitialState))
    = [].
Proof.
  pose proof (inventory_is_a_set "lantern" "lantern" GameState.createInitialState)
    as (Hadd & _ & Hnodup & _ & Hround).
  split; [exact Hadd|]. split.
  - apply Hnodup. apply NoDup_nil_2.
  - apply Hround. reflexivity.
Defined.

Lemma history_fields_are_sets_witness :
  NoDup (visitedRooms
           (GameState.setCurrentRoom "saloon"
              (GameState.setCurrentRoom "saloon" GameState.createInitialState))).
Proof.
  pose proof (history_fields_are_sets "saloon" "saloon" GameState.createInitialState)
    as (_ & _ & _ & _ & _ & H1 & _).
  pose proof (history_fields_are_sets "saloon" "saloon"
                (GameState.setCurrentRoom "saloon" GameState.createInitialState))
    as (_ & _ & _ & _ & _ & H2 & _).
  apply H2, H1. apply NoDup_nil_2.
Defined.

Lemma flags_hold_the_last_write_witness :
  GameState.getFlag "visits" None
    (GameState.incrementFlag "visits" 2
       (GameState.setFlag "visits" (VStr "many") GameState.createInitialState))
  = Value (VNum 2)
  ∧ GameState.getFlag "visits" (Some (VNum 0)) GameState.createInitialState
    = Value (VNum 0)
  ∧ GameState.getFlag "constructor" (Some (VBool false)) GameState.createInitialState
    = Inherited "constructor".
Proof.
  pose proof (flags_hold_the_last_write "visits" "other" (VStr "many") 2 0 None
                (GameState.setFlag "visits" (VStr "many") GameState.createInitialState))
    as (_ & _ & _ & Hwrites).
  pose proof (flags_hold_the_last_write "visits" "other" (VStr "many") 2 0
                (Some (VNum 0)) GameState.createInitialState)
    as (_ & Hdefault & _).
  pose proof (flags_hold_the_last_write "constructor" "other" (VStr "many") 2 0
                (Some (VBool false)) GameState.createInitialState)
    as (_ & _ & Hinherited & _).
  split; [|split].
  - destruct Hwrites as (_ & _ & Hover & _); [discriminate|].
    apply Hover. intros n. vm_compute. discriminate.
  - apply Hdefault; [reflexivity|].
    apply (proj1 (bool_decide_eq_false _)). vm_compute. reflexivity.
  - apply Hinherited; [reflexivity|].
    apply (proj1 (bool_decide_eq_true _)). vm_compute. reflexivity.
Defined.

Lemma hotspot_switch_round_trip_witness :
  GameState.isHotspotEnabled "cellar" "door" GameState.createInitialState = Some true
  ∧ (∃ g',
       GameState.setHotspotEnabled "cellar" "door" false GameState.createInitialState
       = Some g'
       ∧ GameState.isHotspotEnabled "cellar" "door" g' = Some false
       ∧ GameState.isHotspotEnabled "cellar" "hatch" g'
         = GameState.isHotspotEnabled "cellar" "hatch" GameState.createInitialState)
  ∧ GameState.isHotspotEnabled "constructor" "door" GameState.createInitialState = None.
Proof.
  assert ("cellar" ∉ ObjectPrototype) as Hplain.
  { apply (proj1 (bool_decide_eq_false _)). vm_compute. reflexivity. }
  assert ("constructor" ∈ ObjectPrototype) as Hinherited.
  { apply (proj1 (bool_decide_eq_true _)). vm_compute. reflexivity. }
  pose proof (hotspot_switch_round_trip "cellar" "door" false GameState.createInitialState)
    as (Hset & Hdefault & _).
  pose proof (hotspot_switch_round_trip "constructor" "door" false
                GameState.createInitialState) as (_ & _ & Hraises).
  split; [|split].
  - by apply Hdefault.
  - destruct (Hset (or_intror Hplain)) as (g' & _ & _ & Hg' & Hdoor & Hother & _).
    exists g'. split; [exact Hg'|]. split; [exact Hdoor|].
    apply Hother. right. discriminate.
  - by apply Hraises.
Defined.



Lemma deleteSave_removes_only_that_slot_witness :
  Persistence.slotPresent savedStore 1 = true
  ∧ Persistence.slotPresent (Persistence.deleteSave 1 savedStore).2 1 = false
  ∧ (Persistence.loadGame 1 (Persistence.deleteSave 1 savedStore).2).1.1 = false.
Proof.
  split; [vm_compute; reflexivity|].
  assert ((Persistence.deleteSave 1 savedStore).1 = true) as Hok by (vm_compute; reflexivity).
  pose proof (deleteSave_removes_only_that_slot 1 savedStore Hok) as (Hgone & Hload & _).
  split; [exact Hgone|exact Hload].
Defined.

Lemma closestPointOnLineSegment_is_closest_witness :
  (Pathfinding.distanceSq (pt 5 3)
     (Pathfinding.closestPointOnLineSegment (pt 5 3) (pt 0 0) (pt 10 0))
   <= Pathfinding.distanceSq (pt 5 3) (Pathfinding.along (pt 0 0) (pt 10 0) (1 # 4)))%Q.
Proof.
  apply (proj2 (closestPointOnLineSegment_is_closest (pt 5 3) (pt 0 0) (pt 10 0)));
    vm_compute; discriminate.
Defined.

Lemma findPath_legs_are_walkable_witness :
  ∃ actualStart actualEnd path,
    Pathfinding.getClosestPointInPolygon (pt 20 90) wideArea
    = Pathfinding.Returns actualStart
    ∧ Pathfinding.getClosestPointInPolygon (pt 80 90) wideArea
      = Pathfinding.Returns actualEnd
    ∧ Pathfinding.findPath (pt 20 90) (pt 80 90) wideArea = Pathfinding.Returns path
    ∧ (Pathfinding.legsWalkable wideArea path = true
       ∨ (path = [actualStart; actualEnd]
          ∧ Pathfinding.canWalkDirectly actualStart actualEnd wideArea = false))
    ∧ (Pathfinding.legsWalkable wideArea path = true → (2 ≤ length path)%nat →
       Forall (λ p, Pathfinding.isPointInPolygon p wideArea = true) path).
Proof.
  apply (findPath_legs_are_walkable (pt 20 90) (pt 80 90) wideArea). discriminate.
Defined.

(** A path of one point whose point tests outside the polygon: the start
    (5,6) lies in the slot of the U and is clamped to a point on the slot's
    edge, within 5 of the end (1,5), and [isPointInPolygon] answers false for
    that point. *)
Example findPath_of_one_point_can_test_outside :
  ∃ actualStart,
    Pathfinding.getClosestPointInPolygon (pt 5 6) uArea = Pathfinding.Returns actualStart
    ∧ Pathfinding.getClosestPointInPolygon (pt 1 5) uArea = Pathfinding.Returns (pt 1 5)
    ∧ Pathfinding.canWalkDirectly actualStart (pt 1 5) uArea = false
    ∧ Pathfinding.findPath (pt 5 6) (pt 1 5) uArea = Pathfinding.Returns [actualStart]
    ∧ Pathfinding.legsWalkable uArea [actualStart] = true
    ∧ Pathfinding.isPointInPolygon actualStart uArea = false.
Proof. eexists. repeat split; vm_compute; reflexivity. Qed.

Lemma interpolatePath_finishes_past_the_end_witness :
  (∀ q, 0 <= Math_sqrt q)%Q
  ∧ (Pathfinding.getPathLength twoLegs == 11)%Q
  ∧ Pathfinding.finished (Pathfinding.interpolatePath twoLegs 12) = true
  ∧ Pathfinding.position (Pathfinding.interpolatePath twoLegs 12) = Some (pt 3 10)
  ∧ Pathfinding.finished (Pathfinding.interpolatePath twoLegs 11) = false.
Proof.
  assert (∀ q, 0 <= Math_sqrt q)%Q as Hsqrt by apply approxSqrt_nonneg.
  split; [exact Hsqrt|]. split; [vm_compute; reflexivity|].
  pose proof (interpolatePath_finishes_past_the_end twoLegs 12 Hsqrt) as (Hpos & _ & Hfin & _).
  pose proof (interpolatePath_finishes_past_the_end twoLegs 11 Hsqrt) as (_ & _ & Hnot & _).
  destruct Hfin as [Hiff _]; [simpl; lia|].
  destruct Hnot as [Hiff' _]; [simpl; lia|].
  assert (Pathfinding.finished (Pathfinding.interpolatePath twoLegs 12) = true) as Hdone.
  { apply Hiff. vm_compute. reflexivity. }
  split; [exact Hdone|]. split; [exact (Hpos Hdone)|].
  apply not_true_is_false. intros Hf. apply Hiff' in Hf. vm_compute in Hf. discriminate.
Defined.

Lemma runScript_keeps_reputation_in_range_witness :
  Forall (λ amount, amount ≠ NaN)
    (flat_map ScriptRunner.adjustments
       [Reputation (Finite 250); Say "Clem" "Hello." None;
        If "true" [Reputation NegInfinity] None])
  ∧ Runtime.throughout
      (λ w, GameState.reputationInRange (Runtime.game w))
      (λ w, GameState.reputationInRange (Runtime.game w)) (λ _ w, w)
      (ScriptRunner.runScript
         [Reputation (Finite 250); Say "Clem" "Hello." None;
          If "true" [Reputation NegInfinity] None]
         Runtime.initialWorld).
Proof.
  assert (Forall (λ amount, amount ≠ NaN)
            (flat_map ScriptRunner.adjustments
               [Reputation (Finite 250); Say "Clem" "Hello." None;
                If "true" [Reputation NegInfinity] None])) as Hamounts
    by (by repeat constructor).
  split; [exact Hamounts|].
  apply (runScript_keeps_reputation_in_range (λ _ w, w)).
  - intros _ w Hw. exact Hw.
  - exact Hamounts.
  - by cbn.
Defined.

Lemma runScriptWithContext_alone_witness :
  Runtime.throughout
    (λ w, ScriptRunner.getIsRunningScript w = true)
    (λ w, ScriptRunner.getIsRunningScript w = false) (λ _ w, w)
    (ScriptRunner.runScriptWithContext flagScript Runtime.initialWorld).
Proof.
  apply (runScriptWithContext_alone (λ _ w, w)). intros on w. reflexivity.
Defined.

Lemma later_wait_abandons_the_earlier_one_witness :
  foldl ScriptRunner.deliver
    (ScriptRunner.spawn (ScriptRunner.runScript laterScript) firstWaiting)
    [ScriptRunner.DialogueDismissed; ScriptRunner.DialogueDismissed]
  = foldl ScriptRunner.deliver
      (ScriptRunner.spawn (ScriptRunner.runScript laterScript)
         (ScriptRunner.with_dialogueDismissResolve None firstWaiting))
      [ScriptRunner.DialogueDismissed; ScriptRunner.DialogueDismissed].
Proof.
  assert (∀ e, listenerFails e = false) as Hl by (intros e; reflexivity).
  apply (proj1 (later_wait_abandons_the_earlier_one
                  (Narrate "The wind picks up.") [SetFlag "later" (VBool true)]
                  firstWaiting (ScriptRunner.dialogueDismissResolve firstWaiting) None
                  [ScriptRunner.DialogueDismissed; ScriptRunner.DialogueDismissed] Hl)).
  reflexivity.
Defined.

Lemma registerDialogueTree_replaces_in_place_witness :
  (Runtime.dialogueTrees
     (DialogueManager.registerDialogueTree greetingTree
        (DialogueManager.registerDialogueTree greetingTree Runtime.initialWorld))).*1
  = ["maybelle_intro"].
Proof.
  pose proof (registerDialogueTree_replaces_in_place greetingTree "maybelle_intro"
                (DialogueManager.registerDialogueTree greetingTree Runtime.initialWorld))
    as (_ & Hkeep & _).
  apply Hkeep. vm_compute. apply list_elem_of_here.
Defined.

Lemma startDialogue_at_a_missing_node_witness :
  (∃ w', DialogueManager.startDialogue 1 "maybelle" None orphanWorld = Runtime.Ret tt w'
         ∧ DialogueManager.getIsDialogueActive w' = false
         ∧ DialogueManager.getCurrentDialogueTree w' = None
         ∧ DialogueManager.getCurrentDialogueNode w' = None
         ∧ Runtime.console w'
           = Runtime.console orphanWorld
             ++ [ConsoleError "Dialogue node not found: start"]
         ∧ Runtime.dialogueEvents w'
           = Runtime.dialogueEvents orphanWorld
             ++ [DialogueEnd (Some (DialogueLoader.convertToEngineFormat orphanTree))]
         ∧ Runtime.game w' = Runtime.game orphanWorld)
  ∧ (∃ w', DialogueManager.startDialogue 1 "maybelle" (Some "toString") orphanWorld
           = Runtime.Ret tt w'
           ∧ DialogueManager.getIsDialogueActive w' = true
           ∧ DialogueManager.getCurrentDialogueNode w' = Some (MemberOf "toString")
           ∧ Runtime.console w' = Runtime.console orphanWorld).
Proof.
  assert ("start" ∉ ObjectPrototype) as Hplain.
  { apply (proj1 (bool_decide_eq_false _)). vm_compute. reflexivity. }
  assert ("toString" ∈ ObjectPrototype) as Hinherited.
  { apply (proj1 (bool_decide_eq_true _)). vm_compute. reflexivity. }
  split.
  - apply (startDialogue_at_a_missing_node 0 "maybelle" None
             (DialogueLoader.convertToEngineFormat orphanTree) orphanWorld eq_refl eq_refl).
    exact Hplain.
  - destruct (startDialogue_at_a_missing_node 0 "maybelle" (Some "toString")
                (DialogueLoader.convertToEngineFormat orphanTree) orphanWorld
                eq_refl eq_refl) as [_ Hmember].
    destruct (Hmember Hinherited) as (w' & Hrun & Hactive & _ & Hnode & Hconsole & _).
    exists w'. by repeat split.
Defined.

Lemma dialogue_calls_out_of_turn_witness :
  DialogueManager.selectChoice 4 "ask_cave" Runtime.initialWorld
  = Runtime.Ret tt Runtime.initialWorld
  ∧ DialogueManager.advanceDialogue 4 Runtime.initialWorld
    = Runtime.Ret tt Runtime.initialWorld.
Proof.
  apply (proj1 (dialogue_calls_out_of_turn 4 "ask_cave" Runtime.initialWorld)).
  left. reflexivity.
Defined.

Lemma maybelleFile_ids :
  NoDup (DialogueLoader.defId <$> DialogueLoader.dialogues maybelleFile).
Proof.
  apply NoDup_cons. split; [|apply NoDup_singleton].
  intros Hin%list_elem_of_singleton. discriminate.
Qed.

Lemma findTree_after_loadDialogueFile_witness :
  NoDup (DialogueLoader.defId <$> DialogueLoader.dialogues maybelleFile)
  ∧ DialogueManager.findTree "maybelle" loaded.2
    = Some (DialogueLoader.convertToEngineFormat lowTree).
Proof.
  split; [exact maybelleFile_ids|].
  exact (findTree_after_loadDialogueFile maybelleFile "maybelle" maybelleFile_ids).
Defined.

Lemma loadDialogueFile_fills_the_registry_witness :
  DialogueLoader.getDialoguesForCharacter "maybelle" loaded.1 = [lowTree; highTree]
  ∧ DialogueLoader.getDialogueById "maybelle_quest" loaded.1 = Some highTree.
Proof.
  pose proof (loadDialogueFile_fills_the_registry maybelleFile
                (DialogueLoader.emptyRegistry, Runtime.initialWorld))
    as (Hall & _ & _ & _ & Hid & _).
  split; [exact Hall|]. apply (Hid maybelleFile_ids highTree).
  apply list_elem_of_further, list_elem_of_here.
Defined.

Lemma findDialogueForCharacter_by_priority_witness :
  match (DialogueLoader.findDialogueForCharacter "maybelle" loaded.1
           GameState.createInitialState).1 with
  | None => DialogueLoader.dialogues maybelleFile = []
  | Some d =>
      d ∈ DialogueLoader.dialogues maybelleFile
      ∧ ((DialogueLoader.available d GameState.createInitialState = true
          ∧ ∀ e, e ∈ DialogueLoader.dialogues maybelleFile →
                 DialogueLoader.available e GameState.createInitialState = true →
                 (DialogueLoader.priorityOf e ≤ DialogueLoader.priorityOf d)%Z)
         ∨ ((∀ e, e ∈ DialogueLoader.dialogues maybelleFile →
                  DialogueLoader.available e GameState.createInitialState = false)
            ∧ ∀ e, e ∈ DialogueLoader.dialogues maybelleFile →
                   (DialogueLoader.priorityOf e ≤ DialogueLoader.priorityOf d)%Z))
  end.
Proof.
  apply (findDialogueForCharacter_by_priority "maybelle" loaded.1
           GameState.createInitialState maybelleFile).
  vm_compute. reflexivity.
Defined.

Lemma well_formed_definition_converts_to_closed_tree_witness :
  DialogueLoader.startNodePresent lowTree = true
  ∧ DialogueLoader.nodesWellFormed lowTree = true
  ∧ DialogueManager.treeClosed (DialogueLoader.convertToEngineFormat lowTree) = true.
Proof.
  split; [reflexivity|]. split; [reflexivity|].
  apply well_formed_definition_converts_to_closed_tree; [|reflexivity|reflexivity].
  apply NoDup_singleton.
Defined.

Lemma getHotspotAt_skips_disabled_hotspots_witness :
  GameScene.getHotspotAt (pt 1 9) walkingToDoor = Some (Some door, [])
  ∧ ∃ g',
      GameState.setHotspotEnabled "cellar" "door" false (GameScene.game walkingToDoor)
      = Some g'
      ∧ ∀ out,
          GameScene.getHotspotAt (pt 1 9) (GameScene.with_game g' walkingToDoor)
          ≠ Some (Some door, out).
Proof.
  split; [vm_compute; reflexivity|].
  pose proof (getHotspotAt_skips_disabled_hotspots cellar "door" (pt 1 9) walkingToDoor
                eq_refl) as [_ Hskip].
  eexists. split; [reflexivity|].
  intros out Hhit. by apply (Hskip _ door out eq_refl Hhit).
Defined.


Lemma click_on_exit_changes_room_witness :
  GameScene.effects
    (GameScene.play [GameScene.WalkArrives] (GameScene.handleClick (pt 9 1) onLanding))
  = [GameScene.SignalWalkComplete "player";
     GameScene.RunScript [GoToRoom "sinkhole" (Some (pt 480 450))] false].
Proof.
  apply (click_on_exit_changes_room landing onLanding (pt 9 1) stairs []).
  - reflexivity.
  - discriminate.
  - reflexivity.
  - vm_compute. reflexivity.
Defined.

(** The script that was waiting first is never resumed: after the later
    script has been started, dismissals run the later script to its end and
    leave the first one where it was. *)
Example first_script_never_resumes :
  let m :=
    foldl ScriptRunner.deliver
      (ScriptRunner.spawn (ScriptRunner.runScript laterScript) firstWaiting)
      [ScriptRunner.DialogueDismissed; ScriptRunner.DialogueDismissed;
       ScriptRunner.DialogueDismissed] in
  flags (Runtime.game (ScriptRunner.world m)) !! "later" = Some (VBool true)
  ∧ flags (Runtime.game (ScriptRunner.world m)) !! "first" = None
  ∧ ScriptRunner.pending m = false.
Proof. vm_compute. repeat split; reflexivity. Qed.

(** Sixteen-millisecond frames move the player by 2.4 units each; the walk
    of length [sqrt 40] to the door of the cellar ends on the third frame. *)
Example walk_to_the_door_takes_three_frames :
  (GameScene.isWalking ∘ GameScene.scene) <$> GameScene.frames 2 16 walkingToDoor
  = Some true
  ∧ (GameScene.isWalking ∘ GameScene.scene) <$> GameScene.frames 3 16 walkingToDoor
    = Some false
  ∧ (GameScene.player ∘ GameScene.scene) <$> GameScene.frames 3 16 walkingToDoor
    = Some (pt 1 7).
Proof. vm_compute. repeat split; reflexivity. Qed.

Lemma walk_arrives_after_finitely_many_frames_witness :
  ∃ n traveled destination,
    last (GameScene.playerPath (GameScene.scene walkingToDoor)) = Some destination
    ∧ GameScene.frames (S n) 16 walkingToDoor
      = Some (GameScene.arrival (GameScene.playerPath (GameScene.scene walkingToDoor))
                traveled destination walkingToDoor).
Proof.
  apply (walk_arrives_after_finitely_many_frames 16 walkingToDoor).
  - apply approxSqrt_nonneg.
  - reflexivity.
  - simpl. lia.
  - vm_compute. discriminate.
  - reflexivity.
Defined.

End FurtherWitnesses.
